(** * Grafo: adjacency-list graph with DFS, BFS and Dijkstra (graph_list.cpp)

    A shallow embedding of the class template [Grafo<T>] and of the three
    queries it offers, with the properties of the specification stated and
    proved (or refuted) on the embedding.

    Conventions of the embedding.
    - [T] is an unsigned integer type; its values are modelled in [N] and its
      largest value [numeric_limits<T>::max()] is the section variable
      [T_max].  The only arithmetic the code performs on [T] is the addition
      of a cost and a weight in [dijkstra]; it is written with its
      wrap-around modulo [T_max + 1], which is what C++ computes for a [T]
      that is not narrower than [int] ([main] uses [size_t]).
    - [std::vector] is a list; [operator[]] is unchecked in C++, so an index
      outside the vector is undefined behaviour.  The embedding reports it as
      the outcome [OutOfBounds].
    - the three [while] loops and the path reconstruction [for] loop take a
      number of iterations they may perform at most ([fuel]); a loop that
      needs more yields [OutOfFuel]. *)

From Stdlib Require Import NArith ZArith PeanoNat List Lia Bool Permutation.
Import ListNotations.
Local Open Scope N_scope.

(** ** Outcomes of a call *)

Inductive outcome (A : Type) : Type :=
| Returned (a : A)
| OutOfBounds
| OutOfFuel.

Arguments Returned {A} a.
Arguments OutOfBounds {A}.
Arguments OutOfFuel {A}.

Definition bind {A B : Type} (m : outcome A) (k : A -> outcome B) : outcome B :=
  match m with
  | Returned a => k a
  | OutOfBounds => OutOfBounds
  | OutOfFuel => OutOfFuel
  end.

Notation "x <- m ;; k" := (bind m (fun x => k))
  (at level 61, m at next level, right associativity).
Notation "' p <- m ;; k" := (bind m (fun x => match x with p => k end))
  (at level 61, p pattern, m at next level, right associativity).

(** ** Vectors *)

Definition vsize {A : Type} (v : list A) : N := N.of_nat (length v).

(** [v[i]] as an rvalue. *)
Fixpoint at_ {A : Type} (v : list A) (i : N) : outcome A :=
  match v with
  | [] => OutOfBounds
  | x :: v' => if i =? 0 then Returned x else at_ v' (N.pred i)
  end.

(** [v[i] = a]. *)
Fixpoint assign {A : Type} (v : list A) (i : N) (a : A) : outcome (list A) :=
  match v with
  | [] => OutOfBounds
  | x :: v' =>
      if i =? 0 then Returned (a :: v')
      else v'' <- assign v' (N.pred i) a ;; Returned (x :: v'')
  end.

(** ** The graph *)

Record Grafo : Type := mkGrafo {
  adjacency_list : list (list N);
  weights : list (list N)
}.

(** [Grafo(n)]: both vectors are resized to [n] empty rows. *)
Definition Grafo_new (n : N) : Grafo :=
  mkGrafo (repeat [] (N.to_nat n)) (repeat [] (N.to_nat n)).

(** [vv[i].push_back(x)]. *)
Definition push_back_at (vv : list (list N)) (i x : N) : outcome (list (list N)) :=
  row <- at_ vv i ;; assign vv i (row ++ [x]).

Definition add_edge (g : Grafo) (from to weight : N) : outcome Grafo :=
  a1 <- push_back_at (adjacency_list g) from to ;;
  a2 <- push_back_at a1 to from ;;
  w1 <- push_back_at (weights g) from weight ;;
  w2 <- push_back_at w1 to weight ;;
  Returned (mkGrafo a2 w2).

(** A whole construction: [Grafo(n)] followed by the [add_edge] calls of the
    list, in order. *)
Fixpoint add_edges (g : Grafo) (es : list (N * N * N)) : outcome Grafo :=
  match es with
  | [] => Returned g
  | (from, to, weight) :: es' =>
      g' <- add_edge g from to weight ;; add_edges g' es'
  end.

Definition build (n : N) (es : list (N * N * N)) : outcome Grafo :=
  add_edges (Grafo_new n) es.

(** The adjacency sequence of a node, as (neighbour, weight) entries: row
    [a] of [adjacency_list] read together with row [a] of [weights]. *)
Definition row_of (vv : list (list N)) (a : N) : list N :=
  match at_ vv a with Returned r => r | _ => [] end.

Definition entries (g : Grafo) (a : N) : list (N * N) :=
  combine (row_of (adjacency_list g) a) (row_of (weights g) a).

(** ** Control of a loop iteration *)

Inductive control (S : Type) : Type :=
| Continue (s : S)
| Break (s : S).

Arguments Continue {S} s.
Arguments Break {S} s.

(** ** Path reconstruction

    [for(T node = dst; node != src; node = path[node])
       reconstructed_path.insert(reconstructed_path.begin(), node);
     reconstructed_path.insert(reconstructed_path.begin(), src);]
    The three queries end with this same loop. *)
Fixpoint reconstruct (fuel : nat) (path : list N) (src node : N)
         (reconstructed_path : list N) : outcome (list N) :=
  if node =? src then Returned (src :: reconstructed_path)
  else
    match fuel with
    | O => OutOfFuel
    | S fuel' =>
        prev <- at_ path node ;;
        reconstruct fuel' path src prev (node :: reconstructed_path)
    end.

(** ** DFS and BFS

    The two functions have the same text but for the container [to_visit]:
    a [std::stack] in [DFS], a [std::queue] in [BFS].  Both containers are
    kept as a list whose head is the element [top()]/[front()] returns and
    [pop()] removes; they differ in where [push] puts the new element. *)

Definition stack_push (x : N) (s : list N) : list N := x :: s.
Definition queue_push (x : N) (q : list N) : list N := q ++ [x].

Record search_state : Type := mkSearch {
  path : list N;
  visited : list bool;
  to_visit : list N
}.

Section Traversal.

Variable T_max : N.
Variable push : N -> list N -> list N.

(** [for(auto& n : adjacency_list[current])
      if(!visited[n]) { to_visit.push(n); path[n] = current; }] *)
Fixpoint discover (row : list N) (current : N) (vis : list bool)
         (pth : list N) (tv : list N) : outcome (list N * list N) :=
  match row with
  | [] => Returned (pth, tv)
  | n :: row' =>
      b <- at_ vis n ;;
      if b then discover row' current vis pth tv
      else
        pth' <- assign pth n current ;;
        discover row' current vis pth' (push n tv)
  end.

(** One evaluation of the loop condition and, when it holds, of the body. *)
Definition search_step (g : Grafo) (dst : N) (st : search_state)
  : outcome (control search_state) :=
  match to_visit st with
  | [] => Returned (Break st)
  | current :: rest =>
      if current =? dst then Returned (Break (mkSearch (path st) (visited st) rest))
      else
        b <- at_ (visited st) current ;;
        if b then Returned (Continue (mkSearch (path st) (visited st) rest))
        else
          vis' <- assign (visited st) current true ;;
          row <- at_ (adjacency_list g) current ;;
          ' (pth', tv') <- discover row current vis' (path st) rest ;;
          Returned (Continue (mkSearch pth' vis' tv'))
  end.

Fixpoint search_loop (fuel : nat) (g : Grafo) (dst : N) (st : search_state)
  : outcome search_state :=
  match fuel with
  | O => OutOfFuel
  | S fuel' =>
      c <- search_step g dst st ;;
      match c with
      | Break st' => Returned st'
      | Continue st' => search_loop fuel' g dst st'
      end
  end.

(** The state after at most [k] evaluations of the loop (fewer when the loop
    is left before); used to speak of what holds during a query. *)
Fixpoint search_iterate (k : nat) (g : Grafo) (dst : N) (st : search_state)
  : outcome search_state :=
  match k with
  | O => Returned st
  | S k' =>
      c <- search_step g dst st ;;
      match c with
      | Break st' => Returned st'
      | Continue st' => search_iterate k' g dst st'
      end
  end.

Definition search_init (g : Grafo) (src : N) : search_state :=
  let n := length (adjacency_list g) in
  mkSearch (repeat T_max n) (repeat false n) (push src []).

Definition traverse (fuel : nat) (g : Grafo) (src dst : N) : outcome (list N) :=
  st <- search_loop fuel g dst (search_init g src) ;;
  reconstruct fuel (path st) src dst [].

End Traversal.

Definition DFS (T_max : N) := traverse T_max stack_push.
Definition BFS (T_max : N) := traverse T_max queue_push.

(** ** Dijkstra

    [priority_queue<pair<T,T>, vector<pair<T,T>>, greater<pair<T,T>>>]:
    [top()] is the least pair in the lexicographic order of [pair], [pop()]
    removes it.  The heap is kept as the list of the pairs it holds. *)

Definition pair_ltb (a b : N * N) : bool :=
  (fst a <? fst b) || ((fst a =? fst b) && (snd a <? snd b)).

Definition pair_eqb (a b : N * N) : bool :=
  (fst a =? fst b) && (snd a =? snd b).

Fixpoint pq_least (m : N * N) (q : list (N * N)) : N * N :=
  match q with
  | [] => m
  | x :: q' => pq_least (if pair_ltb x m then x else m) q'
  end.

Fixpoint pq_remove (m : N * N) (q : list (N * N)) : list (N * N) :=
  match q with
  | [] => []
  | x :: q' => if pair_eqb x m then q' else x :: pq_remove m q'
  end.

Definition pq_push (x : N * N) (q : list (N * N)) : list (N * N) := x :: q.

Definition pq_pop (q : list (N * N)) : option ((N * N) * list (N * N)) :=
  match q with
  | [] => None
  | x :: q' => let m := pq_least x q' in Some (m, pq_remove m q)
  end.

Record dijkstra_state : Type := mkDijkstra {
  dj_path : list N;
  dj_visited : list bool;
  costs : list N;
  priority_queue : list (N * N)
}.

Section Dijkstra.

Variable T_max : N.

(** Addition in [T]. *)
Definition T_add (a b : N) : N := (a + b) mod (T_max + 1).

(** [for(size_t i = 0; i < adjacency_list[current_node].size(); i++)]: [row]
    is what is left of [adjacency_list[current_node]] from index [i] on. *)
Fixpoint relax (g : Grafo) (current_node : N) (row : list N) (i : N)
         (pth cst : list N) (pq : list (N * N))
  : outcome (list N * list N * list (N * N)) :=
  match row with
  | [] => Returned (pth, cst, pq)
  | adjacent_node :: row' =>
      wrow <- at_ (weights g) current_node ;;
      adjacent_cost <- at_ wrow i ;;
      c_cur <- at_ cst current_node ;;
      c_adj <- at_ cst adjacent_node ;;
      if T_add c_cur adjacent_cost <? c_adj then
        cst' <- assign cst adjacent_node (T_add c_cur adjacent_cost) ;;
        c_new <- at_ cst' adjacent_node ;;
        pth' <- assign pth adjacent_node current_node ;;
        relax g current_node row' (N.succ i) pth' cst'
              (pq_push (c_new, adjacent_node) pq)
      else relax g current_node row' (N.succ i) pth cst pq
  end.

Definition dijkstra_step (g : Grafo) (dst : N) (st : dijkstra_state)
  : outcome (control dijkstra_state) :=
  match pq_pop (priority_queue st) with
  | None => Returned (Break st)
  | Some ((current_cost, current_node), rest) =>
      if current_node =? dst
      then Returned (Break (mkDijkstra (dj_path st) (dj_visited st) (costs st) rest))
      else
        b <- at_ (dj_visited st) current_node ;;
        if b
        then Returned (Continue (mkDijkstra (dj_path st) (dj_visited st) (costs st) rest))
        else
          vis' <- assign (dj_visited st) current_node true ;;
          c <- at_ (costs st) current_node ;;
          if negb (current_cost =? c)
          then Returned (Continue (mkDijkstra (dj_path st) vis' (costs st) rest))
          else
            row <- at_ (adjacency_list g) current_node ;;
            ' (pth', cst', pq') <-
              relax g current_node row 0 (dj_path st) (costs st) rest ;;
            Returned (Continue (mkDijkstra pth' vis' cst' pq'))
  end.

Fixpoint dijkstra_loop (fuel : nat) (g : Grafo) (dst : N) (st : dijkstra_state)
  : outcome dijkstra_state :=
  match fuel with
  | O => OutOfFuel
  | S fuel' =>
      c <- dijkstra_step g dst st ;;
      match c with
      | Break st' => Returned st'
      | Continue st' => dijkstra_loop fuel' g dst st'
      end
  end.

(** The state before the loop; [cst0] is [costs] after [costs[src] = 0]. *)
Definition dijkstra_init (g : Grafo) (cst0 : list N) (src : N) : dijkstra_state :=
  let n := length (adjacency_list g) in
  mkDijkstra (repeat 0 n) (repeat false n) cst0 (pq_push (0, src) []).

Definition dijkstra (fuel : nat) (g : Grafo) (src dst : N)
  : outcome (N * list N) :=
  let n := length (adjacency_list g) in
  cst0 <- assign (repeat T_max n) src 0 ;;
  st <- dijkstra_loop fuel g dst (dijkstra_init g cst0 src) ;;
  p <- reconstruct fuel (dj_path st) src dst [] ;;
  c <- at_ (costs st) dst ;;
  Returned (c, p).

End Dijkstra.

(** ** The program of [main] *)

Definition size_t_max : N := 2 ^ 64 - 1.

Definition main_edges : list (N * N * N) :=
  [ (0, 1, 7); (0, 5, 14); (1, 2, 10); (1, 3, 20);
    (2, 3, 11); (2, 5, 1); (2, 4, 3); (4, 5, 9) ].

(** The graph [main] builds, as the eight calls leave it. *)
Definition main_graph : Grafo :=
  mkGrafo [[1; 5]; [0; 2; 3]; [1; 3; 5; 4]; [1; 2]; [2; 5]; [0; 2; 4]]
          [[7; 14]; [7; 10; 20]; [10; 11; 1; 3]; [20; 11]; [3; 9]; [14; 1; 9]].

(** ** Small graphs used as test inputs *)

(** Three nodes, each joined to the other two. *)
Definition triangle_edges : list (N * N * N) := [ (0, 1, 1); (0, 2, 1); (1, 2, 1) ].
Definition triangle : Grafo :=
  mkGrafo [[1; 2]; [0; 2]; [0; 1]] [[1; 1]; [1; 1]; [1; 1]].

(** A line 0 - 1 - 2 whose second edge weighs [w]. *)
Definition line_edges (w : N) : list (N * N * N) := [ (0, 1, 1); (1, 2, w) ].
Definition line (w : N) : Grafo := mkGrafo [[1]; [0; 2]; [1]] [[1]; [1; w]; [w]].


(** ** Notions the statements are written with *)

Definition node_count (g : Grafo) : N := vsize (adjacency_list g).

(** [v] occurs in the adjacency row of [u]. *)
Definition edge (g : Grafo) (u v : N) : Prop :=
  In v (row_of (adjacency_list g) u).

(** [u :: rest] is a sequence of nodes that ends with [v] and whose
    consecutive nodes are joined by an edge. *)
Fixpoint walk (g : Grafo) (u : N) (rest : list N) (v : N) : Prop :=
  match rest with
  | [] => u = v
  | x :: rest' => edge g u x /\ walk g x rest' v
  end.

Definition reachable (g : Grafo) (src dst : N) : Prop :=
  exists rest, walk g src rest dst.

Definition sumN (l : list N) : N := fold_right N.add 0 l.

(** The same with the adjacency entry taken at each step: [steps] lists the
    (node, weight) entries followed from [u] to [v]. *)
Fixpoint wwalk (g : Grafo) (u : N) (steps : list (N * N)) (v : N) : Prop :=
  match steps with
  | [] => u = v
  | e :: steps' => In e (entries g u) /\ wwalk g (fst e) steps' v
  end.

Definition weight_of (steps : list (N * N)) : N := sumN (map snd steps).

(** Sum of all the weights stored in the graph (each edge is stored twice). *)
Definition total_weight (g : Grafo) : N := sumN (map sumN (weights g)).

(** Number of adjacency entries stored in the graph. *)
Definition total_entries (g : Grafo) : nat :=
  list_sum (map (@length N) (adjacency_list g)).

(** What [Grafo(n)] and [add_edge] maintain. *)
Definition wf (g : Grafo) : Prop :=
  length (weights g) = length (adjacency_list g) /\
  (forall u, length (row_of (weights g) u) = length (row_of (adjacency_list g) u)) /\
  (forall u x, In x (row_of (adjacency_list g) u) -> x < node_count g).

(** ** Invariants of the search loop of DFS and BFS *)

Definition unvisited (vis : list bool) (x : N) : bool :=
  match at_ vis x with
  | Returned false => true
  | _ => false
  end.

(** [chain g src pth vis v rest]: following the recorded predecessors from
    [v] leads to [src] through visited nodes, and [src :: rest] is the
    sequence of nodes met, read from [src] to [v]. *)
Inductive chain (g : Grafo) (src : N) (pth : list N) (vis : list bool)
  : N -> list N -> Prop :=
| chain_src : chain g src pth vis src []
| chain_step v u rest :
    v <> src ->
    at_ pth v = Returned u ->
    at_ vis u = Returned true ->
    edge g u v ->
    chain g src pth vis u rest ->
    chain g src pth vis v (rest ++ [v]).

Record search_inv (T_max : N) (g : Grafo) (src dst : N) (st : search_state)
  : Prop := {
  si_path_len : length (path st) = length (adjacency_list g);
  si_vis_len : length (visited st) = length (adjacency_list g);
  si_frontier : forall x, In x (to_visit st) -> x < node_count g;
  si_src : at_ (visited st) src = Returned true \/ to_visit st = [src];
  si_closed : forall u v,
      at_ (visited st) u = Returned true -> edge g u v ->
      at_ (visited st) v = Returned true \/ In v (to_visit st);
  si_dst : at_ (visited st) dst <> Returned true;
  si_chain : forall v,
      at_ (visited st) v = Returned true \/ In v (to_visit st) ->
      exists rest, chain g src (path st) (visited st) v rest;
  si_sentinel : forall v u,
      at_ (path st) v = Returned u -> u = T_max \/ reachable g src v
}.

(** What holds when the loop is left: by [break], with [dst] taken from the
    frontier, or because the frontier is empty. *)
Definition search_post (T_max : N) (g : Grafo) (src dst : N) (st : search_state)
  : Prop :=
  (exists rest, chain g src (path st) (visited st) dst rest) \/
  (search_inv T_max g src dst st /\ to_visit st = []).

(** Adjacency entries of the nodes not yet marked visited. *)
Fixpoint pending (adj : list (list N)) (vis : list bool) : nat :=
  match adj, vis with
  | row :: adj', b :: vis' => (if b then 0 else length row) + pending adj' vis'
  | _, _ => 0
  end%nat.

Definition search_measure (g : Grafo) (st : search_state) : nat :=
  (length (to_visit st) + pending (adjacency_list g) (visited st))%nat.

(** ** Invariants of the loop of Dijkstra *)

Definition dijkstra_measure (g : Grafo) (st : dijkstra_state) : nat :=
  (length (priority_queue st) + pending (adjacency_list g) (dj_visited st))%nat.

(** Facts that hold whatever the weights are: indices stay inside the
    vectors and only nodes reachable from [src] are ever touched. *)
Record dj_safe (T_max : N) (g : Grafo) (src : N)
       (pth : list N) (vis : list bool) (cst : list N) (pq : list (N * N))
  : Prop := {
  ds_path_len : length pth = length (adjacency_list g);
  ds_vis_len : length vis = length (adjacency_list g);
  ds_cost_len : length cst = length (adjacency_list g);
  ds_queue : forall c v, In (c, v) pq -> v < node_count g /\ reachable g src v;
  ds_path : forall v u, at_ pth v = Returned u -> u < node_count g;
  ds_pred : forall v u, at_ pth v = Returned u -> u = 0 \/ reachable g src v;
  ds_cost : forall v c, at_ cst v = Returned c -> c = T_max \/ reachable g src v
}.

Definition dj_safe_state (T_max : N) (g : Grafo) (src : N) (st : dijkstra_state)
  : Prop :=
  dj_safe T_max g src (dj_path st) (dj_visited st) (costs st) (priority_queue st).

(** Weights stored in the rows of the nodes marked visited. *)
Fixpoint spent (ws : list (list N)) (vis : list bool) : N :=
  match ws, vis with
  | wrow :: ws', b :: vis' => (if b then sumN wrow else 0) + spent ws' vis'
  | _, _ => 0
  end.

(** [dchain g src pth vis cst v steps]: the recorded predecessors lead from
    [v] back to [src] through visited nodes, [steps] are the adjacency
    entries followed from [src] to [v], and the cost recorded for each node
    met is the cost of its predecessor plus the weight of the entry. *)
Inductive dchain (g : Grafo) (src : N) (pth : list N) (vis : list bool)
          (cst : list N) : N -> list (N * N) -> Prop :=
| dchain_src : dchain g src pth vis cst src []
| dchain_step v u w cu steps :
    v <> src ->
    at_ pth v = Returned u ->
    at_ vis u = Returned true ->
    In (v, w) (entries g u) ->
    at_ cst u = Returned cu ->
    at_ cst v = Returned (cu + w) ->
    dchain g src pth vis cst u steps ->
    dchain g src pth vis cst v (steps ++ [(v, w)]).

(** The invariant of the outer loop is [dj_inv] with [remaining = []]; inside
    the [for] loop over the row of [cur], [remaining] holds the entries of
    that row still to be examined. *)
Record dj_inv (T_max : N) (g : Grafo) (src dst : N)
       (cur : N) (remaining : list (N * N))
       (pth : list N) (vis : list bool) (cst : list N) (pq : list (N * N))
  : Prop := {
  di_src : at_ cst src = Returned 0;
  di_queue : forall c v, In (c, v) pq ->
      exists cv, at_ cst v = Returned cv /\ cv <= c /\ c < T_max;
  di_unvisited : forall v cv,
      at_ cst v = Returned cv -> cv < T_max -> at_ vis v <> Returned true ->
      In (cv, v) pq;
  di_relaxed : forall u v w cu,
      at_ vis u = Returned true -> In (v, w) (entries g u) ->
      at_ cst u = Returned cu ->
      (u = cur /\ In (v, w) remaining) \/
      (exists cv, at_ cst v = Returned cv /\ cv <= cu + w /\ cv < T_max);
  di_mono : forall u cu c v,
      at_ vis u = Returned true -> at_ cst u = Returned cu -> In (c, v) pq ->
      cu <= c;
  di_bound : forall v cv,
      at_ cst v = Returned cv -> cv = T_max \/ cv <= spent (weights g) vis;
  di_dst : at_ vis dst <> Returned true;
  di_chain : forall v cv,
      at_ cst v = Returned cv -> cv < T_max ->
      exists steps, dchain g src pth vis cst v steps;
  di_visited : forall u,
      at_ vis u = Returned true ->
      exists cu, at_ cst u = Returned cu /\ cu < T_max
}.

Definition dj_inv_state (T_max : N) (g : Grafo) (src dst : N) (st : dijkstra_state)
  : Prop :=
  dj_inv T_max g src dst 0 [] (dj_path st) (dj_visited st) (costs st)
         (priority_queue st).

(** What holds when the loop is left by [break]: the cost recorded for [dst]
    is that of the chain of predecessors and no walk from [src] to [dst] is
    cheaper. *)
Definition dj_found (T_max : N) (g : Grafo) (src dst : N) (st : dijkstra_state)
  : Prop :=
  exists steps,
    at_ (costs st) dst = Returned (weight_of steps) /\
    dchain g src (dj_path st) (dj_visited st) (costs st) dst steps /\
    forall steps', wwalk g src steps' dst -> weight_of steps <= weight_of steps'.

(** * SegmentTree: range sums with point updates (seg_tree.cpp)

    Conventions of the embedding, besides those above.
    - The values of [T] are integers between [T_min] and [T_min + T_card - 1]
      ([T_min = 0] for an unsigned type, [T_min = - T_card / 2] for a signed
      one; [main] uses [int]).  [+], [-] and [+=] on [T] are written with
      their result brought back into that range modulo [T_card]: what C++
      defines for an unsigned [T], and the result of a signed [T] whenever it
      is defined (no overflow).
    - Indices are [size_t] values, with the wrap-around of their arithmetic
      modulo [2 ^ 64] written out.
    - The constructor computes the length of [tree] in floating point,
      [2 * pow(2, ceil(log2(arr_size))) - 1]; the embedding takes the
      resulting length as the argument [size].
    - The two recursive calls that are the operands of [+] in [build_tree]
      and [get_sum_helper] are unordered in C++; the embedding runs the left
      one first. *)

Definition size_t_card : N := 2 ^ 64.

Definition sz (z : N) : N := z mod size_t_card.

(** [a - b] in [size_t]. *)
Definition sz_sub (a b : N) : N := (a + size_t_card - b) mod size_t_card.

(** [left + (right - left) / 2] in [size_t]. *)
Definition mid_of (left right : N) : N := sz (left + sz_sub right left / 2).

Record SegmentTree : Type := mkSegmentTree {
  tree : list Z;
  arr_size : N;
  arr : list Z
}.

Section SegmentTreeCode.

Variables T_min T_card : Z.

Definition T_wrap (z : Z) : Z := (T_min + (z - T_min) mod T_card)%Z.

Definition T_plus (a b : Z) : Z := T_wrap (a + b).
Definition T_minus (a b : Z) : Z := T_wrap (a - b).

Fixpoint build_tree (fuel : nat) (a : list Z) (left right st_index : N)
         (tr : list Z) : outcome (Z * list Z) :=
  match fuel with
  | O => OutOfFuel
  | S fuel' =>
      if left =? right then
        v <- at_ a left ;;
        tr' <- assign tr st_index v ;;
        Returned (v, tr')
      else
        let mid := mid_of left right in
        ' (l, tr1) <- build_tree fuel' a left mid (sz (2 * st_index + 1)) tr ;;
        ' (r, tr2) <- build_tree fuel' a (sz (mid + 1)) right (sz (2 * st_index + 2)) tr1 ;;
        tr3 <- assign tr2 st_index (T_plus l r) ;;
        v <- at_ tr3 st_index ;;
        Returned (v, tr3)
  end.

Fixpoint get_sum_helper (fuel : nat) (tr : list Z)
         (query_start query_end left right st_index : N) : outcome Z :=
  match fuel with
  | O => OutOfFuel
  | S fuel' =>
      if (query_start <=? left) && (right <=? query_end) then at_ tr st_index
      else if (right <? query_start) || (query_end <? left) then Returned 0%Z
      else
        let mid := mid_of left right in
        l <- get_sum_helper fuel' tr query_start query_end left mid
                            (sz (2 * st_index + 1)) ;;
        r <- get_sum_helper fuel' tr query_start query_end (sz (mid + 1)) right
                            (sz (2 * st_index + 2)) ;;
        Returned (T_plus l r)
  end.

Fixpoint update_helper (fuel : nat) (difference : Z) (index left right st_index : N)
         (tr : list Z) : outcome (list Z) :=
  match fuel with
  | O => OutOfFuel
  | S fuel' =>
      if (index <? left) || (right <? index) then Returned tr
      else
        old <- at_ tr st_index ;;
        tr1 <- assign tr st_index (T_plus old difference) ;;
        if left =? right then Returned tr1
        else
          let mid := mid_of left right in
          tr2 <- update_helper fuel' difference index left mid
                               (sz (2 * st_index + 1)) tr1 ;;
          update_helper fuel' difference index (sz (mid + 1)) right
                        (sz (2 * st_index + 2)) tr2
  end.

(** [SegmentTree(arr)], with [size] the length given to [tree]. *)
Definition SegmentTree_new (fuel : nat) (size : N) (a : list Z)
  : outcome SegmentTree :=
  let n := sz (vsize a) in
  ' (_, tr) <- build_tree fuel a 0 (sz_sub n 1) 0 (repeat 0%Z (N.to_nat size)) ;;
  Returned (mkSegmentTree tr n a).

Definition get_sum (fuel : nat) (st : SegmentTree) (query_start query_end : N)
  : outcome Z :=
  get_sum_helper fuel (tree st) query_start query_end 0 (sz_sub (arr_size st) 1) 0.

Definition update (fuel : nat) (st : SegmentTree) (index : N) (new_val : Z)
  : outcome SegmentTree :=
  old <- at_ (arr st) index ;;
  let diff := T_minus new_val old in
  a' <- assign (arr st) index new_val ;;
  tr' <- update_helper fuel diff index 0 (sz_sub (arr_size st) 1) 0 (tree st) ;;
  Returned (mkSegmentTree tr' (arr_size st) a').

(** A sequence of [update] calls, in order. *)
Fixpoint updates (fuel : nat) (st : SegmentTree) (us : list (N * Z))
  : outcome SegmentTree :=
  match us with
  | [] => Returned st
  | (index, new_val) :: us' =>
      st' <- update fuel st index new_val ;; updates fuel st' us'
  end.

End SegmentTreeCode.

(** ** Notions the statements on the segment tree are written with *)

(** The sum of the elements of [a] whose index lies between [lo] and [hi],
    both included; [i] is the index of the head of [a]. *)
Fixpoint sum_between (a : list Z) (i lo hi : N) : Z :=
  match a with
  | [] => 0%Z
  | x :: a' =>
      ((if ((lo <=? i) && (i <=? hi))%N then x else 0) + sum_between a' (N.succ i) lo hi)%Z
  end.

Definition range_sum (a : list Z) (lo hi : N) : Z := sum_between a 0 lo hi.

(** [x] lies between [lo] and [hi], both included. *)
Definition inb (lo hi x : N) : bool := (lo <=? x) && (x <=? hi).

(** [z] is a value of [T]. *)
Definition T_value (T_min T_card : Z) (z : Z) : Prop :=
  (T_min <= z < T_min + T_card)%Z.

(** [a] after the assignments [a[index] = new_val] of the list, in order;
    an index outside [a] leaves it as it is. *)
Fixpoint assigned (a : list Z) (us : list (N * Z)) : list Z :=
  match us with
  | [] => a
  | (index, new_val) :: us' =>
      assigned (match assign a index new_val with Returned a' => a' | _ => a end) us'
  end.

(** The least length of [tree] the constructor may ask for. *)
Definition tree_size (n : N) : N := 2 * 2 ^ N.log2_up n - 1.

(** Node [j] lies in the subtree of node [i] (children of [i] are [2i+1] and
    [2i+2]). *)
Definition desc (i j : N) : Prop := exists k, (j + 1) / 2 ^ k = i + 1.

(** A subtree rooted at index [i] for a segment of [len] elements stays
    inside a vector of [size] elements. *)
Definition fits (size i len : N) : Prop :=
  exists h, len <= 2 ^ h /\ (i + 2) * 2 ^ h <= size + 1.

(** Node [i] and the nodes below it hold the sums of the segment
    [[left, right]] of [a] and of its halves. *)
Inductive node_ok (T_min T_card : Z) (a tr : list Z) : N -> N -> N -> Prop :=
| node_ok_leaf left i :
    at_ tr i = Returned (T_wrap T_min T_card (range_sum a left left)) ->
    node_ok T_min T_card a tr left left i
| node_ok_inner left right i :
    left < right ->
    at_ tr i = Returned (T_wrap T_min T_card (range_sum a left right)) ->
    node_ok T_min T_card a tr left (left + (right - left) / 2) (2 * i + 1) ->
    node_ok T_min T_card a tr (left + (right - left) / 2 + 1) right (2 * i + 2) ->
    node_ok T_min T_card a tr left right i.

(** What the constructor establishes and [update] keeps. *)
Record st_ok (T_min T_card : Z) (st : SegmentTree) : Prop := {
  so_size : arr_size st = vsize (arr st);
  so_nonempty : 1 <= arr_size st;
  so_arr : vsize (arr st) < size_t_card;
  so_tree : vsize (tree st) < size_t_card;
  so_values : Forall (T_value T_min T_card) (arr st);
  so_fits : fits (vsize (tree st)) 0 (arr_size st);
  so_nodes : node_ok T_min T_card (arr st) (tree st) 0 (arr_size st - 1) 0
}.

(** [SegmentTree<int>], as in [main]. *)
Definition int_min : Z := (- 2 ^ 31)%Z.
Definition int_card : Z := (2 ^ 32)%Z.

(** The array of [main] in seg_tree.cpp. *)
Definition main_arr : list Z := [1; 3; 5; 7; 9; 11]%Z.

(** A valid argument of [update] for an array of [n] elements. *)
Definition valid_update (T_min T_card : Z) (n : N) (u : N * Z) : Prop :=
  fst u < n /\ T_value T_min T_card (snd u).

(** [main] of seg_tree.cpp with an array [a] in place of the literal one:
    the three values written to [cout]. *)
Definition seg_main (fuel : nat) (size : N) (a : list Z) : outcome (list Z) :=
  let n := sz (vsize a) in
  st <- SegmentTree_new int_min int_card fuel size a ;;
  out1 <- get_sum int_min int_card fuel st 0 1 ;;
  st1 <- update int_min int_card fuel st 1 9%Z ;;
  out2 <- get_sum int_min int_card fuel st1 0 1 ;;
  sum <- get_sum int_min int_card fuel st1 0 (sz_sub n 2) ;;
  st2 <- update int_min int_card fuel st1 (sz_sub n 1)
                (T_minus int_min int_card 100%Z sum) ;;
  out3 <- get_sum int_min int_card fuel st2 0 (sz_sub n 1) ;;
  Returned [out1; out2; out3].

(** * Properties *)

(** ** Outcomes *)

Lemma bind_Returned {A B : Type} (m : outcome A) (k : A -> outcome B) (b : B) :
  bind m k = Returned b -> exists a, m = Returned a /\ k a = Returned b.
Proof.
  destruct m; simpl; intros H; try discriminate. eauto.
Qed.

Ltac inv_bind H :=
  let a := fresh "x" in
  let E := fresh "E" in
  apply bind_Returned in H; destruct H as (a & E & H).

(** ** Vectors *)

Lemma vsize_cons {A : Type} (x : A) (v : list A) : vsize (x :: v) = N.succ (vsize v).
Proof. unfold vsize. simpl length. lia. Qed.

Lemma at_range {A : Type} (v : list A) : forall i x,
  at_ v i = Returned x -> i < vsize v.
Proof.
  induction v as [|y v IH]; simpl; intros i x H; [discriminate|].
  rewrite vsize_cons. destruct (N.eqb_spec i 0); [lia|].
  apply IH in H. lia.
Qed.

Lemma at_in_range {A : Type} (v : list A) : forall i,
  i < vsize v -> exists x, at_ v i = Returned x.
Proof.
  induction v as [|y v IH]; intros i H.
  - unfold vsize in H; simpl in H; lia.
  - rewrite vsize_cons in H. simpl. destruct (N.eqb_spec i 0); [eauto|].
    apply IH. lia.
Qed.

Lemma at_out_of_range {A : Type} (v : list A) : forall i,
  vsize v <= i -> at_ v i = OutOfBounds.
Proof.
  induction v as [|y v IH]; intros i H; [reflexivity|].
  rewrite vsize_cons in H. simpl. destruct (N.eqb_spec i 0); [lia|].
  apply IH. lia.
Qed.

Lemma at_not_OutOfFuel {A : Type} (v : list A) : forall i, at_ v i <> OutOfFuel.
Proof.
  induction v as [|y v IH]; simpl; intros i; [discriminate|].
  destruct (i =? 0); [discriminate|apply IH].
Qed.

Lemma at_In {A : Type} (v : list A) : forall i x, at_ v i = Returned x -> In x v.
Proof.
  induction v as [|y v IH]; simpl; intros i x H; [discriminate|].
  destruct (i =? 0); [left; congruence|right; eauto].
Qed.

Lemma In_at {A : Type} (v : list A) : forall x, In x v -> exists i, at_ v i = Returned x.
Proof.
  induction v as [|y v IH]; simpl; intros x H; [contradiction|].
  destruct H as [->|H].
  - exists 0. reflexivity.
  - destruct (IH x H) as [i Hi]. exists (N.succ i).
    destruct (N.eqb_spec (N.succ i) 0); [lia|]. now rewrite N.pred_succ.
Qed.

Lemma at_repeat {A : Type} (x : A) (n : nat) : forall i,
  i < N.of_nat n -> at_ (repeat x n) i = Returned x.
Proof.
  induction n as [|n IH]; intros i H; [lia|].
  simpl. destruct (N.eqb_spec i 0); [reflexivity|]. apply IH. lia.
Qed.

Lemma at_app_here {A : Type} (v1 : list A) : forall (v2 : list A) x,
  at_ (v1 ++ x :: v2) (vsize v1) = Returned x.
Proof.
  induction v1 as [|y v1 IH]; intros v2 x; [reflexivity|].
  rewrite vsize_cons. simpl. destruct (N.eqb_spec (N.succ (vsize v1)) 0); [lia|].
  rewrite N.pred_succ. apply IH.
Qed.

Lemma assign_in_range {A : Type} (v : list A) (a : A) : forall i,
  i < vsize v -> exists v', assign v i a = Returned v'.
Proof.
  induction v as [|y v IH]; intros i H.
  - unfold vsize in H; simpl in H; lia.
  - rewrite vsize_cons in H. simpl. destruct (N.eqb_spec i 0); [eauto|].
    destruct (IH (N.pred i)) as [v' ->]; [lia|]. simpl. eauto.
Qed.

Lemma assign_out_of_range {A : Type} (v : list A) (a : A) : forall i,
  vsize v <= i -> assign v i a = OutOfBounds.
Proof.
  induction v as [|y v IH]; intros i H; [reflexivity|].
  rewrite vsize_cons in H. simpl. destruct (N.eqb_spec i 0); [lia|].
  rewrite IH by lia. reflexivity.
Qed.

Lemma assign_range {A : Type} (v : list A) (a : A) : forall i v',
  assign v i a = Returned v' -> i < vsize v.
Proof.
  intros i v' H. destruct (N.lt_ge_cases i (vsize v)) as [|Hge]; [assumption|].
  rewrite (assign_out_of_range v a i Hge) in H. discriminate.
Qed.

Lemma assign_length {A : Type} (v : list A) (a : A) : forall i v',
  assign v i a = Returned v' -> length v' = length v.
Proof.
  induction v as [|y v IH]; simpl; intros i v' H; [discriminate|].
  destruct (i =? 0).
  - injection H as <-. reflexivity.
  - inv_bind H. injection H as <-. simpl. f_equal. eauto.
Qed.

Lemma assign_vsize {A : Type} (v : list A) (a : A) i v' :
  assign v i a = Returned v' -> vsize v' = vsize v.
Proof. intros H. unfold vsize. now rewrite (assign_length _ _ _ _ H). Qed.

Lemma at_assign_same {A : Type} (v : list A) (a : A) : forall i v',
  assign v i a = Returned v' -> at_ v' i = Returned a.
Proof.
  induction v as [|y v IH]; simpl; intros i v' H; [discriminate|].
  destruct (i =? 0) eqn:E.
  - injection H as <-. simpl. now rewrite E.
  - inv_bind H. injection H as <-. simpl. rewrite E. eauto.
Qed.

Lemma at_assign_other {A : Type} (v : list A) (a : A) : forall i j v',
  assign v i a = Returned v' -> j <> i -> at_ v' j = at_ v j.
Proof.
  induction v as [|y v IH]; simpl; intros i j v' H Hne; [discriminate|].
  destruct (N.eqb_spec i 0).
  - injection H as <-. simpl. destruct (N.eqb_spec j 0); [lia|reflexivity].
  - inv_bind H. injection H as <-. simpl.
    destruct (N.eqb_spec j 0); [reflexivity|].
    apply (IH _ _ _ E). lia.
Qed.

Lemma at_assign {A : Type} (v : list A) (a : A) i j v' :
  assign v i a = Returned v' ->
  at_ v' j = if j =? i then Returned a else at_ v j.
Proof.
  intros H. destruct (N.eqb_spec j i) as [->|Hne].
  - eapply at_assign_same; eauto.
  - eapply at_assign_other; eauto.
Qed.

Lemma vsize_repeat {A : Type} (x : A) (n : nat) : vsize (repeat x n) = N.of_nat n.
Proof. unfold vsize. now rewrite repeat_length. Qed.

(** ** Construction of the graph *)

Lemma row_of_at (vv : list (list N)) (a : N) (row : list N) :
  at_ vv a = Returned row -> row_of vv a = row.
Proof. unfold row_of. now intros ->. Qed.

Lemma row_of_out_of_range (vv : list (list N)) (a : N) :
  vsize vv <= a -> row_of vv a = [].
Proof. intros H. unfold row_of. now rewrite at_out_of_range. Qed.

Lemma at_row_of (vv : list (list N)) (a : N) :
  a < vsize vv -> at_ vv a = Returned (row_of vv a).
Proof.
  intros H. destruct (at_in_range vv a H) as [row E].
  now rewrite (row_of_at _ _ _ E).
Qed.

Lemma push_back_at_length vv i x vv' :
  push_back_at vv i x = Returned vv' -> length vv' = length vv.
Proof.
  unfold push_back_at. intros H. inv_bind H. eapply assign_length; eauto.
Qed.

Lemma push_back_at_range vv i x vv' :
  push_back_at vv i x = Returned vv' -> i < vsize vv.
Proof.
  unfold push_back_at. intros H. inv_bind H. eapply at_range; eauto.
Qed.

Lemma push_back_at_in_range vv i x :
  i < vsize vv -> exists vv', push_back_at vv i x = Returned vv'.
Proof.
  intros H. unfold push_back_at.
  destruct (at_in_range vv i H) as [row ->]. simpl.
  now apply assign_in_range.
Qed.

Lemma push_back_at_out_of_range vv i x :
  vsize vv <= i -> push_back_at vv i x = OutOfBounds.
Proof.
  intros H. unfold push_back_at. now rewrite at_out_of_range.
Qed.

Lemma push_back_at_row vv i x vv' j :
  push_back_at vv i x = Returned vv' ->
  row_of vv' j = row_of vv j ++ (if j =? i then [x] else []).
Proof.
  unfold push_back_at. intros H. inv_bind H.
  unfold row_of at 1. rewrite (at_assign _ _ _ j _ H).
  destruct (N.eqb_spec j i) as [->|Hne].
  - now rewrite (row_of_at _ _ _ E).
  - unfold row_of. destruct (at_ vv j); now rewrite ?app_nil_r.
Qed.

Lemma add_edge_shape g a b w g' :
  add_edge g a b w = Returned g' ->
  length (adjacency_list g') = length (adjacency_list g) /\
  length (weights g') = length (weights g) /\
  (forall u, row_of (adjacency_list g') u =
             (row_of (adjacency_list g) u ++ (if u =? a then [b] else []))
               ++ (if u =? b then [a] else [])) /\
  (forall u, row_of (weights g') u =
             (row_of (weights g) u ++ (if u =? a then [w] else []))
               ++ (if u =? b then [w] else [])).
Proof.
  unfold add_edge. intros H.
  inv_bind H. inv_bind H. inv_bind H. inv_bind H. injection H as <-. simpl.
  repeat split.
  - rewrite (push_back_at_length _ _ _ _ E0). eapply push_back_at_length; eauto.
  - rewrite (push_back_at_length _ _ _ _ E2). eapply push_back_at_length; eauto.
  - intros u. rewrite (push_back_at_row _ _ _ _ u E0).
    now rewrite (push_back_at_row _ _ _ _ u E).
  - intros u. rewrite (push_back_at_row _ _ _ _ u E2).
    now rewrite (push_back_at_row _ _ _ _ u E1).
Qed.

Lemma add_edge_valid g a b w g' :
  add_edge g a b w = Returned g' -> a < node_count g /\ b < node_count g.
Proof.
  unfold add_edge, node_count. intros H. inv_bind H. inv_bind H.
  split.
  - eapply push_back_at_range; eauto.
  - apply push_back_at_range in E0. unfold vsize in *.
    now rewrite (push_back_at_length _ _ _ _ E) in E0.
Qed.

Lemma add_edge_in_range g a b w :
  length (weights g) = length (adjacency_list g) ->
  a < node_count g -> b < node_count g ->
  exists g', add_edge g a b w = Returned g'.
Proof.
  unfold add_edge, node_count. intros Hlen Ha Hb.
  destruct (push_back_at_in_range (adjacency_list g) a b Ha) as [a1 E1].
  rewrite E1. simpl.
  destruct (push_back_at_in_range a1 b a) as [a2 E2].
  { unfold vsize in *. now rewrite (push_back_at_length _ _ _ _ E1). }
  rewrite E2. simpl.
  destruct (push_back_at_in_range (weights g) a w) as [w1 E3].
  { unfold vsize in *. now rewrite Hlen. }
  rewrite E3. simpl.
  destruct (push_back_at_in_range w1 b w) as [w2 E4].
  { unfold vsize in *. rewrite (push_back_at_length _ _ _ _ E3). now rewrite Hlen. }
  rewrite E4. simpl. eauto.
Qed.

Lemma add_edge_out_of_range g a b w :
  length (weights g) = length (adjacency_list g) ->
  ~ (a < node_count g /\ b < node_count g) ->
  add_edge g a b w = OutOfBounds.
Proof.
  unfold add_edge, node_count. intros Hlen Hnot.
  destruct (N.lt_ge_cases a (vsize (adjacency_list g))) as [Ha|Ha].
  - destruct (push_back_at_in_range (adjacency_list g) a b Ha) as [a1 E1].
    rewrite E1. simpl. rewrite push_back_at_out_of_range; [reflexivity|].
    unfold vsize in *. rewrite (push_back_at_length _ _ _ _ E1). lia.
  - now rewrite push_back_at_out_of_range.
Qed.

Lemma combine_app_same {A B : Type} (l1 : list A) : forall (l1' : list B) l2 l2',
  length l1 = length l1' ->
  combine (l1 ++ l2) (l1' ++ l2') = combine l1 l1' ++ combine l2 l2'.
Proof.
  induction l1 as [|x l1 IH]; intros [|y l1'] l2 l2' H; simpl in *;
    try discriminate; [reflexivity|].
  f_equal. apply IH. now injection H.
Qed.

Lemma entries_add_edge g a b w g' :
  wf g -> add_edge g a b w = Returned g' ->
  forall u, entries g' u =
            (entries g u ++ (if u =? a then [(b, w)] else []))
              ++ (if u =? b then [(a, w)] else []).
Proof.
  intros (Hlen & Hrows & _) H u.
  destruct (add_edge_shape _ _ _ _ _ H) as (_ & _ & Ha & Hw).
  unfold entries. rewrite Ha, Hw.
  specialize (Hrows u).
  destruct (u =? a), (u =? b); simpl;
    rewrite ?app_nil_r, <- ?app_assoc; simpl;
    try rewrite combine_app_same by (now symmetry); reflexivity.
Qed.

Lemma wf_new n : wf (Grafo_new n).
Proof.
  unfold wf, Grafo_new, node_count. simpl. split; [reflexivity|].
  assert (Hrow : forall u, row_of (repeat (@nil N) (N.to_nat n)) u = []).
  { intros u. unfold row_of.
    destruct (at_ (repeat [] (N.to_nat n)) u) eqn:E; try reflexivity.
    apply at_In in E. now apply repeat_spec in E. }
  split; intros u; rewrite Hrow; [reflexivity|contradiction].
Qed.

Lemma wf_add_edge g a b w g' :
  wf g -> add_edge g a b w = Returned g' -> wf g'.
Proof.
  intros Hwf H.
  destruct (add_edge_valid _ _ _ _ _ H) as [Hva Hvb].
  destruct (add_edge_shape _ _ _ _ _ H) as (La & Lw & Ha & Hw).
  destruct Hwf as (Hlen & Hrows & Hin).
  unfold wf, node_count in *. unfold vsize in *. rewrite La, Lw.
  split; [assumption|]. split.
  - intros u. rewrite Ha, Hw, !length_app, Hrows.
    destruct (u =? a), (u =? b); reflexivity.
  - intros u x. rewrite Ha. intros Hx.
    apply in_app_or in Hx. destruct Hx as [Hx|Hx].
    + apply in_app_or in Hx. destruct Hx as [Hx|Hx]; [eauto|].
      destruct (u =? a); simpl in Hx; [|contradiction].
      destruct Hx as [<-|[]]. assumption.
    + destruct (u =? b); simpl in Hx; [|contradiction].
      destruct Hx as [<-|[]]. assumption.
Qed.

Lemma wf_add_edges es : forall g g',
  wf g -> add_edges g es = Returned g' -> wf g'.
Proof.
  induction es as [|[[a b] w] es IH]; simpl; intros g g' Hwf H.
  - now injection H as <-.
  - inv_bind H. eapply IH; [|eassumption]. eapply wf_add_edge; eauto.
Qed.

Lemma wf_build n es g : build n es = Returned g -> wf g.
Proof. apply wf_add_edges, wf_new. Qed.

Lemma node_count_add_edges es : forall g g',
  add_edges g es = Returned g' -> node_count g' = node_count g.
Proof.
  induction es as [|[[a b] w] es IH]; simpl; intros g g' H.
  - now injection H as <-.
  - inv_bind H. rewrite (IH _ _ H).
    destruct (add_edge_shape _ _ _ _ _ E) as (La & _).
    unfold node_count, vsize. now rewrite La.
Qed.

Lemma node_count_build n es g : build n es = Returned g -> node_count g = n.
Proof.
  intros H. rewrite (node_count_add_edges _ _ _ H).
  unfold Grafo_new, node_count. simpl. rewrite vsize_repeat. lia.
Qed.

Lemma entries_add_edges_mono es : forall g g' u e,
  wf g -> add_edges g es = Returned g' -> In e (entries g u) -> In e (entries g' u).
Proof.
  induction es as [|[[a b] w] es IH]; simpl; intros g g' u e Hwf H Hin.
  - now injection H as <-.
  - inv_bind H. eapply IH; [eapply wf_add_edge; eauto|eassumption|].
    rewrite (entries_add_edge _ _ _ _ _ Hwf E). apply in_or_app. left.
    apply in_or_app. now left.
Qed.

Lemma entries_add_edge_new g a b w g' :
  wf g -> add_edge g a b w = Returned g' ->
  In (b, w) (entries g' a) /\ In (a, w) (entries g' b).
Proof.
  intros Hwf H. rewrite !(entries_add_edge _ _ _ _ _ Hwf H).
  rewrite !N.eqb_refl. split.
  - apply in_or_app. left. apply in_or_app. right. now left.
  - apply in_or_app. right. now left.
Qed.

Lemma entries_add_edges_inserted es : forall g g' a b w,
  wf g -> add_edges g es = Returned g' -> In (a, b, w) es ->
  In (b, w) (entries g' a) /\ In (a, w) (entries g' b).
Proof.
  induction es as [|[[a0 b0] w0] es IH]; simpl; intros g g' a b w Hwf H Hin.
  - contradiction.
  - inv_bind H. pose proof (wf_add_edge _ _ _ _ _ Hwf E) as Hwf'.
    destruct Hin as [Heq|Hin].
    + injection Heq as -> -> ->.
      destruct (entries_add_edge_new _ _ _ _ _ Hwf E).
      split; eapply entries_add_edges_mono; eauto.
    + eapply IH; eauto.
Qed.

(** C7. On a graph obtained from [Grafo(n)] by any sequence of [add_edge]
    calls, a further call [add_edge(a, b, w)] with [a] and [b] below the node
    count succeeds; afterwards the adjacency sequence of [a] holds the entry
    [(b, w)], that of [b] holds [(a, w)], and the same is still true of every
    edge [(a0, b0, w0)] inserted before. *)
Theorem add_edge_symmetric :
  forall n es g a b w,
    build n es = Returned g ->
    a < node_count g -> b < node_count g ->
    exists g',
      add_edge g a b w = Returned g' /\
      In (b, w) (entries g' a) /\ In (a, w) (entries g' b) /\
      forall a0 b0 w0, In (a0, b0, w0) es ->
        In (b0, w0) (entries g' a0) /\ In (a0, w0) (entries g' b0).
Proof.
  intros n es g a b w Hb Ha Hb'.
  pose proof (wf_build _ _ _ Hb) as Hwf.
  destruct (add_edge_in_range g a b w) as [g' Hg']; try assumption.
  { apply Hwf. }
  exists g'. split; [assumption|].
  destruct (entries_add_edge_new _ _ _ _ _ Hwf Hg') as [H1 H2].
  repeat split; try assumption.
  - destruct (entries_add_edges_inserted es (Grafo_new n) g a0 b0 w0 (wf_new n) Hb H)
      as [H3 _].
    rewrite (entries_add_edge _ _ _ _ _ Hwf Hg').
    apply in_or_app. left. apply in_or_app. now left.
  - destruct (entries_add_edges_inserted es (Grafo_new n) g a0 b0 w0 (wf_new n) Hb H)
      as [_ H3].
    rewrite (entries_add_edge _ _ _ _ _ Hwf Hg').
    apply in_or_app. left. apply in_or_app. now left.
Qed.

Lemma add_edge_symmetric_witness :
  exists g',
    add_edge (mkGrafo [[1]; [0]; []] [[7]; [7]; []]) 1 2 10 = Returned g' /\
    In (2, 10) (entries g' 1) /\ In (1, 10) (entries g' 2) /\
    forall a0 b0 w0, In (a0, b0, w0) [(0, 1, 7)] ->
      In (b0, w0) (entries g' a0) /\ In (a0, w0) (entries g' b0).
Proof.
  apply (add_edge_symmetric 3 [(0, 1, 7)] (mkGrafo [[1]; [0]; []] [[7]; [7]; []]) 1 2 10).
  - reflexivity.
  - reflexivity.
  - reflexivity.
Defined.

(** ** Walks *)

Lemma walk_app g : forall r1 a b r2 c,
  walk g a r1 b -> walk g b r2 c -> walk g a (r1 ++ r2) c.
Proof.
  induction r1 as [|x r1 IH]; simpl; intros a b r2 c H1 H2.
  - now subst.
  - destruct H1 as [He H1]. split; [assumption|]. eapply IH; eauto.
Qed.

Lemma walk_snoc g a r b c : walk g a r b -> edge g b c -> walk g a (r ++ [c]) c.
Proof.
  intros H He. eapply walk_app; [eassumption|]. simpl. auto.
Qed.

Lemma edge_in_range g u v : wf g -> edge g u v -> v < node_count g.
Proof. intros (_ & _ & H). apply H. Qed.

Lemma edge_source_in_range g u v : edge g u v -> u < node_count g.
Proof.
  unfold edge, node_count. intros H.
  destruct (N.lt_ge_cases u (vsize (adjacency_list g))) as [|Hge]; [assumption|].
  rewrite row_of_out_of_range in H by assumption. contradiction.
Qed.

Lemma reachable_in_range g src dst :
  wf g -> src < node_count g -> reachable g src dst -> dst < node_count g.
Proof.
  intros Hwf Hsrc [rest Hw]. revert src Hsrc Hw.
  induction rest as [|x rest IH]; simpl; intros src Hsrc Hw.
  - now subst.
  - destruct Hw as [He Hw]. apply (IH x); [|assumption].
    eapply edge_in_range; eauto.
Qed.

Lemma chain_walk g src pth vis v rest :
  chain g src pth vis v rest -> walk g src rest v.
Proof.
  induction 1 as [|v u rest Hne Hp Hv He Hc IH]; [reflexivity|].
  eapply walk_snoc; eauto.
Qed.

Lemma chain_stable g src pth vis pth' vis' v rest :
  chain g src pth vis v rest ->
  at_ pth' v = at_ pth v ->
  (forall x, at_ vis x = Returned true ->
             at_ vis' x = Returned true /\ at_ pth' x = at_ pth x) ->
  chain g src pth' vis' v rest.
Proof.
  intros Hc. induction Hc as [|v u rest Hne Hp Hv He Hc IH]; intros Hsame Hvis.
  - constructor.
  - destruct (Hvis u Hv) as [Hv' Hp'].
    econstructor; eauto. congruence.
Qed.

Lemma reconstruct_chain g src pth vis v rest :
  chain g src pth vis v rest ->
  forall fuel acc, (length rest <= fuel)%nat ->
    reconstruct fuel pth src v acc = Returned (src :: rest ++ acc).
Proof.
  induction 1 as [|v u rest Hne Hp Hv He Hc IH]; intros fuel acc Hf.
  - destruct fuel; simpl; now rewrite N.eqb_refl.
  - rewrite length_app in Hf. simpl in Hf.
    destruct fuel as [|fuel]; [lia|]. simpl.
    destruct (N.eqb_spec v src); [contradiction|].
    rewrite Hp. simpl. rewrite IH by lia. now rewrite <- app_assoc.
Qed.

(** ** The search loop *)

Lemma pending_visit : forall adj vis u vis' row,
  at_ vis u = Returned false ->
  assign vis u true = Returned vis' ->
  at_ adj u = Returned row ->
  (pending adj vis = pending adj vis' + length row)%nat.
Proof.
  induction adj as [|r adj IH]; intros vis u vis' row Hv Ha Hr; [discriminate|].
  destruct vis as [|b vis]; [discriminate|].
  simpl in Hv, Ha, Hr. destruct (u =? 0).
  - injection Hv as ->. injection Ha as <-. injection Hr as ->. simpl. lia.
  - inv_bind Ha. injection Ha as <-. simpl.
    rewrite (IH _ _ _ _ Hv E Hr). lia.
Qed.

Lemma pending_unvisited : forall adj,
  pending adj (repeat false (length adj)) = list_sum (map (@length N) adj).
Proof.
  induction adj as [|r adj IH]; simpl; [reflexivity|]. now rewrite IH.
Qed.

Section SearchFacts.

Variable T_max : N.
Variable push : N -> list N -> list N.
Hypothesis push_perm : forall x l, Permutation (push x l) (x :: l).
Variable g : Grafo.
Hypothesis Hwf : wf g.
Variables src dst : N.

Lemma discover_spec row : forall cur vis pth tv,
  (forall x, In x row -> x < vsize vis) ->
  length pth = length vis ->
  exists pth' tv',
    discover push row cur vis pth tv = Returned (pth', tv') /\
    length pth' = length pth /\
    (forall x, at_ pth' x =
               if existsb (N.eqb x) row && unvisited vis x
               then Returned cur else at_ pth x) /\
    Permutation tv' (filter (unvisited vis) row ++ tv).
Proof.
  induction row as [|n row IH]; intros cur vis pth tv Hrow Hlen.
  - exists pth, tv. simpl. repeat split; auto.
  - simpl. destruct (at_in_range vis n) as [b Hb]; [apply Hrow; now left|].
    rewrite Hb. simpl.
    assert (Hrow' : forall x, In x row -> x < vsize vis)
      by (intros; apply Hrow; now right).
    destruct b.
    + destruct (IH cur vis pth tv Hrow' Hlen) as (pth' & tv' & E & L & P & Q).
      exists pth', tv'. repeat split; try assumption.
      * intros x. rewrite P. destruct (N.eqb_spec x n) as [->|]; [|reflexivity].
        simpl. unfold unvisited. rewrite Hb. now rewrite andb_false_r.
      * unfold unvisited at 1. now rewrite Hb.
    + destruct (assign_in_range pth cur n) as [pth1 Hp1].
      { unfold vsize in *. rewrite Hlen. apply Hrow. now left. }
      rewrite Hp1. simpl.
      destruct (IH cur vis pth1 (push n tv) Hrow') as (pth' & tv' & E & L & P & Q).
      { now rewrite (assign_length _ _ _ _ Hp1). }
      exists pth', tv'. repeat split; try assumption.
      * now rewrite L, (assign_length _ _ _ _ Hp1).
      * intros x. rewrite P, (at_assign _ _ _ x _ Hp1).
        destruct (N.eqb_spec x n) as [->|]; [|reflexivity].
        simpl. unfold unvisited. rewrite Hb.
        now destruct (existsb (N.eqb n) row).
      * unfold unvisited at 1. rewrite Hb.
        rewrite Q. simpl.
        etransitivity; [apply Permutation_app_head, push_perm|].
        symmetry. apply Permutation_middle.
Qed.

Lemma existsb_eqb_In x (row : list N) : existsb (N.eqb x) row = true <-> In x row.
Proof.
  rewrite existsb_exists. split.
  - intros (y & Hy & E). apply N.eqb_eq in E. now subst.
  - intros H. exists x. split; [assumption|apply N.eqb_refl].
Qed.

Lemma search_init_inv :
  src < node_count g -> search_inv T_max g src dst (search_init T_max push g src).
Proof.
  intros Hsrc. unfold search_init.
  assert (Hpush : push src [] = [src]).
  { apply Permutation_length_1_inv. symmetry. apply push_perm. }
  rewrite Hpush.
  assert (Hfalse : forall x, at_ (repeat false (length (adjacency_list g))) x
                             <> Returned true).
  { intros x E. apply at_In, repeat_spec in E. discriminate. }
  constructor; simpl.
  - apply repeat_length.
  - apply repeat_length.
  - intros x [<-|[]]. assumption.
  - now right.
  - intros u v E. now apply Hfalse in E.
  - apply Hfalse.
  - intros v [E|[<-|[]]]; [now apply Hfalse in E|]. eexists. constructor.
  - intros v u E. left. now apply at_In, repeat_spec in E.
Qed.

Lemma search_init_measure :
  search_measure g (search_init T_max push g src) = S (total_entries g).
Proof.
  unfold search_measure, search_init, total_entries. simpl.
  rewrite pending_unvisited.
  rewrite (Permutation_length (push_perm src [])). reflexivity.
Qed.

Lemma search_step_inv st :
  search_inv T_max g src dst st ->
  match search_step push g dst st with
  | Returned (Continue st') =>
      search_inv T_max g src dst st' /\
      (search_measure g st' < search_measure g st)%nat
  | Returned (Break st') => search_post T_max g src dst st'
  | _ => False
  end.
Proof.
  intros Hinv. unfold search_step.
  destruct (to_visit st) as [|cur rest] eqn:Htv.
  { right. split; assumption. }
  assert (Hcur : cur < node_count g).
  { apply (si_frontier _ _ _ _ _ Hinv). rewrite Htv. now left. }
  destruct (N.eqb_spec cur dst) as [->|Hnd].
  { left. simpl. apply (si_chain _ _ _ _ _ Hinv). right. rewrite Htv. now left. }
  pose proof (si_vis_len _ _ _ _ _ Hinv) as Lv.
  pose proof (si_path_len _ _ _ _ _ Hinv) as Lp.
  destruct (at_in_range (visited st) cur) as [b Hb].
  { unfold node_count, vsize in *. now rewrite Lv. }
  rewrite Hb. simpl. destruct b.
  - (* a duplicate of a node already visited *)
    split.
    + constructor; simpl; try apply Hinv.
      * intros x Hx. apply (si_frontier _ _ _ _ _ Hinv). rewrite Htv. now right.
      * destruct (si_src _ _ _ _ _ Hinv) as [H|H]; [now left|].
        rewrite Htv in H. injection H as -> _. now left.
      * intros u v Hu He.
        destruct (si_closed _ _ _ _ _ Hinv u v Hu He) as [H|H]; [now left|].
        rewrite Htv in H. destruct H as [<-|H]; [now left|now right].
      * intros v [H|H]; apply (si_chain _ _ _ _ _ Hinv); [now left|].
        right. rewrite Htv. now right.
    + unfold search_measure. simpl. rewrite Htv. simpl. lia.
  - (* [cur] is visited now *)
    destruct (assign_in_range (visited st) true cur) as [vis' Hvis'].
    { unfold node_count, vsize in *. now rewrite Lv. }
    rewrite Hvis'. simpl.
    rewrite (at_row_of _ _ Hcur). simpl.
    set (row := row_of (adjacency_list g) cur).
    assert (Hrow : forall x, In x row -> x < node_count g).
    { intros x Hx. eapply edge_in_range; eauto. }
    assert (Lv' : length vis' = length (adjacency_list g)).
    { now rewrite (assign_length _ _ _ _ Hvis'). }
    destruct (discover_spec row cur vis' (path st) rest) as (pth' & tv' & E & L & P & Q).
    { intros x Hx. unfold vsize. rewrite Lv'. now apply Hrow. }
    { now rewrite Lp, Lv'. }
    rewrite E. simpl.
    assert (Hv' : forall x, at_ vis' x = if x =? cur then Returned true else at_ (visited st) x).
    { intros x. apply (at_assign _ _ _ x _ Hvis'). }
    assert (Hmono : forall x, at_ (visited st) x = Returned true ->
                              at_ vis' x = Returned true /\ at_ pth' x = at_ (path st) x).
    { intros x Hx. assert (Hx' : at_ vis' x = Returned true).
      { rewrite Hv'. now destruct (x =? cur). }
      split; [assumption|]. rewrite P. unfold unvisited. rewrite Hx'.
      now rewrite andb_false_r. }
    assert (Hcur' : at_ vis' cur = Returned true).
    { rewrite Hv'. now rewrite N.eqb_refl. }
    assert (Htv' : forall x, In x tv' <-> (In x row /\ unvisited vis' x = true) \/ In x rest).
    { intros x. split.
      - intros Hx. apply (Permutation_in _ Q) in Hx.
        apply in_app_or in Hx. destruct Hx as [Hx|Hx]; [|now right].
        apply filter_In in Hx. now left.
      - intros Hx. apply (Permutation_in _ (Permutation_sym Q)).
        apply in_or_app. destruct Hx as [Hx|Hx]; [|now right].
        left. now apply filter_In. }
    assert (Hsrc' : at_ vis' src = Returned true).
    { destruct (si_src _ _ _ _ _ Hinv) as [H|H]; [now apply Hmono|].
      rewrite Htv in H. now injection H as -> _. }
    destruct (si_chain _ _ _ _ _ Hinv cur) as [rest_cur Hchain_cur].
    { right. rewrite Htv. now left. }
    assert (Hchain_cur' : chain g src pth' vis' cur rest_cur).
    { eapply chain_stable; eauto. rewrite P. unfold unvisited. rewrite Hcur'.
      now rewrite andb_false_r. }
    assert (Hnew : forall x, In x row -> unvisited vis' x = true ->
                             exists r, chain g src pth' vis' x r).
    { intros x Hx Hu. exists (rest_cur ++ [x]).
      apply (chain_step g src pth' vis' x cur rest_cur).
      - intros ->. unfold unvisited in Hu. now rewrite Hsrc' in Hu.
      - rewrite P. apply existsb_eqb_In in Hx. now rewrite Hx, Hu.
      - assumption.
      - exact Hx.
      - assumption. }
    assert (Hold : forall x r, chain g src (path st) (visited st) x r ->
                               exists r', chain g src pth' vis' x r').
    { intros x r Hc.
      destruct (existsb (N.eqb x) row && unvisited vis' x) eqn:Hx.
      - apply andb_true_iff in Hx. destruct Hx as [Hx Hu].
        apply existsb_eqb_In in Hx. eauto.
      - exists r. eapply chain_stable; eauto. now rewrite P, Hx. }
    split.
    + constructor; simpl.
      * now rewrite L.
      * assumption.
      * intros x Hx. apply Htv' in Hx. destruct Hx as [[Hx _]|Hx]; [auto|].
        apply (si_frontier _ _ _ _ _ Hinv). rewrite Htv. now right.
      * now left.
      * intros u v Hu He.
        assert (Hvr : v < node_count g) by (eapply edge_in_range; eauto).
        destruct (at_in_range vis' v) as [bv Hbv].
        { unfold node_count, vsize in *. now rewrite Lv'. }
        destruct bv; [now left|]. right. apply Htv'.
        assert (Huv : unvisited vis' v = true) by (unfold unvisited; now rewrite Hbv).
        revert Hu. rewrite Hv'.
        destruct (N.eqb_spec u cur) as [Heq|Hne]; intros Hu.
        { subst u. left. split; assumption. }
        destruct (si_closed _ _ _ _ _ Hinv u v Hu He) as [H|H].
        { apply Hmono in H. destruct H as [H _]. congruence. }
        rewrite Htv in H. destruct H as [<-|H]; [congruence|now right].
      * rewrite Hv'. destruct (N.eqb_spec dst cur) as [->|]; [congruence|].
        apply (si_dst _ _ _ _ _ Hinv).
      * intros v [Hv|Hv].
        { revert Hv. rewrite Hv'.
          destruct (N.eqb_spec v cur) as [Heq|Hne]; intros Hv; [subst v; eauto|].
          destruct (si_chain _ _ _ _ _ Hinv v) as [r Hr]; [now left|]. eauto. }
        apply Htv' in Hv. destruct Hv as [[Hv Hu]|Hv]; [eauto|].
        destruct (si_chain _ _ _ _ _ Hinv v) as [r Hr]; [|eauto].
        right. rewrite Htv. now right.
      * intros v u. rewrite P.
        destruct (existsb (N.eqb v) row && unvisited vis' v) eqn:Hx.
        { intros _. right. apply andb_true_iff in Hx. destruct Hx as [Hx _].
          apply existsb_eqb_In in Hx. exists (rest_cur ++ [v]).
          eapply walk_snoc; [eapply chain_walk; eauto|exact Hx]. }
        apply (si_sentinel _ _ _ _ _ Hinv).
    + unfold search_measure. simpl. rewrite Htv. simpl.
      rewrite (Permutation_length Q), length_app.
      pose proof (filter_length_le (unvisited vis') row) as Hfl.
      rewrite (pending_visit _ _ _ _ _ Hb Hvis' (at_row_of _ _ Hcur)).
      fold row. lia.
Qed.

Lemma search_loop_total : forall fuel st,
  search_inv T_max g src dst st ->
  (search_measure g st < fuel)%nat ->
  exists st', search_loop push fuel g dst st = Returned st' /\
              search_post T_max g src dst st'.
Proof.
  induction fuel as [|fuel IH]; intros st Hinv Hm; [lia|].
  simpl. pose proof (search_step_inv st Hinv) as Hs.
  destruct (search_step push g dst st) as [[st'|st']| |]; try contradiction; simpl.
  - destruct Hs as [Hinv' Hm']. apply IH; [assumption|lia].
  - eauto.
Qed.

Lemma search_closed st :
  search_inv T_max g src dst st -> to_visit st = [] ->
  forall rest v, walk g src rest v -> at_ (visited st) v = Returned true.
Proof.
  intros Hinv Hempty.
  assert (Hsrc : at_ (visited st) src = Returned true).
  { destruct (si_src _ _ _ _ _ Hinv) as [H|H]; [assumption|congruence]. }
  intros rest. revert Hsrc. generalize src as a.
  induction rest as [|x rest IH]; simpl; intros a Ha v Hw.
  - now subst.
  - destruct Hw as [He Hw]. apply (IH x); [|assumption].
    destruct (si_closed _ _ _ _ _ Hinv a x Ha He) as [H|H]; [assumption|].
    rewrite Hempty in H. contradiction.
Qed.

Lemma search_loop_mono : forall fuel st st',
  search_loop push fuel g dst st = Returned st' ->
  forall fuel', (fuel <= fuel')%nat -> search_loop push fuel' g dst st = Returned st'.
Proof.
  induction fuel as [|fuel IH]; intros st st' H fuel' Hle; [discriminate|].
  destruct fuel' as [|fuel']; [lia|]. simpl in *.
  destruct (search_step push g dst st) as [[st1|st1]| |]; simpl in *;
    try discriminate; [|assumption].
  apply (IH _ _ H). lia.
Qed.

(** A destination that can be reached is found, and the walk back along the
    predecessors yields a walk of the graph. *)
Lemma traverse_reachable :
  src < node_count g -> reachable g src dst ->
  exists rest,
    walk g src rest dst /\
    forall fuel, (S (total_entries g) < fuel)%nat -> (length rest <= fuel)%nat ->
      traverse T_max push fuel g src dst = Returned (src :: rest).
Proof.
  intros Hsrc [r Hr].
  pose proof (search_init_inv Hsrc) as Hinit.
  destruct (search_loop_total (S (S (total_entries g))) _ Hinit) as (st1 & E1 & Hpost).
  { rewrite search_init_measure. lia. }
  assert (Hchain : exists rest, chain g src (path st1) (visited st1) dst rest).
  { destruct Hpost as [H|[Hinv Hempty]]; [assumption|].
    exfalso. apply (si_dst _ _ _ _ _ Hinv). eapply search_closed; eauto. }
  destruct Hchain as [rest Hrest].
  exists rest. split; [eapply chain_walk; eauto|].
  intros fuel Hf Hl. unfold traverse.
  rewrite (search_loop_mono _ _ _ E1 fuel) by lia. simpl.
  rewrite (reconstruct_chain _ _ _ _ _ _ Hrest) by assumption.
  now rewrite app_nil_r.
Qed.

(** When the destination cannot be reached the loop ends with an empty
    frontier and the predecessor of [dst] was never written. *)
Lemma search_unreachable :
  src < node_count g -> ~ reachable g src dst ->
  forall fuel, (S (total_entries g) < fuel)%nat ->
    exists st, search_loop push fuel g dst (search_init T_max push g src) = Returned st /\
               search_inv T_max g src dst st.
Proof.
  intros Hsrc Hun fuel Hf.
  pose proof (search_init_inv Hsrc) as Hinit.
  destruct (search_loop_total fuel _ Hinit) as (st1 & E1 & Hpost).
  { rewrite search_init_measure. lia. }
  exists st1. split; [assumption|].
  destruct Hpost as [[rest H]|[Hinv _]]; [|assumption].
  exfalso. apply Hun. exists rest. eapply chain_walk; eauto.
Qed.

Lemma traverse_unreachable :
  src < node_count g -> ~ reachable g src dst ->
  node_count g <= T_max \/ node_count g <= dst ->
  forall fuel, (S (total_entries g) < fuel)%nat ->
    traverse T_max push fuel g src dst = OutOfBounds.
Proof.
  intros Hsrc Hun Hmax fuel Hf. unfold traverse.
  destruct (search_unreachable Hsrc Hun fuel Hf) as (st & E & Hinv).
  rewrite E. simpl.
  assert (Hne : dst <> src).
  { intros ->. apply Hun. now exists []. }
  pose proof (si_path_len _ _ _ _ _ Hinv) as Lp.
  destruct fuel as [|[|fuel]]; try lia.
  cbn [reconstruct]. destruct (N.eqb_spec dst src); [contradiction|].
  destruct (N.lt_ge_cases dst (node_count g)) as [Hd|Hd].
  - destruct (at_in_range (path st) dst) as [u Hu].
    { unfold node_count, vsize in *. now rewrite Lp. }
    rewrite Hu. simpl.
    destruct (si_sentinel _ _ _ _ _ Hinv dst u Hu) as [->|]; [|contradiction].
    destruct Hmax as [Hmax|Hmax]; [|lia].
    destruct (N.eqb_spec T_max src); [lia|].
    rewrite at_out_of_range; [reflexivity|].
    unfold node_count, vsize in *. now rewrite Lp.
  - rewrite at_out_of_range; [reflexivity|].
    unfold node_count, vsize in *. now rewrite Lp.
Qed.

Lemma traverse_same : forall fuel s,
  (1 <= fuel)%nat -> traverse T_max push fuel g s s = Returned [s].
Proof.
  intros fuel s Hf. unfold traverse, search_init.
  assert (Hpush : push s [] = [s]).
  { apply Permutation_length_1_inv. symmetry. apply push_perm. }
  rewrite Hpush. destruct fuel as [|fuel]; [lia|].
  cbn [search_loop]. unfold search_step. cbn [to_visit]. rewrite N.eqb_refl.
  cbn [bind path]. destruct fuel; cbn [reconstruct]; now rewrite N.eqb_refl.
Qed.

Lemma traverse_src_out_of_range : forall fuel,
  node_count g <= src -> src <> dst -> (1 <= fuel)%nat ->
  traverse T_max push fuel g src dst = OutOfBounds.
Proof.
  intros fuel Hsrc Hne Hf. unfold traverse, search_init.
  assert (Hpush : push src [] = [src]).
  { apply Permutation_length_1_inv. symmetry. apply push_perm. }
  rewrite Hpush. destruct fuel as [|fuel]; [lia|].
  cbn [search_loop]. unfold search_step. cbn [to_visit visited].
  destruct (N.eqb_spec src dst); [contradiction|].
  rewrite at_out_of_range; [reflexivity|].
  rewrite vsize_repeat. exact Hsrc.
Qed.

End SearchFacts.

Lemma stack_push_perm : forall x l, Permutation (stack_push x l) (x :: l).
Proof. reflexivity. Qed.

Lemma queue_push_perm : forall x l, Permutation (queue_push x l) (x :: l).
Proof.
  intros x l. unfold queue_push. symmetry. apply Permutation_cons_append.
Qed.

(** ** The priority queue *)

Lemma pair_eqb_eq (a b : N * N) : pair_eqb a b = true <-> a = b.
Proof.
  destruct a as [a1 a2], b as [b1 b2]. unfold pair_eqb. simpl.
  rewrite andb_true_iff, !N.eqb_eq. split; [intros [-> ->]; reflexivity|].
  intros H. now injection H.
Qed.

Lemma pq_least_spec : forall q m,
  In (pq_least m q) (m :: q) /\
  forall x, In x (m :: q) -> fst (pq_least m q) <= fst x.
Proof.
  induction q as [|y q IH]; intros m; simpl.
  - split; [now left|]. intros x [<-|[]]. lia.
  - destruct (IH (if pair_ltb y m then y else m)) as [Hin Hle]. split.
    + destruct Hin as [Hin|Hin]; [|now right; right].
      rewrite <- Hin. destruct (pair_ltb y m); [right; now left|now left].
    + assert (Hmin : fst (pq_least (if pair_ltb y m then y else m) q) <= fst y /\
                     fst (pq_least (if pair_ltb y m then y else m) q) <= fst m).
      { pose proof (Hle _ (or_introl eq_refl)) as H0.
        assert (Hfst : fst (if pair_ltb y m then y else m) <= fst y /\
                       fst (if pair_ltb y m then y else m) <= fst m).
        { unfold pair_ltb.
          destruct (N.ltb_spec (fst y) (fst m)); simpl; [lia|].
          destruct (N.eqb_spec (fst y) (fst m)); simpl; [|lia].
          destruct (snd y <? snd m); lia. }
        lia. }
      intros x [<-|[<-|Hx]]; [apply Hmin|apply Hmin|].
      apply Hle. now right.
Qed.

Lemma pq_remove_perm m : forall q, In m q -> Permutation q (m :: pq_remove m q).
Proof.
  induction q as [|y q IH]; simpl; intros H; [contradiction|].
  destruct (pair_eqb y m) eqn:E.
  - apply pair_eqb_eq in E. now subst.
  - destruct H as [->|H].
    + assert (pair_eqb m m = true) by now apply pair_eqb_eq. congruence.
    + rewrite perm_swap. now constructor; apply IH.
Qed.

Lemma pq_pop_spec q c v rest :
  pq_pop q = Some ((c, v), rest) ->
  In (c, v) q /\
  (forall c' v', In (c', v') q -> c <= c') /\
  Permutation q ((c, v) :: rest).
Proof.
  unfold pq_pop. destruct q as [|x q]; [discriminate|].
  intros H. injection H as Hm <-.
  destruct (pq_least_spec q x) as [Hin Hle]. rewrite Hm in Hin, Hle.
  split; [assumption|]. split.
  - intros c' v' H'. apply (Hle (c', v') H').
  - rewrite <- Hm. apply pq_remove_perm. now rewrite Hm.
Qed.

Lemma pq_pop_nil q : pq_pop q = None -> q = [].
Proof. destruct q; [reflexivity|discriminate]. Qed.

(** ** Dijkstra: what holds for all weights *)

Lemma reachable_step g src u v : reachable g src u -> edge g u v -> reachable g src v.
Proof. intros [r Hr] He. exists (r ++ [v]). eapply walk_snoc; eauto. Qed.

Lemma reconstruct_in_bounds pth src : forall fuel node acc,
  (forall v u, at_ pth v = Returned u -> u < vsize pth) ->
  node < vsize pth ->
  reconstruct fuel pth src node acc <> OutOfBounds.
Proof.
  induction fuel as [|fuel IH]; intros node acc Hp Hn; simpl;
    destruct (node =? src); try discriminate.
  destruct (at_in_range pth node Hn) as [u Hu]. rewrite Hu. simpl.
  apply IH; eauto.
Qed.

Lemma reconstruct_self_loop pth src node :
  node <> src -> at_ pth node = Returned node ->
  forall fuel acc, reconstruct fuel pth src node acc = OutOfFuel.
Proof.
  intros Hne Hp. induction fuel as [|fuel IH]; intros acc; simpl;
    destruct (N.eqb_spec node src); try contradiction; [reflexivity|].
  rewrite Hp. simpl. apply IH.
Qed.

Section DijkstraSafe.

Variable T_max : N.
Variable g : Grafo.
Hypothesis Hwf : wf g.
Variables src dst : N.

Lemma relax_safe cur vis : forall row wdone wrest pth cst pq,
  cur < node_count g ->
  reachable g src cur ->
  (forall x, In x row -> edge g cur x) ->
  at_ (weights g) cur = Returned (wdone ++ wrest) ->
  length wrest = length row ->
  dj_safe T_max g src pth vis cst pq ->
  exists pth' cst' pq',
    relax T_max g cur row (vsize wdone) pth cst pq = Returned (pth', cst', pq') /\
    dj_safe T_max g src pth' vis cst' pq' /\
    (length pq' <= length pq + length row)%nat.
Proof.
  induction row as [|adjacent row IH];
    intros wdone wrest pth cst pq Hcur Hreach Hrow Hw Hlen Hs.
  - exists pth, cst, pq. simpl. split; [reflexivity|]. split; [assumption|lia].
  - destruct wrest as [|w wrest]; [discriminate|].
    simpl in Hlen. injection Hlen as Hlen.
    assert (Hadj : edge g cur adjacent) by (apply Hrow; now left).
    assert (Hadjr : adjacent < node_count g) by (eapply edge_in_range; eauto).
    assert (Hw' : at_ (weights g) cur = Returned ((wdone ++ [w]) ++ wrest))
      by (now rewrite <- app_assoc).
    assert (Hi : vsize (wdone ++ [w]) = N.succ (vsize wdone)).
    { unfold vsize. rewrite length_app. simpl. lia. }
    assert (Hrow' : forall x, In x row -> edge g cur x)
      by (intros; apply Hrow; now right).
    pose proof (ds_cost_len _ _ _ _ _ _ _ Hs) as Lc.
    pose proof (ds_path_len _ _ _ _ _ _ _ Hs) as Lp.
    cbn [relax]. rewrite Hw. cbn [bind]. rewrite at_app_here. cbn [bind].
    destruct (at_in_range cst cur) as [c_cur Hcc].
    { unfold node_count, vsize in *. now rewrite Lc. }
    destruct (at_in_range cst adjacent) as [c_adj Hca].
    { unfold node_count, vsize in *. now rewrite Lc. }
    rewrite Hcc, Hca. cbn [bind].
    destruct (T_add T_max c_cur w <? c_adj).
    + destruct (assign_in_range cst (T_add T_max c_cur w) adjacent) as [cst1 Hc1].
      { unfold node_count, vsize in *. now rewrite Lc. }
      destruct (assign_in_range pth cur adjacent) as [pth1 Hp1].
      { unfold node_count, vsize in *. now rewrite Lp. }
      rewrite Hc1. cbn [bind]. rewrite (at_assign_same _ _ _ _ Hc1). cbn [bind].
      rewrite Hp1. cbn [bind]. rewrite <- Hi.
      destruct (IH (wdone ++ [w]) wrest pth1 cst1
                   (pq_push (T_add T_max c_cur w, adjacent) pq))
        as (pth' & cst' & pq' & E & Hs' & Hl); try assumption.
      { constructor.
        - now rewrite (assign_length _ _ _ _ Hp1).
        - apply Hs.
        - now rewrite (assign_length _ _ _ _ Hc1).
        - intros c v [Hcv|Hcv].
          + injection Hcv as _ <-. split; [assumption|].
            eapply reachable_step; eauto.
          + eapply ds_queue; eauto.
        - intros v u. rewrite (at_assign _ _ _ v _ Hp1).
          destruct (v =? adjacent); [intros H; now injection H as <-|].
          eapply ds_path; eauto.
        - intros v u. rewrite (at_assign _ _ _ v _ Hp1).
          destruct (N.eqb_spec v adjacent) as [->|].
          + intros _. right. eapply reachable_step; eauto.
          + eapply ds_pred; eauto.
        - intros v c. rewrite (at_assign _ _ _ v _ Hc1).
          destruct (N.eqb_spec v adjacent) as [->|].
          + intros _. right. eapply reachable_step; eauto.
          + eapply ds_cost; eauto. }
      exists pth', cst', pq'. split; [assumption|]. split; [assumption|].
      simpl in Hl |- *. lia.
    + rewrite <- Hi.
      destruct (IH (wdone ++ [w]) wrest pth cst pq)
        as (pth' & cst' & pq' & E & Hs' & Hl); try assumption.
      exists pth', cst', pq'. split; [assumption|]. split; [assumption|].
      simpl. lia.
Qed.

Lemma dijkstra_step_safe st :
  dj_safe_state T_max g src st ->
  match dijkstra_step T_max g dst st with
  | Returned (Continue st') =>
      dj_safe_state T_max g src st' /\
      (dijkstra_measure g st' < dijkstra_measure g st)%nat
  | Returned (Break st') =>
      dj_safe_state T_max g src st' /\
      (priority_queue st' = [] \/ reachable g src dst)
  | _ => False
  end.
Proof.
  unfold dj_safe_state. intros Hs. unfold dijkstra_step.
  destruct (pq_pop (priority_queue st)) as [[[c cur] rest]|] eqn:Hpop.
  2:{ split; [assumption|]. left. now apply pq_pop_nil. }
  destruct (pq_pop_spec _ _ _ _ Hpop) as (Hin & _ & Hperm).
  destruct (ds_queue _ _ _ _ _ _ _ Hs c cur Hin) as [Hcur Hreach].
  assert (Hrest : forall x, In x rest -> In x (priority_queue st)).
  { intros x Hx. apply (Permutation_in _ (Permutation_sym Hperm)). now right. }
  assert (Hs_rest : dj_safe T_max g src (dj_path st) (dj_visited st) (costs st) rest).
  { constructor; try apply Hs. intros c' v' H'. eapply ds_queue; eauto. }
  pose proof (Permutation_length Hperm) as Hplen. simpl in Hplen.
  destruct (N.eqb_spec cur dst) as [->|Hnd].
  { simpl. split; [assumption|]. now right. }
  pose proof (ds_vis_len _ _ _ _ _ _ _ Hs) as Lv.
  pose proof (ds_cost_len _ _ _ _ _ _ _ Hs) as Lc.
  destruct (at_in_range (dj_visited st) cur) as [b Hb].
  { unfold node_count, vsize in *. now rewrite Lv. }
  rewrite Hb. cbn [bind]. destruct b.
  { simpl. split; [assumption|]. unfold dijkstra_measure. simpl. lia. }
  destruct (assign_in_range (dj_visited st) true cur) as [vis' Hvis'].
  { unfold node_count, vsize in *. now rewrite Lv. }
  rewrite Hvis'. cbn [bind].
  destruct (at_in_range (costs st) cur) as [ccur Hcc].
  { unfold node_count, vsize in *. now rewrite Lc. }
  rewrite Hcc. cbn [bind].
  assert (Hs_vis : dj_safe T_max g src (dj_path st) vis' (costs st) rest).
  { constructor; try apply Hs_rest. now rewrite (assign_length _ _ _ _ Hvis'). }
  pose proof (pending_visit _ _ _ _ _ Hb Hvis' (at_row_of _ _ Hcur)) as Hpend.
  destruct (negb (c =? ccur)).
  { simpl. split; [assumption|]. unfold dijkstra_measure. simpl. lia. }
  rewrite (at_row_of _ _ Hcur). cbn [bind].
  destruct Hwf as (Hwlen & Hwrows & _).
  destruct (relax_safe cur vis' (row_of (adjacency_list g) cur) []
                       (row_of (weights g) cur) (dj_path st) (costs st) rest)
    as (pth' & cst' & pq' & E & Hs' & Hl); try assumption.
  { intros x Hx. exact Hx. }
  { simpl. apply at_row_of. unfold node_count, vsize in *. now rewrite Hwlen. }
  { apply Hwrows. }
  change (vsize (@nil N)) with 0 in E. rewrite E. simpl.
  split; [assumption|]. unfold dijkstra_measure. simpl. lia.
Qed.

Lemma dijkstra_loop_safe : forall fuel st,
  dj_safe_state T_max g src st ->
  (dijkstra_measure g st < fuel)%nat ->
  exists st', dijkstra_loop T_max fuel g dst st = Returned st' /\
              dj_safe_state T_max g src st' /\
              (priority_queue st' = [] \/ reachable g src dst).
Proof.
  induction fuel as [|fuel IH]; intros st Hs Hm; [lia|].
  simpl. pose proof (dijkstra_step_safe st Hs) as Hstep.
  destruct (dijkstra_step T_max g dst st) as [[st'|st']| |]; try contradiction; simpl.
  - destruct Hstep as [Hs' Hm']. apply IH; [assumption|lia].
  - eauto.
Qed.

Lemma dijkstra_loop_mono : forall fuel st st',
  dijkstra_loop T_max fuel g dst st = Returned st' ->
  forall fuel', (fuel <= fuel')%nat ->
    dijkstra_loop T_max fuel' g dst st = Returned st'.
Proof.
  induction fuel as [|fuel IH]; intros st st' H fuel' Hle; [discriminate|].
  destruct fuel' as [|fuel']; [lia|]. simpl in *.
  destruct (dijkstra_step T_max g dst st) as [[st1|st1]| |]; simpl in *;
    try discriminate; [|assumption].
  apply (IH _ _ H). lia.
Qed.

Lemma dijkstra_init_safe cst0 :
  src < node_count g ->
  assign (repeat T_max (length (adjacency_list g))) src 0 = Returned cst0 ->
  dj_safe_state T_max g src (dijkstra_init g cst0 src).
Proof.
  intros Hsrc Hc. unfold dj_safe_state, dijkstra_init. constructor; simpl.
  - apply repeat_length.
  - apply repeat_length.
  - rewrite (assign_length _ _ _ _ Hc). apply repeat_length.
  - intros c v [H|[]]. injection H as _ <-. split; [assumption|now exists []].
  - intros v u H. apply at_In, repeat_spec in H. subst. lia.
  - intros v u H. left. now apply at_In, repeat_spec in H.
  - intros v c. rewrite (at_assign _ _ _ v _ Hc).
    destruct (N.eqb_spec v src) as [->|]; [intros _; right; now exists []|].
    intros H. left. now apply at_In, repeat_spec in H.
Qed.

Lemma dijkstra_init_measure cst0 :
  dijkstra_measure g (dijkstra_init g cst0 src) = S (total_entries g).
Proof.
  unfold dijkstra_measure, dijkstra_init, total_entries. simpl.
  now rewrite pending_unvisited.
Qed.

Lemma dijkstra_src_out_of_range fuel :
  node_count g <= src -> dijkstra T_max fuel g src dst = OutOfBounds.
Proof.
  intros H. unfold dijkstra. rewrite assign_out_of_range; [reflexivity|].
  now rewrite vsize_repeat.
Qed.

(** With [dst] out of reach the loop runs until the queue is empty; the cost
    of [dst] is still the initial [T_max] and the walk along the predecessors
    reads inside the vector. *)
Lemma dijkstra_unreachable :
  src < node_count g -> dst < node_count g -> ~ reachable g src dst ->
  forall fuel, (S (total_entries g) < fuel)%nat ->
    dijkstra T_max fuel g src dst = OutOfFuel \/
    exists p, dijkstra T_max fuel g src dst = Returned (T_max, p).
Proof.
  intros Hsrc Hdst Hun fuel Hf. unfold dijkstra.
  destruct (assign_in_range (repeat T_max (length (adjacency_list g))) 0 src)
    as [cst0 Hc0].
  { now rewrite vsize_repeat. }
  rewrite Hc0. cbn [bind].
  destruct (dijkstra_loop_safe fuel _ (dijkstra_init_safe cst0 Hsrc Hc0))
    as (st & E & Hs & _).
  { rewrite dijkstra_init_measure. lia. }
  rewrite E. cbn [bind].
  pose proof (ds_path_len _ _ _ _ _ _ _ Hs) as Lp.
  pose proof (ds_cost_len _ _ _ _ _ _ _ Hs) as Lc.
  destruct (reconstruct fuel (dj_path st) src dst []) as [p| |] eqn:Er.
  - right. exists p. cbn [bind].
    destruct (at_in_range (costs st) dst) as [c Hc].
    { unfold node_count, vsize in *. now rewrite Lc. }
    rewrite Hc. cbn [bind].
    destruct (ds_cost _ _ _ _ _ _ _ Hs dst c Hc) as [->|]; [reflexivity|contradiction].
  - exfalso. revert Er. apply reconstruct_in_bounds.
    + intros v u H. unfold vsize. rewrite Lp. eapply (ds_path _ _ _ _ _ _ _ Hs); eauto.
    + unfold node_count, vsize in *. now rewrite Lp.
  - now left.
Qed.

Lemma dijkstra_dst_out_of_range :
  src < node_count g -> node_count g <= dst ->
  forall fuel, (S (total_entries g) < fuel)%nat ->
    dijkstra T_max fuel g src dst = OutOfBounds.
Proof.
  intros Hsrc Hdst fuel Hf. unfold dijkstra.
  destruct (assign_in_range (repeat T_max (length (adjacency_list g))) 0 src)
    as [cst0 Hc0].
  { now rewrite vsize_repeat. }
  rewrite Hc0. cbn [bind].
  destruct (dijkstra_loop_safe fuel _ (dijkstra_init_safe cst0 Hsrc Hc0))
    as (st & E & Hs & _).
  { rewrite dijkstra_init_measure. lia. }
  rewrite E. cbn [bind].
  pose proof (ds_path_len _ _ _ _ _ _ _ Hs) as Lp.
  destruct fuel as [|fuel]; [lia|]. cbn [reconstruct].
  destruct (N.eqb_spec dst src); [lia|].
  rewrite at_out_of_range; [reflexivity|].
  unfold node_count, vsize in *. now rewrite Lp.
Qed.

Lemma dijkstra_loop_no_fault : forall fuel st,
  dj_safe_state T_max g src st ->
  dijkstra_loop T_max fuel g dst st = OutOfFuel \/
  exists st', dijkstra_loop T_max fuel g dst st = Returned st' /\
              dj_safe_state T_max g src st' /\
              (priority_queue st' = [] \/ reachable g src dst).
Proof.
  induction fuel as [|fuel IH]; intros st Hs; [now left|].
  simpl. pose proof (dijkstra_step_safe st Hs) as Hstep.
  destruct (dijkstra_step T_max g dst st) as [[st'|st']| |]; try contradiction; simpl.
  - destruct Hstep as [Hs' _]. now apply IH.
  - right. eauto.
Qed.

(** The two ways in which [dijkstra] ends on a destination out of reach that
    can be told from [src] alone: the predecessor of [dst] is still the
    initial 0, so the walk back goes to node 0; it stops there when [src] is
    0 and stays there for ever when 0 is out of reach as well. *)
Lemma dijkstra_unreachable_from_zero :
  src = 0 -> dst < node_count g -> ~ reachable g src dst ->
  forall fuel, (S (total_entries g) < fuel)%nat ->
    dijkstra T_max fuel g src dst = Returned (T_max, [0; dst]).
Proof.
  intros Hsrc Hdst Hun fuel Hf. unfold dijkstra.
  assert (Hsrcr : src < node_count g) by (subst src; lia).
  destruct (assign_in_range (repeat T_max (length (adjacency_list g))) 0 src)
    as [cst0 Hc0].
  { now rewrite vsize_repeat. }
  rewrite Hc0. cbn [bind].
  destruct (dijkstra_loop_safe fuel _ (dijkstra_init_safe cst0 Hsrcr Hc0))
    as (st & E & Hs & _).
  { rewrite dijkstra_init_measure. lia. }
  rewrite E. cbn [bind].
  pose proof (ds_path_len _ _ _ _ _ _ _ Hs) as Lp.
  pose proof (ds_cost_len _ _ _ _ _ _ _ Hs) as Lc.
  assert (Hne : dst <> src) by (intros ->; apply Hun; now exists []).
  destruct (at_in_range (dj_path st) dst) as [u Hu].
  { unfold node_count, vsize in *. now rewrite Lp. }
  destruct (ds_pred _ _ _ _ _ _ _ Hs dst u Hu) as [->|]; [|contradiction].
  destruct (at_in_range (costs st) dst) as [c Hc].
  { unfold node_count, vsize in *. now rewrite Lc. }
  destruct (ds_cost _ _ _ _ _ _ _ Hs dst c Hc) as [->|]; [|contradiction].
  destruct fuel as [|[|fuel]]; try lia.
  cbn [reconstruct]. destruct (N.eqb_spec dst src); [contradiction|].
  rewrite Hu. cbn [bind]. subst src. rewrite N.eqb_refl. cbn [bind].
  now rewrite Hc.
Qed.

Lemma dijkstra_unreachable_hangs :
  src < node_count g -> dst < node_count g ->
  ~ reachable g src dst -> ~ reachable g src 0 ->
  forall fuel, dijkstra T_max fuel g src dst = OutOfFuel.
Proof.
  intros Hsrc Hdst Hun Hun0 fuel. unfold dijkstra.
  destruct (assign_in_range (repeat T_max (length (adjacency_list g))) 0 src)
    as [cst0 Hc0].
  { now rewrite vsize_repeat. }
  rewrite Hc0. cbn [bind].
  destruct (dijkstra_loop_no_fault fuel _ (dijkstra_init_safe cst0 Hsrc Hc0))
    as [E|(st & E & Hs & _)]; rewrite E; [reflexivity|]. cbn [bind].
  pose proof (ds_path_len _ _ _ _ _ _ _ Hs) as Lp.
  assert (Hne : dst <> src) by (intros ->; apply Hun; now exists []).
  assert (Hne0 : 0 <> src) by (intros <-; apply Hun0; now exists []).
  assert (Hpred : forall v, v < node_count g -> ~ reachable g src v ->
                            at_ (dj_path st) v = Returned 0).
  { intros v Hv Hnr. destruct (at_in_range (dj_path st) v) as [u Hu].
    { unfold node_count, vsize in *. now rewrite Lp. }
    destruct (ds_pred _ _ _ _ _ _ _ Hs v u Hu) as [->|]; [assumption|contradiction]. }
  assert (Hloop : forall k acc, reconstruct k (dj_path st) src 0 acc = OutOfFuel).
  { apply reconstruct_self_loop; [assumption|]. apply Hpred; [lia|assumption]. }
  destruct fuel as [|fuel]; cbn [reconstruct];
    destruct (N.eqb_spec dst src); try contradiction; [reflexivity|].
  rewrite (Hpred dst Hdst Hun). cbn [bind]. now rewrite Hloop.
Qed.

End DijkstraSafe.

(** ** Dijkstra: weighted walks and chains of predecessors *)

Lemma sumN_In (l : list N) w : In w l -> w <= sumN l.
Proof.
  induction l as [|x l IH]; simpl; intros H; [contradiction|].
  destruct H as [->|H]; [lia|]. apply IH in H. lia.
Qed.

Lemma weight_of_cons e steps : weight_of (e :: steps) = snd e + weight_of steps.
Proof. reflexivity. Qed.

Lemma weight_of_app s1 s2 : weight_of (s1 ++ s2) = weight_of s1 + weight_of s2.
Proof.
  unfold weight_of. induction s1 as [|e s1 IH]; simpl; [reflexivity|].
  rewrite IH. lia.
Qed.

Lemma wwalk_app g : forall s1 a b s2 c,
  wwalk g a s1 b -> wwalk g b s2 c -> wwalk g a (s1 ++ s2) c.
Proof.
  induction s1 as [|e s1 IH]; simpl; intros a b s2 c H1 H2.
  - now subst.
  - destruct H1 as [He H1]. split; [assumption|]. eapply IH; eauto.
Qed.

Lemma wwalk_walk g : forall steps u v,
  wwalk g u steps v -> walk g u (map fst steps) v.
Proof.
  induction steps as [|[x w] steps IH]; simpl; intros u v H; [assumption|].
  destruct H as [He H]. split; [|now apply IH].
  unfold edge. unfold entries in He. eapply in_combine_l; eauto.
Qed.

Lemma In_combine_l {A B : Type} (l : list A) : forall (l' : list B) x,
  length l' = length l -> In x l -> exists y, In (x, y) (combine l l').
Proof.
  induction l as [|a l IH]; intros [|b l'] x Hlen Hx; simpl in *;
    try discriminate; try contradiction.
  destruct Hx as [->|Hx]; [eauto|].
  destruct (IH l' x) as [y Hy]; [now injection Hlen|assumption|]. eauto.
Qed.

Lemma edge_entry g u v : wf g -> edge g u v -> exists w, In (v, w) (entries g u).
Proof.
  intros (_ & Hrows & _) He. unfold entries. apply In_combine_l; [apply Hrows|exact He].
Qed.

Lemma entry_edge g u v w : In (v, w) (entries g u) -> edge g u v.
Proof. unfold entries, edge. apply in_combine_l. Qed.

Lemma walk_wwalk g : wf g -> forall rest u v,
  walk g u rest v -> exists steps, wwalk g u steps v /\ map fst steps = rest.
Proof.
  intros Hwf. induction rest as [|x rest IH]; simpl; intros u v H.
  - exists []. now split.
  - destruct H as [He H]. destruct (IH _ _ H) as (steps & Hs & Hm).
    destruct (edge_entry _ _ _ Hwf He) as [w Hw].
    exists ((x, w) :: steps). simpl. now rewrite Hm.
Qed.

Lemma dchain_stable g src pth vis cst pth' vis' cst' v steps :
  dchain g src pth vis cst v steps ->
  at_ pth' v = at_ pth v ->
  at_ cst' v = at_ cst v ->
  (forall x, at_ vis x = Returned true ->
             at_ vis' x = Returned true /\ at_ pth' x = at_ pth x /\
             at_ cst' x = at_ cst x) ->
  dchain g src pth' vis' cst' v steps.
Proof.
  intros Hc. induction Hc as [|v u w cu steps Hne Hp Hv He Hcu Hcv Hc IH];
    intros Hp' Hc' Hvis.
  - constructor.
  - destruct (Hvis u Hv) as (Hv' & Hpu & Hcu').
    apply (dchain_step g src pth' vis' cst' v u w cu steps); try assumption;
      try congruence.
    apply IH; assumption.
Qed.

Lemma dchain_wwalk g src pth vis cst v steps :
  dchain g src pth vis cst v steps -> wwalk g src steps v.
Proof.
  induction 1 as [|v u w cu steps Hne Hp Hv He Hcu Hcv Hc IH]; [reflexivity|].
  eapply wwalk_app; [eassumption|]. simpl. auto.
Qed.

Lemma dchain_weight g src pth vis cst v steps :
  at_ cst src = Returned 0 ->
  dchain g src pth vis cst v steps -> at_ cst v = Returned (weight_of steps).
Proof.
  intros Hsrc. induction 1 as [|v u w cu steps Hne Hp Hv He Hcu Hcv Hc IH].
  - assumption.
  - rewrite weight_of_app. unfold weight_of at 2. simpl.
    rewrite Hcv. rewrite IH in Hcu. injection Hcu as <-. f_equal. lia.
Qed.

Lemma reconstruct_dchain g src pth vis cst v steps :
  dchain g src pth vis cst v steps ->
  forall fuel acc, (length steps <= fuel)%nat ->
    reconstruct fuel pth src v acc = Returned (src :: map fst steps ++ acc).
Proof.
  induction 1 as [|v u w cu steps Hne Hp Hv He Hcu Hcv Hc IH]; intros fuel acc Hf.
  - destruct fuel; simpl; now rewrite N.eqb_refl.
  - rewrite length_app in Hf. simpl in Hf.
    destruct fuel as [|fuel]; [lia|]. simpl.
    destruct (N.eqb_spec v src); [contradiction|].
    rewrite Hp. simpl. rewrite IH by lia.
    now rewrite map_app, <- app_assoc.
Qed.

Lemma spent_total : forall ws vis, spent ws vis <= sumN (map sumN ws).
Proof.
  induction ws as [|wrow ws IH]; intros [|b vis]; simpl; try lia.
  specialize (IH vis). destruct b; lia.
Qed.

Lemma spent_visit : forall ws vis u vis' wrow,
  at_ vis u = Returned false ->
  assign vis u true = Returned vis' ->
  at_ ws u = Returned wrow ->
  spent ws vis' = spent ws vis + sumN wrow.
Proof.
  induction ws as [|r ws IH]; intros vis u vis' wrow Hv Ha Hr; [discriminate|].
  destruct vis as [|b vis]; [discriminate|].
  simpl in Hv, Ha, Hr. destruct (u =? 0).
  - injection Hv as ->. injection Ha as <-. injection Hr as ->. simpl. lia.
  - inv_bind Ha. injection Ha as <-. simpl.
    rewrite (IH _ _ _ _ Hv E Hr). lia.
Qed.

(** ** Dijkstra: the invariant when the additions do not wrap *)

Section DijkstraCorrect.

Variable T_max : N.
Variable g : Grafo.
Hypothesis Hwf : wf g.
Hypothesis Hweights : total_weight g < T_max.
Variables src dst : N.

Lemma T_add_small a b vis :
  a + b <= spent (weights g) vis -> T_add T_max a b = a + b /\ a + b < T_max.
Proof.
  intros H. pose proof (spent_total (weights g) vis) as Ht.
  unfold total_weight in Hweights. unfold T_add.
  rewrite N.mod_small by lia. lia.
Qed.

(** The entry [(adjacent, w)] is examined and the test fails. *)
Lemma dj_inv_skip cur vis ccur adjacent w c_adj rest pth cst pq :
  at_ cst cur = Returned ccur ->
  at_ cst adjacent = Returned c_adj ->
  c_adj <= ccur + w -> ccur + w < T_max ->
  dj_inv T_max g src dst cur ((adjacent, w) :: rest) pth vis cst pq ->
  dj_inv T_max g src dst cur rest pth vis cst pq.
Proof.
  intros Hcc Hca Hle Hlt Hinv. constructor; try apply Hinv.
  intros u v w0 cu Hu He Hcu.
  destruct (di_relaxed _ _ _ _ _ _ _ _ _ _ Hinv u v w0 cu Hu He Hcu)
    as [[-> [Heq|Hin]]|H]; [|now left|now right].
  injection Heq as <- <-. right. exists c_adj.
  rewrite Hcc in Hcu. injection Hcu as <-. repeat split; [assumption|lia|lia].
Qed.

(** The entry [(adjacent, w)] is examined and the test succeeds. *)
Lemma dj_inv_update cur vis ccur adjacent w c_adj rest pth cst pq cst1 pth1 :
  at_ vis cur = Returned true ->
  at_ cst cur = Returned ccur ->
  at_ cst adjacent = Returned c_adj ->
  ccur + w < c_adj ->
  ccur + w <= spent (weights g) vis ->
  In (adjacent, w) (entries g cur) ->
  (forall u cu, at_ vis u = Returned true -> at_ cst u = Returned cu -> cu <= ccur) ->
  dj_inv T_max g src dst cur ((adjacent, w) :: rest) pth vis cst pq ->
  assign cst adjacent (ccur + w) = Returned cst1 ->
  assign pth adjacent cur = Returned pth1 ->
  dj_inv T_max g src dst cur rest pth1 vis cst1 (pq_push (ccur + w, adjacent) pq) /\
  at_ cst1 cur = Returned ccur /\
  (forall u cu, at_ vis u = Returned true -> at_ cst1 u = Returned cu -> cu <= ccur).
Proof.
  intros Hvc Hcc Hca Hlt Hsp Hent Hle Hinv Hc1 Hp1.
  destruct (T_add_small _ _ _ Hsp) as [_ Hnc].
  assert (Hc1' : forall x, at_ cst1 x = if x =? adjacent then Returned (ccur + w)
                                          else at_ cst x)
    by (intros x; apply (at_assign _ _ _ x _ Hc1)).
  assert (Hp1' : forall x, at_ pth1 x = if x =? adjacent then Returned cur
                                          else at_ pth x)
    by (intros x; apply (at_assign _ _ _ x _ Hp1)).
  assert (Hnot_vis : at_ vis adjacent <> Returned true).
  { intros Hv. specialize (Hle _ _ Hv Hca). lia. }
  assert (Hvis_ne : forall x, at_ vis x = Returned true -> x <> adjacent)
    by (intros x Hx ->; contradiction).
  assert (Hvis_same : forall x, at_ vis x = Returned true ->
            at_ vis x = Returned true /\ at_ pth1 x = at_ pth x /\
            at_ cst1 x = at_ cst x).
  { intros x Hx. specialize (Hvis_ne x Hx). rewrite Hp1', Hc1'.
    destruct (N.eqb_spec x adjacent); [contradiction|auto]. }
  assert (Hsrc_ne : src <> adjacent).
  { intros <-. rewrite (di_src _ _ _ _ _ _ _ _ _ _ Hinv) in Hca.
    injection Hca as <-. lia. }
  assert (Hcur_ne : cur <> adjacent) by (now apply Hvis_ne).
  assert (Hcc1 : at_ cst1 cur = Returned ccur).
  { rewrite Hc1'. destruct (N.eqb_spec cur adjacent); [contradiction|assumption]. }
  split; [|split; [assumption|]].
  2:{ intros u cu Hu Hcu. destruct (Hvis_same u Hu) as (_ & _ & E).
      rewrite E in Hcu. eauto. }
  constructor.
  - rewrite Hc1'. destruct (N.eqb_spec src adjacent); [contradiction|].
    apply Hinv.
  - intros c v [Hcv|Hcv].
    + injection Hcv as <- <-. exists (ccur + w). rewrite Hc1', N.eqb_refl.
      repeat split; [lia|assumption].
    + destruct (di_queue _ _ _ _ _ _ _ _ _ _ Hinv c v Hcv) as (cv & E & H1 & H2).
      rewrite Hc1'. destruct (N.eqb_spec v adjacent) as [->|].
      * exists (ccur + w). rewrite E in Hca. injection Hca as ->.
        repeat split; [lia|assumption].
      * exists cv. auto.
  - intros v cv. rewrite Hc1'. destruct (N.eqb_spec v adjacent) as [->|].
    + intros H _ _. injection H as <-. now left.
    + intros H1 H2 H3. right. eapply di_unvisited; eauto.
  - intros u v w0 cu Hu He Hcu.
    destruct (Hvis_same u Hu) as (_ & _ & E). rewrite E in Hcu.
    destruct (di_relaxed _ _ _ _ _ _ _ _ _ _ Hinv u v w0 cu Hu He Hcu)
      as [[-> [Heq|Hin]]|(cv & Ecv & H1 & H2)].
    * injection Heq as <- <-. right. exists (ccur + w).
      rewrite Hcc in Hcu. injection Hcu as <-.
      rewrite Hc1', N.eqb_refl. repeat split; [lia|assumption].
    * now left.
    * right. rewrite Hc1'. destruct (N.eqb_spec v adjacent) as [->|].
      { exists (ccur + w). rewrite Ecv in Hca. injection Hca as ->.
        repeat split; [lia|assumption]. }
      { exists cv. auto. }
  - intros u cu c v Hu Hcu [Hcv|Hcv].
    + injection Hcv as <- <-. destruct (Hvis_same u Hu) as (_ & _ & E).
      rewrite E in Hcu. specialize (Hle _ _ Hu Hcu). lia.
    + destruct (Hvis_same u Hu) as (_ & _ & E). rewrite E in Hcu.
      eapply di_mono; eauto.
  - intros v cv. rewrite Hc1'. destruct (N.eqb_spec v adjacent) as [->|].
    + intros H. injection H as <-. now right.
    + apply Hinv.
  - apply Hinv.
  - assert (Hkeep : forall v steps, v <> adjacent ->
              dchain g src pth vis cst v steps -> dchain g src pth1 vis cst1 v steps).
    { intros v steps Hne Hc. eapply dchain_stable; eauto.
      - rewrite Hp1'. now destruct (N.eqb_spec v adjacent).
      - rewrite Hc1'. now destruct (N.eqb_spec v adjacent). }
    intros v cv. rewrite Hc1'. destruct (N.eqb_spec v adjacent) as [->|Hne].
    + intros _ _.
      destruct (di_chain _ _ _ _ _ _ _ _ _ _ Hinv cur ccur Hcc) as [steps Hsteps];
        [lia|].
      exists (steps ++ [(adjacent, w)]).
      apply (dchain_step g src pth1 vis cst1 adjacent cur w ccur steps); auto.
      * rewrite Hp1'. now rewrite N.eqb_refl.
      * rewrite Hc1'. now rewrite N.eqb_refl.
    + intros H1 H2.
      destruct (di_chain _ _ _ _ _ _ _ _ _ _ Hinv v cv H1 H2) as [steps Hsteps].
      eauto.
  - intros u Hu. destruct (Hvis_same u Hu) as (_ & _ & E). rewrite E.
    eapply di_visited; eauto.
Qed.

Lemma relax_inv cur vis ccur : forall row wdone wrest pth cst pq pth' cst' pq',
  at_ (weights g) cur = Returned (wdone ++ wrest) ->
  length wrest = length row ->
  (forall e, In e (combine row wrest) -> In e (entries g cur)) ->
  at_ vis cur = Returned true ->
  at_ cst cur = Returned ccur ->
  (forall w, In w wrest -> ccur + w <= spent (weights g) vis) ->
  (forall u cu, at_ vis u = Returned true -> at_ cst u = Returned cu -> cu <= ccur) ->
  dj_inv T_max g src dst cur (combine row wrest) pth vis cst pq ->
  relax T_max g cur row (vsize wdone) pth cst pq = Returned (pth', cst', pq') ->
  dj_inv T_max g src dst cur [] pth' vis cst' pq'.
Proof.
  induction row as [|adjacent row IH];
    intros wdone wrest pth cst pq pth' cst' pq' Hw Hlen Hent Hvc Hcc Hsp Hle Hinv H.
  - simpl in H. injection H as <- <- <-. exact Hinv.
  - destruct wrest as [|w wrest]; [discriminate|].
    simpl in Hlen. injection Hlen as Hlen. simpl in Hinv.
    assert (Hw' : at_ (weights g) cur = Returned ((wdone ++ [w]) ++ wrest))
      by (now rewrite <- app_assoc).
    assert (Hi : vsize (wdone ++ [w]) = N.succ (vsize wdone)).
    { unfold vsize. rewrite length_app. simpl. lia. }
    assert (Hent' : forall e, In e (combine row wrest) -> In e (entries g cur))
      by (intros; apply Hent; now right).
    assert (Hsp' : forall w0, In w0 wrest -> ccur + w0 <= spent (weights g) vis)
      by (intros; apply Hsp; now right).
    assert (Hspw : ccur + w <= spent (weights g) vis) by (apply Hsp; now left).
    destruct (T_add_small _ _ _ Hspw) as [Hadd Hnc].
    cbn [relax] in H. rewrite Hw in H. cbn [bind] in H.
    rewrite at_app_here in H. cbn [bind] in H.
    rewrite Hcc in H. cbn [bind] in H.
    destruct (at_ cst adjacent) as [c_adj| |] eqn:Hca; try discriminate.
    cbn [bind] in H. rewrite Hadd in H.
    destruct (N.ltb_spec (ccur + w) c_adj) as [Hlt|Hge].
    + destruct (assign cst adjacent (ccur + w)) as [cst1| |] eqn:Hc1;
        try discriminate.
      cbn [bind] in H. rewrite (at_assign_same _ _ _ _ Hc1) in H. cbn [bind] in H.
      destruct (assign pth adjacent cur) as [pth1| |] eqn:Hp1; try discriminate.
      cbn [bind] in H. rewrite <- Hi in H.
      destruct (dj_inv_update cur vis ccur adjacent w c_adj (combine row wrest)
                              pth cst pq cst1 pth1) as (Hinv1 & Hcc1 & Hle1);
        try assumption.
      { apply Hent. now left. }
      eapply (IH (wdone ++ [w]) wrest pth1 cst1); eauto.
    + rewrite <- Hi in H.
      eapply (IH (wdone ++ [w]) wrest pth cst); eauto.
      eapply dj_inv_skip; eauto.
Qed.

Lemma dj_inv_done cur cur' pth vis cst pq :
  dj_inv T_max g src dst cur [] pth vis cst pq ->
  dj_inv T_max g src dst cur' [] pth vis cst pq.
Proof.
  intros Hinv. constructor; try apply Hinv.
  intros u v w cu Hu He Hcu.
  destruct (di_relaxed _ _ _ _ _ _ _ _ _ _ Hinv u v w cu Hu He Hcu)
    as [[_ []]|H]. now right.
Qed.

(** Along a walk that leaves the visited nodes, the first node outside has a
    recorded cost that the walk does not beat. *)
Lemma dj_crossing cur pth vis cst pq :
  dj_inv T_max g src dst cur [] pth vis cst pq ->
  forall steps x v cx,
    wwalk g x steps v ->
    at_ vis x = Returned true -> at_ vis v <> Returned true ->
    at_ cst x = Returned cx ->
    exists y cy, at_ vis y <> Returned true /\ at_ cst y = Returned cy /\
                 cy < T_max /\ cy <= cx + weight_of steps.
Proof.
  intros Hinv. induction steps as [|[x' w] steps IH]; simpl; intros x v cx Hw Hx Hv Hcx.
  - subst. contradiction.
  - destruct Hw as [He Hw].
    destruct (di_relaxed _ _ _ _ _ _ _ _ _ _ Hinv x x' w cx Hx He Hcx)
      as [[_ []]|(cx' & Ecx' & H1 & H2)].
    unfold weight_of. simpl. fold (weight_of steps).
    destruct (at_ vis x') as [[|]| |] eqn:Hx'.
    + destruct (IH x' v cx' Hw Hx' Hv Ecx') as (y & cy & Hy & Ecy & H3 & H4).
      exists y, cy. repeat split; try assumption. lia.
    + exists x', cx'. rewrite Hx'. repeat split; try assumption; [discriminate|lia].
    + exists x', cx'. rewrite Hx'. repeat split; try assumption; [discriminate|lia].
    + exists x', cx'. rewrite Hx'. repeat split; try assumption; [discriminate|lia].
Qed.

Lemma dijkstra_step_inv st :
  dj_safe_state T_max g src st ->
  dj_inv_state T_max g src dst st ->
  match dijkstra_step T_max g dst st with
  | Returned (Continue st') => dj_inv_state T_max g src dst st'
  | Returned (Break st') =>
      dj_found T_max g src dst st' \/
      (dj_inv_state T_max g src dst st' /\ priority_queue st' = [])
  | _ => True
  end.
Proof.
  unfold dj_safe_state, dj_inv_state. intros Hs Hinv. unfold dijkstra_step.
  destruct (pq_pop (priority_queue st)) as [[[c cur] rest]|] eqn:Hpop.
  2:{ right. split; [assumption|]. now apply pq_pop_nil. }
  destruct (pq_pop_spec _ _ _ _ Hpop) as (Hin & Hmin & Hperm).
  assert (Hrest : forall x, In x rest -> In x (priority_queue st)).
  { intros x Hx. apply (Permutation_in _ (Permutation_sym Hperm)). now right. }
  assert (Hpq : forall x, In x (priority_queue st) -> x = (c, cur) \/ In x rest).
  { intros x Hx. apply (Permutation_in _ Hperm) in Hx. destruct Hx; auto. }
  destruct (di_queue _ _ _ _ _ _ _ _ _ _ Hinv c cur Hin) as (ccur & Hcc & Hcle & Hclt).
  assert (Hpos : 0 < T_max) by lia.
  destruct (N.eqb_spec cur dst) as [->|Hnd].
  { (* [dst] is taken from the queue *)
    left. unfold dj_found. simpl.
    destruct (di_chain _ _ _ _ _ _ _ _ _ _ Hinv dst ccur Hcc) as [steps Hsteps];
      [lia|].
    pose proof (dchain_weight _ _ _ _ _ _ _ (di_src _ _ _ _ _ _ _ _ _ _ Hinv) Hsteps)
      as Hwt.
    rewrite Hcc in Hwt. injection Hwt as Hwt.
    exists steps. rewrite Hcc, Hwt. split; [reflexivity|]. split; [assumption|].
    intros steps' Hw'. rewrite <- Hwt.
    pose proof (di_src _ _ _ _ _ _ _ _ _ _ Hinv) as Hsrc0.
    destruct (at_ (dj_visited st) src) as [[|]| |] eqn:Hvs.
    - destruct (dj_crossing _ _ _ _ _ Hinv steps' src dst 0 Hw' Hvs
                            (di_dst _ _ _ _ _ _ _ _ _ _ Hinv) Hsrc0)
        as (y & cy & Hy & Ecy & H3 & H4).
      pose proof (di_unvisited _ _ _ _ _ _ _ _ _ _ Hinv y cy Ecy H3 Hy) as Hyq.
      specialize (Hmin _ _ Hyq). lia.
    - assert (Hq : In (0, src) (priority_queue st)).
      { eapply di_unvisited; eauto. rewrite Hvs. discriminate. }
      specialize (Hmin _ _ Hq). lia.
    - assert (Hq : In (0, src) (priority_queue st)).
      { eapply di_unvisited; eauto. rewrite Hvs. discriminate. }
      specialize (Hmin _ _ Hq). lia.
    - assert (Hq : In (0, src) (priority_queue st)).
      { eapply di_unvisited; eauto. rewrite Hvs. discriminate. }
      specialize (Hmin _ _ Hq). lia. }
  destruct (at_ (dj_visited st) cur) as [b| |] eqn:Hb; cbn [bind]; try exact I.
  destruct b.
  { (* an entry of a node already visited *)
    simpl. constructor; try apply Hinv.
    - intros c' v' H'. eapply di_queue; eauto.
    - intros v cv H1 H2 H3.
      destruct (Hpq _ (di_unvisited _ _ _ _ _ _ _ _ _ _ Hinv v cv H1 H2 H3)) as [E|E];
        [|assumption].
      injection E as -> ->. congruence.
    - intros u cu c' v' Hu Hcu H'. eapply di_mono; eauto. }
  destruct (assign (dj_visited st) cur true) as [vis'| |] eqn:Hvis'; cbn [bind];
    try exact I.
  rewrite Hcc. cbn [bind].
  assert (Hv' : forall x, at_ vis' x = if x =? cur then Returned true
                                       else at_ (dj_visited st) x)
    by (intros x; apply (at_assign _ _ _ x _ Hvis')).
  assert (Hceq : c = ccur).
  { assert (Hq : In (ccur, cur) (priority_queue st)).
    { eapply di_unvisited; eauto; [lia|]. rewrite Hb. discriminate. }
    specialize (Hmin _ _ Hq). lia. }
  subst c. rewrite N.eqb_refl. cbn [negb].
  destruct (at_ (adjacency_list g) cur) as [row| |] eqn:Hrow; cbn [bind]; try exact I.
  destruct (relax T_max g cur row 0 (dj_path st) (costs st) rest)
    as [[[pth' cst'] pq']| |] eqn:Hrelax; cbn [bind]; try exact I.
  simpl.
  assert (Hcur : cur < node_count g) by (eapply at_range; eauto).
  destruct Hwf as (Hwlen & Hwrows & _).
  assert (Hwrow : at_ (weights g) cur = Returned (row_of (weights g) cur)).
  { apply at_row_of. unfold node_count, vsize in *. now rewrite Hwlen. }
  pose proof (spent_visit _ _ _ _ _ Hb Hvis' Hwrow) as Hspent.
  assert (Hmono : forall x, at_ (dj_visited st) x = Returned true ->
                            at_ vis' x = Returned true).
  { intros x Hx. rewrite Hv'. now destruct (x =? cur). }
  assert (Hccb : ccur <= spent (weights g) (dj_visited st)).
  { destruct (di_bound _ _ _ _ _ _ _ _ _ _ Hinv cur ccur Hcc); [lia|assumption]. }
  apply (dj_inv_done cur).
  eapply (relax_inv cur vis' ccur row [] (row_of (weights g) cur)); eauto.
  - rewrite <- (row_of_at _ _ _ Hrow). apply Hwrows.
  - intros e He. unfold entries. now rewrite (row_of_at _ _ _ Hrow).
  - rewrite Hv'. now rewrite N.eqb_refl.
  - intros w Hw. apply sumN_In in Hw. lia.
  - intros u cu. rewrite Hv'. destruct (N.eqb_spec u cur) as [->|].
    + intros _ H. rewrite Hcc in H. injection H as <-. lia.
    + intros Hu Hcu. eapply di_mono; eauto.
  - constructor.
    + apply Hinv.
    + intros c' v' H'. eapply di_queue; eauto.
    + intros v cv H1 H2. rewrite Hv'.
      destruct (N.eqb_spec v cur) as [->|Hne]; [congruence|]. intros H3.
      destruct (Hpq _ (di_unvisited _ _ _ _ _ _ _ _ _ _ Hinv v cv H1 H2 H3)) as [E|E];
        [|assumption].
      injection E as _ ->. contradiction.
    + intros u v w cu. rewrite Hv'.
      destruct (N.eqb_spec u cur) as [->|Hne].
      * intros _ He _. left. split; [reflexivity|].
        unfold entries in He. now rewrite (row_of_at _ _ _ Hrow) in He.
      * intros Hu He Hcu. right.
        destruct (di_relaxed _ _ _ _ _ _ _ _ _ _ Hinv u v w cu Hu He Hcu)
          as [[_ []]|H]. exact H.
    + intros u cu c' v'. rewrite Hv'. destruct (N.eqb_spec u cur) as [->|].
      * intros _ H H'. rewrite Hcc in H. injection H as <-.
        apply (Hmin c' v'). now apply Hrest.
      * intros Hu Hcu H'. eapply di_mono; eauto.
    + intros v cv H.
      destruct (di_bound _ _ _ _ _ _ _ _ _ _ Hinv v cv H); [now left|right; lia].
    + rewrite Hv'. destruct (N.eqb_spec dst cur) as [->|]; [contradiction|].
      apply Hinv.
    + intros v cv H1 H2.
      destruct (di_chain _ _ _ _ _ _ _ _ _ _ Hinv v cv H1 H2) as [steps Hsteps].
      exists steps. eapply dchain_stable; eauto.
    + intros u. rewrite Hv'. destruct (N.eqb_spec u cur) as [->|].
      * intros _. exists ccur. split; [assumption|lia].
      * apply Hinv.
Qed.

Lemma dijkstra_loop_inv : forall fuel st st',
  dj_safe_state T_max g src st ->
  dj_inv_state T_max g src dst st ->
  dijkstra_loop T_max fuel g dst st = Returned st' ->
  dj_found T_max g src dst st' \/
  (dj_safe_state T_max g src st' /\ dj_inv_state T_max g src dst st' /\
   priority_queue st' = []).
Proof.
  induction fuel as [|fuel IH]; intros st st' Hs Hinv H; [discriminate|].
  simpl in H.
  pose proof (dijkstra_step_safe T_max g Hwf src dst st Hs) as Hsafe.
  pose proof (dijkstra_step_inv st Hs Hinv) as Hstep.
  destruct (dijkstra_step T_max g dst st) as [[st1|st1]| |]; try contradiction;
    simpl in H.
  - destruct Hsafe as [Hs1 _]. eapply IH; eauto.
  - injection H as <-. destruct Hstep as [Hf|[Hi He]]; [now left|].
    right. destruct Hsafe as [Hs1 _]. auto.
Qed.

Lemma dijkstra_init_inv cst0 :
  src < node_count g ->
  assign (repeat T_max (length (adjacency_list g))) src 0 = Returned cst0 ->
  dj_inv_state T_max g src dst (dijkstra_init g cst0 src).
Proof.
  intros Hsrc Hc. unfold dj_inv_state, dijkstra_init. simpl.
  assert (Hpos : 0 < T_max) by lia.
  assert (Hfalse : forall x, at_ (repeat false (length (adjacency_list g))) x
                             <> Returned true).
  { intros x E. apply at_In, repeat_spec in E. discriminate. }
  assert (Hc' : forall x, at_ cst0 x = if x =? src then Returned 0
                 else at_ (repeat T_max (length (adjacency_list g))) x)
    by (intros x; apply (at_assign _ _ _ x _ Hc)).
  assert (Hother : forall x cv, x <> src -> at_ cst0 x = Returned cv -> cv = T_max).
  { intros x cv Hne. rewrite Hc'. destruct (N.eqb_spec x src); [contradiction|].
    intros H. now apply at_In, repeat_spec in H. }
  constructor.
  - rewrite Hc'. now rewrite N.eqb_refl.
  - intros c v [H|[]]. injection H as <- <-. exists 0.
    rewrite Hc', N.eqb_refl. repeat split; [lia|assumption].
  - intros v cv H1 H2 _. destruct (N.eq_dec v src) as [->|Hne].
    + rewrite Hc', N.eqb_refl in H1. injection H1 as <-. now left.
    + apply (Hother _ _ Hne) in H1. lia.
  - intros u v w cu Hu. now apply Hfalse in Hu.
  - intros u cu c v Hu. now apply Hfalse in Hu.
  - intros v cv H. destruct (N.eq_dec v src) as [->|Hne].
    + rewrite Hc', N.eqb_refl in H. injection H as <-. right. lia.
    + left. eapply Hother; eauto.
  - apply Hfalse.
  - intros v cv H1 H2. destruct (N.eq_dec v src) as [->|Hne].
    + exists []. constructor.
    + apply (Hother _ _ Hne) in H1. lia.
  - intros u Hu. now apply Hfalse in Hu.
Qed.

(** With an empty queue every node that can be reached is visited. *)
Lemma dj_closed st :
  src < node_count g ->
  dj_safe_state T_max g src st ->
  dj_inv_state T_max g src dst st ->
  priority_queue st = [] ->
  forall rest v, walk g src rest v -> at_ (dj_visited st) v = Returned true.
Proof.
  unfold dj_safe_state, dj_inv_state. intros Hsrc Hs Hinv Hempty.
  pose proof (ds_vis_len _ _ _ _ _ _ _ Hs) as Lv.
  assert (Hdec : forall v cv, v < node_count g -> at_ (costs st) v = Returned cv ->
                   cv < T_max -> at_ (dj_visited st) v = Returned true).
  { intros v cv Hv Hcv Hlt.
    destruct (at_in_range (dj_visited st) v) as [b Hb].
    { unfold node_count, vsize in *. now rewrite Lv. }
    destruct b; [assumption|]. exfalso.
    assert (Hq : In (cv, v) (priority_queue st)).
    { eapply di_unvisited; eauto. rewrite Hb. discriminate. }
    now rewrite Hempty in Hq. }
  assert (Hvs : at_ (dj_visited st) src = Returned true).
  { apply (Hdec src 0); [assumption|apply Hinv|lia]. }
  intros rest. revert Hvs Hsrc. generalize src as a.
  induction rest as [|x rest IH]; simpl; intros a Ha Har v Hw.
  - now subst.
  - destruct Hw as [He Hw].
    assert (Hxr : x < node_count g) by (eapply edge_in_range; eauto).
    apply (IH x); try assumption.
    destruct (edge_entry _ _ _ Hwf He) as [w Hent].
    destruct (di_visited _ _ _ _ _ _ _ _ _ _ Hinv a Ha) as (ca & Hca & _).
    destruct (di_relaxed _ _ _ _ _ _ _ _ _ _ Hinv a x w ca Ha Hent Hca)
      as [[_ []]|(cx & Hcx & _ & Hlt)].
    eapply Hdec; eauto.
Qed.

(** A destination that can be reached is taken from the queue; the result is
    the cost of a cheapest walk together with the nodes of one such walk. *)
Lemma dijkstra_reachable :
  src < node_count g -> reachable g src dst ->
  exists steps,
    wwalk g src steps dst /\
    (forall steps', wwalk g src steps' dst -> weight_of steps <= weight_of steps') /\
    forall fuel, (S (total_entries g) < fuel)%nat -> (length steps <= fuel)%nat ->
      dijkstra T_max fuel g src dst = Returned (weight_of steps, src :: map fst steps).
Proof.
  intros Hsrc [r Hr].
  destruct (assign_in_range (repeat T_max (length (adjacency_list g))) 0 src)
    as [cst0 Hc0].
  { now rewrite vsize_repeat. }
  pose proof (dijkstra_init_safe T_max g src cst0 Hsrc Hc0) as Hs0.
  pose proof (dijkstra_init_inv cst0 Hsrc Hc0) as Hi0.
  destruct (dijkstra_loop_safe T_max g Hwf src dst (S (S (total_entries g))) _ Hs0)
    as (st & E & Hs & _).
  { rewrite dijkstra_init_measure. lia. }
  destruct (dijkstra_loop_inv _ _ _ Hs0 Hi0 E) as [Hfound|(_ & Hinv & Hempty)].
  2:{ exfalso. apply (di_dst _ _ _ _ _ _ _ _ _ _ Hinv).
      eapply dj_closed; eauto. }
  destruct Hfound as (steps & Hcost & Hchain & Hopt).
  exists steps. split; [eapply dchain_wwalk; eauto|]. split; [assumption|].
  intros fuel Hf Hl. unfold dijkstra. rewrite Hc0. cbn [bind].
  rewrite (dijkstra_loop_mono _ _ _ _ _ _ E fuel) by lia. cbn [bind].
  rewrite (reconstruct_dchain _ _ _ _ _ _ _ Hchain) by assumption. cbn [bind].
  rewrite Hcost. cbn [bind]. now rewrite app_nil_r.
Qed.

End DijkstraCorrect.

(** ** More fuel does not change a result *)

Lemma reconstruct_mono pth src : forall fuel node acc r,
  reconstruct fuel pth src node acc = Returned r ->
  forall fuel', (fuel <= fuel')%nat -> reconstruct fuel' pth src node acc = Returned r.
Proof.
  induction fuel as [|fuel IH]; intros node acc r H fuel' Hle.
  - simpl in H. destruct (node =? src) eqn:E; [|discriminate].
    destruct fuel'; simpl; now rewrite E.
  - destruct fuel' as [|fuel']; [lia|]. simpl in *.
    destruct (node =? src); [assumption|].
    destruct (at_ pth node); simpl in *; try discriminate.
    apply (IH _ _ _ H). lia.
Qed.

Lemma traverse_mono T_max push g src dst fuel r :
  traverse T_max push fuel g src dst = Returned r ->
  forall fuel', (fuel <= fuel')%nat -> traverse T_max push fuel' g src dst = Returned r.
Proof.
  unfold traverse. intros H fuel' Hle. inv_bind H.
  rewrite (search_loop_mono _ _ _ _ _ _ E fuel' Hle). simpl.
  eapply reconstruct_mono; eauto.
Qed.

Lemma dijkstra_mono T_max g src dst fuel r :
  dijkstra T_max fuel g src dst = Returned r ->
  forall fuel', (fuel <= fuel')%nat -> dijkstra T_max fuel' g src dst = Returned r.
Proof.
  unfold dijkstra. intros H fuel' Hle. inv_bind H. inv_bind H. inv_bind H.
  rewrite E. cbn [bind].
  rewrite (dijkstra_loop_mono _ _ _ _ _ _ E0 fuel' Hle). cbn [bind].
  rewrite (reconstruct_mono _ _ _ _ _ _ E1 fuel' Hle). cbn [bind].
  exact H.
Qed.

(** ** The search reads the adjacency rows only *)

Lemma add_edge_adjacency g1 g2 a b w1 w2 g1' g2' :
  adjacency_list g1 = adjacency_list g2 ->
  add_edge g1 a b w1 = Returned g1' -> add_edge g2 a b w2 = Returned g2' ->
  adjacency_list g1' = adjacency_list g2'.
Proof.
  unfold add_edge. intros Hadj H1 H2. rewrite Hadj in H1.
  inv_bind H1. inv_bind H1. inv_bind H1. inv_bind H1. injection H1 as <-.
  inv_bind H2. inv_bind H2. inv_bind H2. inv_bind H2. injection H2 as <-.
  simpl. congruence.
Qed.

Lemma add_edges_adjacency : forall es1 es2 g1 g2 g1' g2',
  map fst es1 = map fst es2 ->
  adjacency_list g1 = adjacency_list g2 ->
  add_edges g1 es1 = Returned g1' -> add_edges g2 es2 = Returned g2' ->
  adjacency_list g1' = adjacency_list g2'.
Proof.
  induction es1 as [|[[a b] w1] es1 IH]; intros [|[[a' b'] w2] es2] g1 g2 g1' g2'
    Hmap Hadj H1 H2; simpl in *; try discriminate.
  - injection H1 as <-. injection H2 as <-. assumption.
  - injection Hmap as -> -> Hmap. inv_bind H1. inv_bind H2.
    apply (IH es2 x x0 g1' g2' Hmap); try assumption.
    eapply add_edge_adjacency; eauto.
Qed.

Lemma search_step_adjacency push g1 g2 dst st :
  adjacency_list g1 = adjacency_list g2 ->
  search_step push g1 dst st = search_step push g2 dst st.
Proof. unfold search_step. now intros ->. Qed.

Lemma search_loop_adjacency push g1 g2 dst :
  adjacency_list g1 = adjacency_list g2 ->
  forall fuel st, search_loop push fuel g1 dst st = search_loop push fuel g2 dst st.
Proof.
  intros Hadj. induction fuel as [|fuel IH]; intros st; [reflexivity|].
  simpl. rewrite (search_step_adjacency push g1 g2 dst st Hadj).
  destruct (search_step push g2 dst st) as [[st'|st']| |]; simpl; auto.
Qed.

Lemma traverse_adjacency T_max push g1 g2 fuel src dst :
  adjacency_list g1 = adjacency_list g2 ->
  traverse T_max push fuel g1 src dst = traverse T_max push fuel g2 src dst.
Proof.
  intros Hadj. unfold traverse, search_init.
  rewrite (search_loop_adjacency push g1 g2 dst Hadj). now rewrite Hadj.
Qed.

(** ** Predecessors of visited nodes *)

Lemma discover_frozen push cur vis : forall row pth tv pth' tv',
  discover push row cur vis pth tv = Returned (pth', tv') ->
  forall v, at_ vis v = Returned true -> at_ pth' v = at_ pth v.
Proof.
  induction row as [|n row IH]; simpl; intros pth tv pth' tv' H v Hv.
  - now injection H as <- _.
  - inv_bind H. destruct x.
    + eapply IH; eauto.
    + inv_bind H. rewrite (IH _ _ _ _ H v Hv).
      apply (at_assign_other _ _ _ _ _ E0). intros ->. congruence.
Qed.

Lemma search_step_frozen push g dst st c :
  search_step push g dst st = Returned c ->
  forall v, at_ (visited st) v = Returned true ->
    let st' := match c with Continue s => s | Break s => s end in
    at_ (visited st') v = Returned true /\ at_ (path st') v = at_ (path st) v.
Proof.
  unfold search_step. intros H v Hv.
  destruct (to_visit st) as [|cur rest].
  { injection H as <-. now split. }
  destruct (cur =? dst).
  { injection H as <-. now split. }
  inv_bind H. destruct x.
  { injection H as <-. now split. }
  inv_bind H. inv_bind H. inv_bind H. destruct x1 as [pth' tv'].
  injection H as <-. simpl.
  assert (Hv' : at_ x v = Returned true).
  { rewrite (at_assign _ _ _ v _ E0). now destruct (v =? cur). }
  split; [assumption|]. eapply discover_frozen; eauto.
Qed.

Lemma search_iterate_frozen push g dst : forall k st st',
  search_iterate push k g dst st = Returned st' ->
  forall v, at_ (visited st) v = Returned true ->
    at_ (visited st') v = Returned true /\ at_ (path st') v = at_ (path st) v.
Proof.
  induction k as [|k IH]; simpl; intros st st' H v Hv.
  - injection H as <-. now split.
  - inv_bind H. destruct (search_step_frozen _ _ _ _ _ E v Hv) as [H1 H2].
    destruct x as [s|s]; simpl in *.
    + destruct (IH _ _ H v H1) as [H3 H4]. split; [assumption|congruence].
    + injection H as <-. now split.
Qed.

(** * The claims of the specification *)

Lemma last_nonempty {A : Type} (l : list A) : forall x d d',
  last (x :: l) d = last (x :: l) d'.
Proof.
  induction l as [|y l IH]; intros x d d'; [reflexivity|].
  change (last (x :: y :: l) d) with (last (y :: l) d).
  change (last (x :: y :: l) d') with (last (y :: l) d').
  apply IH.
Qed.

Lemma walk_last g : forall rest u v, walk g u rest v -> last (u :: rest) u = v.
Proof.
  induction rest as [|x rest IH]; intros u v H.
  - exact H.
  - destruct H as [_ H]. apply IH in H.
    change (last (u :: x :: rest) u) with (last (x :: rest) u).
    now rewrite (last_nonempty rest x u x).
Qed.

Lemma main_graph_built : build 6 main_edges = Returned main_graph.
Proof. reflexivity. Qed.

(** ** C1 *)

(** C1 as stated fails: on the line 0 - 1 - 2 with weights 1 and
    [numeric_limits<size_t>::max()], [dijkstra(0, 2)] returns cost 0 (the sum
    wrapped around) with the path [0, 1, 2], although no walk from 0 to 2 has
    weight 0. *)
Lemma dijkstra_cost_wraps :
  build 3 (line_edges size_t_max) = Returned (line size_t_max) /\
  walk (line size_t_max) 0 [1; 2] 2 /\
  dijkstra size_t_max 6 (line size_t_max) 0 2 = Returned (0, [0; 1; 2]) /\
  forall steps, wwalk (line size_t_max) 0 steps 2 -> weight_of steps <> 0.
Proof.
  split; [reflexivity|]. split; [simpl; unfold edge; simpl; auto|].
  split; [vm_compute; reflexivity|].
  intros [|e steps] H; simpl in H; [discriminate|].
  destruct H as [[<-|[]] _]. rewrite weight_of_cons. cbn [snd]. lia.
Qed.

(** C1, amended.  On a graph built by [add_edge] calls whose stored weights
    sum to less than [numeric_limits<T>::max()], for [src] a node and [dst]
    reachable from it, [dijkstra(src, dst)] returns (given enough iterations)
    the nodes of a walk from [src] to [dst] together with the sum of the
    weights of the entries of that walk, and no walk from [src] to [dst] has a
    smaller sum. *)
Theorem dijkstra_cheapest_walk :
  forall T_max n es g src dst,
    build n es = Returned g ->
    total_weight g < T_max ->
    src < n ->
    reachable g src dst ->
    exists steps,
      wwalk g src steps dst /\
      (forall steps', wwalk g src steps' dst -> weight_of steps <= weight_of steps') /\
      exists fuel0, forall fuel, (fuel0 <= fuel)%nat ->
        dijkstra T_max fuel g src dst = Returned (weight_of steps, src :: map fst steps).
Proof.
  intros T_max n es g src dst Hb Hw Hsrc Hr.
  pose proof (wf_build _ _ _ Hb) as Hwf.
  rewrite <- (node_count_build _ _ _ Hb) in Hsrc.
  destruct (dijkstra_reachable T_max g Hwf Hw src dst Hsrc Hr) as (steps & H1 & H2 & H3).
  exists steps. split; [assumption|]. split; [assumption|].
  exists (Nat.max (S (S (total_entries g))) (length steps)).
  intros fuel Hf. apply H3; lia.
Qed.

Lemma dijkstra_cheapest_walk_witness :
  exists steps,
    wwalk main_graph 0 steps 3 /\
    (forall steps', wwalk main_graph 0 steps' 3 -> weight_of steps <= weight_of steps') /\
    exists fuel0, forall fuel, (fuel0 <= fuel)%nat ->
      dijkstra size_t_max fuel main_graph 0 3
      = Returned (weight_of steps, 0 :: map fst steps).
Proof.
  apply (dijkstra_cheapest_walk size_t_max 6 main_edges main_graph 0 3).
  - reflexivity.
  - reflexivity.
  - reflexivity.
  - exists [1; 3]. simpl. unfold edge. simpl. auto 10.
Defined.

(** ** C2 *)

(** C2 fails on the graph of [main]: [BFS(0, 3)] returns [0, 5, 2, 3], three
    edges, while [0, 1, 3] is a walk of two edges.  Node 2 is first discovered
    from node 1 and node 3 from node 1, but both predecessors are overwritten
    when the nodes are discovered again (from 5 and from 2) before they are
    marked visited. *)
Theorem BFS_main_not_fewest_edges :
  build 6 main_edges = Returned main_graph /\
  BFS size_t_max 18 main_graph 0 3 = Returned [0; 5; 2; 3] /\
  walk main_graph 0 [1; 3] 3 /\
  (length [1; 3] < length [5; 2; 3])%nat.
Proof.
  split; [reflexivity|]. split; [vm_compute; reflexivity|].
  split; [simpl; unfold edge; simpl; auto 10|simpl; lia].
Qed.

(** ** C3 *)

(** C3 as stated fails for [dijkstra]: on the line 0 - 1 - 2 with weights 1
    and [max - 1] the cost of node 2 would be [max], which is not below the
    initial cost [max]; node 2 is never relaxed, its predecessor keeps the
    initial value 0, and [dijkstra(0, 2)] returns the sequence [0, 2], which
    is not joined by an edge. *)
Lemma dijkstra_path_not_walk :
  build 3 (line_edges (size_t_max - 1)) = Returned (line (size_t_max - 1)) /\
  walk (line (size_t_max - 1)) 0 [1; 2] 2 /\
  dijkstra size_t_max 6 (line (size_t_max - 1)) 0 2 = Returned (size_t_max, [0; 2]) /\
  ~ edge (line (size_t_max - 1)) 0 2.
Proof.
  split; [reflexivity|]. split; [simpl; unfold edge; simpl; auto|].
  split; [vm_compute; reflexivity|].
  unfold edge. simpl. intros [H|[]]. discriminate.
Qed.

(** C3, amended.  On a graph built by [add_edge] calls, for [src] a node and
    [dst] reachable from it, [DFS(src, dst)] and [BFS(src, dst)] return (given
    enough iterations) a sequence that starts with [src], ends with [dst] and
    whose consecutive nodes are joined by an edge; so does the path of
    [dijkstra(src, dst)] when the stored weights sum to less than
    [numeric_limits<T>::max()]. *)
Theorem returned_paths_are_walks :
  forall T_max n es g src dst,
    build n es = Returned g ->
    src < n ->
    reachable g src dst ->
    (exists rest,
        walk g src rest dst /\ last (src :: rest) src = dst /\
        exists fuel0, forall fuel, (fuel0 <= fuel)%nat ->
          DFS T_max fuel g src dst = Returned (src :: rest)) /\
    (exists rest,
        walk g src rest dst /\ last (src :: rest) src = dst /\
        exists fuel0, forall fuel, (fuel0 <= fuel)%nat ->
          BFS T_max fuel g src dst = Returned (src :: rest)) /\
    (total_weight g < T_max ->
     exists cost rest,
        walk g src rest dst /\ last (src :: rest) src = dst /\
        exists fuel0, forall fuel, (fuel0 <= fuel)%nat ->
          dijkstra T_max fuel g src dst = Returned (cost, src :: rest)).
Proof.
  intros T_max n es g src dst Hb Hsrc Hr.
  pose proof (wf_build _ _ _ Hb) as Hwf.
  rewrite <- (node_count_build _ _ _ Hb) in Hsrc.
  split; [|split].
  - destruct (traverse_reachable T_max stack_push stack_push_perm g Hwf src dst Hsrc Hr)
      as (rest & Hw & Hf).
    exists rest. split; [assumption|]. split; [now apply (walk_last g)|].
    exists (Nat.max (S (S (total_entries g))) (length rest)).
    intros fuel Hle. apply Hf; lia.
  - destruct (traverse_reachable T_max queue_push queue_push_perm g Hwf src dst Hsrc Hr)
      as (rest & Hw & Hf).
    exists rest. split; [assumption|]. split; [now apply (walk_last g)|].
    exists (Nat.max (S (S (total_entries g))) (length rest)).
    intros fuel Hle. apply Hf; lia.
  - intros Hweights.
    destruct (dijkstra_reachable T_max g Hwf Hweights src dst Hsrc Hr)
      as (steps & H1 & _ & H3).
    pose proof (wwalk_walk _ _ _ _ H1) as Hw.
    exists (weight_of steps), (map fst steps).
    split; [assumption|]. split; [now apply (walk_last g)|].
    exists (Nat.max (S (S (total_entries g))) (length steps)).
    intros fuel Hle. apply H3; lia.
Qed.

Lemma returned_paths_are_walks_witness :
  (exists rest,
      walk main_graph 0 rest 3 /\ last (0 :: rest) 0 = 3 /\
      exists fuel0, forall fuel, (fuel0 <= fuel)%nat ->
        DFS size_t_max fuel main_graph 0 3 = Returned (0 :: rest)) /\
  (exists rest,
      walk main_graph 0 rest 3 /\ last (0 :: rest) 0 = 3 /\
      exists fuel0, forall fuel, (fuel0 <= fuel)%nat ->
        BFS size_t_max fuel main_graph 0 3 = Returned (0 :: rest)) /\
  (total_weight main_graph < size_t_max ->
   exists cost rest,
      walk main_graph 0 rest 3 /\ last (0 :: rest) 0 = 3 /\
      exists fuel0, forall fuel, (fuel0 <= fuel)%nat ->
        dijkstra size_t_max fuel main_graph 0 3 = Returned (cost, 0 :: rest)).
Proof.
  apply (returned_paths_are_walks size_t_max 6 main_edges main_graph 0 3).
  - reflexivity.
  - reflexivity.
  - exists [1; 3]. simpl. unfold edge. simpl. auto 10.
Defined.

(** ** C4 *)

(** C4 as stated fails on the triangle 0 - 1 - 2.  In [DFS(0, 1)] the first
    iteration records 0 as the predecessor of 1 and the second, which visits
    2, overwrites it with 2; in [BFS(0, 2)] the first iteration records 0 as
    the predecessor of 2 and the second, which visits 1, overwrites it with
    1. *)
Lemma predecessor_overwritten :
  build 3 triangle_edges = Returned triangle /\
  (exists st1 st2,
      search_iterate stack_push 1 triangle 1
                     (search_init size_t_max stack_push triangle 0) = Returned st1 /\
      search_step stack_push triangle 1 st1 = Returned (Continue st2) /\
      at_ (path st1) 1 = Returned 0 /\ at_ (path st2) 1 = Returned 2) /\
  (exists st1 st2,
      search_iterate queue_push 1 triangle 2
                     (search_init size_t_max queue_push triangle 0) = Returned st1 /\
      search_step queue_push triangle 2 st1 = Returned (Continue st2) /\
      at_ (path st1) 2 = Returned 0 /\ at_ (path st2) 2 = Returned 1).
Proof.
  split; [reflexivity|]. split.
  - exists (mkSearch [size_t_max; 0; 0] [true; false; false] [2; 1]),
           (mkSearch [size_t_max; 2; 0] [true; false; true] [1; 1]).
    repeat split; vm_compute; reflexivity.
  - exists (mkSearch [size_t_max; 0; 0] [true; false; false] [1; 2]),
           (mkSearch [size_t_max; 0; 1] [true; true; false] [2; 2]).
    repeat split; vm_compute; reflexivity.
Qed.

(** C4, amended.  In [DFS] and [BFS] (whatever the discipline of the
    frontier), from the moment a node is marked visited it stays so and the
    predecessor recorded for it is not overwritten by any later iteration of
    the query. *)
Theorem predecessor_frozen_once_visited :
  forall T_max push g src dst k j st st' v,
    search_iterate push k g dst (search_init T_max push g src) = Returned st ->
    search_iterate push j g dst st = Returned st' ->
    at_ (visited st) v = Returned true ->
    at_ (visited st') v = Returned true /\ at_ (path st') v = at_ (path st) v.
Proof.
  intros T_max push g src dst k j st st' v _ H Hv.
  eapply search_iterate_frozen; eauto.
Qed.

Lemma predecessor_frozen_once_visited_witness :
  at_ (visited (mkSearch [size_t_max; 0; 1] [true; true; false] [2; 2])) 0
  = Returned true /\
  at_ (path (mkSearch [size_t_max; 0; 1] [true; true; false] [2; 2])) 0
  = at_ (path (mkSearch [size_t_max; 0; 0] [true; false; false] [1; 2])) 0.
Proof.
  apply (predecessor_frozen_once_visited size_t_max queue_push triangle 0 2 1 1
           (mkSearch [size_t_max; 0; 0] [true; false; false] [1; 2])
           (mkSearch [size_t_max; 0; 1] [true; true; false] [2; 2]) 0).
  - vm_compute. reflexivity.
  - vm_compute. reflexivity.
  - reflexivity.
Defined.

(** ** C5 *)

(** C5 as stated fails on the graph of two nodes without edges: [DFS(0, 1)]
    and [BFS(0, 1)] read [path] at the index [max], [dijkstra(0, 1)] returns
    the cost [max] with the sequence [0, 1], and the reconstruction loop of
    [dijkstra(1, 0)] never ends. *)
Lemma unreachable_not_reported :
  ~ reachable (Grafo_new 2) 0 1 /\
  DFS size_t_max 6 (Grafo_new 2) 0 1 = OutOfBounds /\
  BFS size_t_max 6 (Grafo_new 2) 0 1 = OutOfBounds /\
  dijkstra size_t_max 6 (Grafo_new 2) 0 1 = Returned (size_t_max, [0; 1]) /\
  forall fuel, dijkstra size_t_max fuel (Grafo_new 2) 1 0 = OutOfFuel.
Proof.
  split.
  { intros [[|x rest] H]; simpl in H; [discriminate|]. now destruct H as [[] _]. }
  split; [vm_compute; reflexivity|].
  split; [vm_compute; reflexivity|].
  split; [vm_compute; reflexivity|].
  intros fuel. destruct fuel as [|[|fuel]]; try reflexivity.
  unfold dijkstra. cbn [bind].
  change (assign (repeat size_t_max (length (adjacency_list (Grafo_new 2)))) 1 0)
    with (Returned [size_t_max; 0]). cbn [bind].
  assert (E : dijkstra_loop size_t_max 2 (Grafo_new 2) 0
                (dijkstra_init (Grafo_new 2) [size_t_max; 0] 1)
              = Returned (mkDijkstra [0; 0] [false; true] [size_t_max; 0] []))
    by (vm_compute; reflexivity).
  rewrite (dijkstra_loop_mono _ _ _ _ _ _ E (S (S fuel))) by lia. cbn [bind dj_path].
  rewrite reconstruct_self_loop; [reflexivity|discriminate|reflexivity].
Qed.

(** C5, amended.  On a graph of [n <= numeric_limits<T>::max()] nodes built by
    [add_edge] calls, for nodes [src] and [dst] with [dst] not reachable from
    [src], no query reports a failure.  The search loops end; then [DFS] and
    [BFS] read the predecessor vector outside its bounds, at the initial
    value [max] found for [dst].  [dijkstra] either does not finish its walk
    along the predecessors or returns the initial cost [max] with some
    sequence: it returns [(max, [0, dst])] when [src] is 0, and its walk never
    ends when node 0 is out of reach as well. *)
Theorem unreachable_destination :
  forall T_max n es g src dst,
    build n es = Returned g ->
    n <= T_max -> src < n -> dst < n ->
    ~ reachable g src dst ->
    forall fuel, (S (total_entries g) < fuel)%nat ->
      DFS T_max fuel g src dst = OutOfBounds /\
      BFS T_max fuel g src dst = OutOfBounds /\
      (dijkstra T_max fuel g src dst = OutOfFuel \/
       exists p, dijkstra T_max fuel g src dst = Returned (T_max, p)) /\
      (src = 0 -> dijkstra T_max fuel g src dst = Returned (T_max, [0; dst])) /\
      (~ reachable g src 0 ->
       forall fuel', dijkstra T_max fuel' g src dst = OutOfFuel).
Proof.
  intros T_max n es g src dst Hb Hn Hsrc Hdst Hun fuel Hf.
  pose proof (wf_build _ _ _ Hb) as Hwf.
  rewrite <- (node_count_build _ _ _ Hb) in Hn, Hsrc, Hdst.
  split; [|split; [|split; [|split]]].
  - apply (traverse_unreachable T_max stack_push stack_push_perm g Hwf); auto.
  - apply (traverse_unreachable T_max queue_push queue_push_perm g Hwf); auto.
  - apply dijkstra_unreachable; assumption.
  - intros H0. apply dijkstra_unreachable_from_zero; assumption.
  - intros H0 fuel'. apply dijkstra_unreachable_hangs; assumption.
Qed.

Lemma unreachable_destination_witness :
  DFS size_t_max 6 (Grafo_new 2) 0 1 = OutOfBounds /\
  BFS size_t_max 6 (Grafo_new 2) 0 1 = OutOfBounds /\
  (dijkstra size_t_max 6 (Grafo_new 2) 0 1 = OutOfFuel \/
   exists p, dijkstra size_t_max 6 (Grafo_new 2) 0 1 = Returned (size_t_max, p)) /\
  (0 = 0 -> dijkstra size_t_max 6 (Grafo_new 2) 0 1 = Returned (size_t_max, [0; 1])) /\
  (~ reachable (Grafo_new 2) 0 0 ->
   forall fuel', dijkstra size_t_max fuel' (Grafo_new 2) 0 1 = OutOfFuel).
Proof.
  apply (unreachable_destination size_t_max 2 [] (Grafo_new 2) 0 1).
  - reflexivity.
  - vm_compute. discriminate.
  - reflexivity.
  - reflexivity.
  - intros [[|x rest] H]; simpl in H; [discriminate|]. now destruct H as [[] _].
  - vm_compute. lia.
Defined.

(** ** C6 *)

(** C6 as stated fails: on the graph of [main], [dijkstra(0, 3)] returns the
    cost 26 with the path [0, 5, 2, 3], and for no number of iterations does
    it return the cost 20. *)
Lemma dijkstra_main_cost_is_not_20 :
  build 6 main_edges = Returned main_graph /\
  dijkstra size_t_max 18 main_graph 0 3 = Returned (26, [0; 5; 2; 3]) /\
  ~ (exists fuel p, dijkstra size_t_max fuel main_graph 0 3 = Returned (20, p)).
Proof.
  split; [reflexivity|].
  assert (E : dijkstra size_t_max 18 main_graph 0 3 = Returned (26, [0; 5; 2; 3]))
    by (vm_compute; reflexivity).
  split; [exact E|].
  intros (fuel & p & H).
  pose proof (dijkstra_mono _ _ _ _ _ _ H (Nat.max fuel 18) (Nat.le_max_l _ _)) as H1.
  pose proof (dijkstra_mono _ _ _ _ _ _ E (Nat.max fuel 18) (Nat.le_max_r _ _)) as H2.
  rewrite H1 in H2. discriminate.
Qed.

(** C6, amended.  On the graph of [main], [dijkstra(0, 3)] returns the cost
    26 with the path [0, 5, 2, 3] (weights 14, 1 and 11), and no walk from 0
    to 3 weighs less than 26; the walk [0, 1, 3] weighs 27. *)
Theorem dijkstra_main_result :
  build 6 main_edges = Returned main_graph /\
  (forall fuel, (18 <= fuel)%nat ->
     dijkstra size_t_max fuel main_graph 0 3 = Returned (26, [0; 5; 2; 3])) /\
  wwalk main_graph 0 [(5, 14); (2, 1); (3, 11)] 3 /\
  wwalk main_graph 0 [(1, 7); (3, 20)] 3 /\
  (forall steps, wwalk main_graph 0 steps 3 -> 26 <= weight_of steps).
Proof.
  assert (E : dijkstra size_t_max 18 main_graph 0 3 = Returned (26, [0; 5; 2; 3]))
    by (vm_compute; reflexivity).
  split; [reflexivity|]. split; [|split; [|split]].
  - intros fuel Hf. eapply dijkstra_mono; eauto.
  - simpl. auto 10.
  - simpl. auto 10.
  - destruct (dijkstra_reachable size_t_max main_graph (wf_build _ _ _ main_graph_built)
                (eq_refl : total_weight main_graph < size_t_max) 0 3 eq_refl)
      as (steps0 & _ & Hopt & Hf).
    { exists [1; 3]. simpl. unfold edge. simpl. auto 10. }
    specialize (Hf (Nat.max 18 (length steps0))).
    rewrite (dijkstra_mono _ _ _ _ _ _ E (Nat.max 18 (length steps0))) in Hf by lia.
    assert (Hw : weight_of steps0 = 26).
    { assert (H : Returned (26, [0; 5; 2; 3])
                  = Returned (weight_of steps0, 0 :: map fst steps0)).
      { apply Hf; [change (total_entries main_graph) with 16%nat; lia|lia]. }
      now injection H. }
    intros steps Hs. rewrite <- Hw. now apply Hopt.
Qed.

Lemma dijkstra_main_result_witness :
  dijkstra size_t_max 18 main_graph 0 3 = Returned (26, [0; 5; 2; 3]) /\
  26 <= weight_of [(1, 7); (3, 20)].
Proof.
  destruct dijkstra_main_result as (_ & Hfuel & _ & Hwalk & Hopt).
  split.
  - apply Hfuel. apply le_n.
  - apply Hopt. exact Hwalk.
Defined.

(** ** C8 *)

(** C8 as stated fails: on a graph of one node, 5 is not a node id and yet
    [DFS(5, 5)] and [BFS(5, 5)] return [5]. *)
Lemma out_of_range_id_accepted :
  node_count (Grafo_new 1) = 1 /\
  DFS size_t_max 6 (Grafo_new 1) 5 5 = Returned [5] /\
  BFS size_t_max 6 (Grafo_new 1) 5 5 = Returned [5].
Proof. repeat split. Qed.

(** C8, amended.  No operation checks its node ids.  On a graph of [n] nodes
    built by [add_edge] calls: [add_edge] succeeds when both ids are below [n]
    and otherwise indexes a vector outside its bounds; [dijkstra] does so when
    [src] is not below [n], [DFS] and [BFS] when [src] is not below [n] and
    differs from [dst]; the three do so when [src] is a node and [dst] is not
    below [n]; and [DFS(s, s)] and [BFS(s, s)] return [s] for every [s]. *)
Theorem node_ids_are_not_checked :
  forall T_max n es g,
    build n es = Returned g ->
    (forall a b w, a < n -> b < n -> exists g', add_edge g a b w = Returned g') /\
    (forall a b w, ~ (a < n /\ b < n) -> add_edge g a b w = OutOfBounds) /\
    (forall fuel src dst, n <= src -> dijkstra T_max fuel g src dst = OutOfBounds) /\
    (forall fuel src dst, (1 <= fuel)%nat -> n <= src -> src <> dst ->
       DFS T_max fuel g src dst = OutOfBounds /\
       BFS T_max fuel g src dst = OutOfBounds) /\
    (forall fuel src dst, (S (total_entries g) < fuel)%nat -> src < n -> n <= dst ->
       DFS T_max fuel g src dst = OutOfBounds /\
       BFS T_max fuel g src dst = OutOfBounds /\
       dijkstra T_max fuel g src dst = OutOfBounds) /\
    (forall fuel s, (1 <= fuel)%nat ->
       DFS T_max fuel g s s = Returned [s] /\ BFS T_max fuel g s s = Returned [s]).
Proof.
  intros T_max n es g Hb.
  pose proof (wf_build _ _ _ Hb) as Hwf.
  pose proof (node_count_build _ _ _ Hb) as Hn. subst n.
  assert (Hlen : length (weights g) = length (adjacency_list g)) by apply Hwf.
  split; [|split; [|split; [|split; [|split]]]].
  - intros a b w Ha Hb'. now apply add_edge_in_range.
  - intros a b w H. now apply add_edge_out_of_range.
  - intros fuel src dst H. now apply dijkstra_src_out_of_range.
  - intros fuel src dst Hf Hsrc Hne. split.
    + now apply (traverse_src_out_of_range T_max stack_push stack_push_perm).
    + now apply (traverse_src_out_of_range T_max queue_push queue_push_perm).
  - intros fuel src dst Hf Hsrc Hdst.
    assert (Hun : ~ reachable g src dst).
    { intros Hr. pose proof (reachable_in_range _ _ _ Hwf Hsrc Hr). lia. }
    split; [|split].
    + apply (traverse_unreachable T_max stack_push stack_push_perm g Hwf); auto.
    + apply (traverse_unreachable T_max queue_push queue_push_perm g Hwf); auto.
    + now apply dijkstra_dst_out_of_range.
  - intros fuel s Hf. split.
    + now apply (traverse_same T_max stack_push stack_push_perm).
    + now apply (traverse_same T_max queue_push queue_push_perm).
Qed.

Lemma node_ids_are_not_checked_witness :
  (exists g', add_edge main_graph 0 3 4 = Returned g') /\
  add_edge main_graph 0 6 4 = OutOfBounds /\
  dijkstra size_t_max 18 main_graph 6 0 = OutOfBounds /\
  DFS size_t_max 18 main_graph 6 0 = OutOfBounds /\
  BFS size_t_max 18 main_graph 0 6 = OutOfBounds /\
  DFS size_t_max 18 main_graph 6 6 = Returned [6].
Proof.
  destruct (node_ids_are_not_checked size_t_max 6 main_edges main_graph eq_refl)
    as (H1 & H2 & H3 & H4 & H5 & H6).
  split; [|split; [|split; [|split; [|split]]]].
  - apply H1; reflexivity.
  - apply H2. intros [_ H]. discriminate H.
  - apply H3. discriminate.
  - apply (H4 18%nat 6 0); [vm_compute; lia|discriminate|discriminate].
  - apply (H5 18%nat 0 6); [vm_compute; lia|reflexivity|discriminate].
  - apply (H6 18%nat 6). vm_compute; lia.
Defined.

(** ** C9 *)

Lemma search_loop_exit T_max g src dst st :
  search_post T_max g src dst st -> to_visit st = [] \/ reachable g src dst.
Proof.
  intros [[rest H]|[_ H]]; [right|now left].
  exists rest. eapply chain_walk; eauto.
Qed.

(** C9.  On a graph built by [add_edge] calls and for [src] a node, whatever
    [dst] is, the [while] loop of [DFS], of [BFS] and of [dijkstra] ends
    without reading outside a vector as soon as it is allowed more than
    [1 + total_entries g] evaluations of its condition: one for the entry of
    [src] and one for each entry pushed when a node is marked visited, of
    which there are at most as many as adjacency entries in the graph.  The
    loop is left with an empty frontier, or by [break] when [dst] is
    reachable. *)
Theorem search_loops_terminate :
  forall T_max n es g src dst,
    build n es = Returned g ->
    src < n ->
    forall fuel, (S (total_entries g) < fuel)%nat ->
      (exists st,
          search_loop stack_push fuel g dst (search_init T_max stack_push g src)
          = Returned st /\
          (to_visit st = [] \/ reachable g src dst)) /\
      (exists st,
          search_loop queue_push fuel g dst (search_init T_max queue_push g src)
          = Returned st /\
          (to_visit st = [] \/ reachable g src dst)) /\
      (exists cst0 st,
          assign (repeat T_max (length (adjacency_list g))) src 0 = Returned cst0 /\
          dijkstra_loop T_max fuel g dst (dijkstra_init g cst0 src) = Returned st /\
          (priority_queue st = [] \/ reachable g src dst)).
Proof.
  intros T_max n es g src dst Hb Hsrc fuel Hf.
  pose proof (wf_build _ _ _ Hb) as Hwf.
  rewrite <- (node_count_build _ _ _ Hb) in Hsrc.
  split; [|split].
  - destruct (search_loop_total T_max stack_push stack_push_perm g Hwf src dst fuel
                (search_init T_max stack_push g src)) as (st & E & Hpost).
    + now apply (search_init_inv T_max stack_push stack_push_perm).
    + rewrite (search_init_measure T_max stack_push stack_push_perm). lia.
    + exists st. split; [assumption|]. eapply search_loop_exit; eauto.
  - destruct (search_loop_total T_max queue_push queue_push_perm g Hwf src dst fuel
                (search_init T_max queue_push g src)) as (st & E & Hpost).
    + now apply (search_init_inv T_max queue_push queue_push_perm).
    + rewrite (search_init_measure T_max queue_push queue_push_perm). lia.
    + exists st. split; [assumption|]. eapply search_loop_exit; eauto.
  - destruct (assign_in_range (repeat T_max (length (adjacency_list g))) 0 src)
      as [cst0 Hc0].
    { now rewrite vsize_repeat. }
    destruct (dijkstra_loop_safe T_max g Hwf src dst fuel _
                (dijkstra_init_safe T_max g src cst0 Hsrc Hc0)) as (st & E & _ & Hexit).
    { rewrite dijkstra_init_measure. lia. }
    eauto.
Qed.

Lemma search_loops_terminate_witness :
  (exists st,
      search_loop stack_push 18 main_graph 3 (search_init size_t_max stack_push main_graph 0)
      = Returned st /\
      (to_visit st = [] \/ reachable main_graph 0 3)) /\
  (exists st,
      search_loop queue_push 18 main_graph 3 (search_init size_t_max queue_push main_graph 0)
      = Returned st /\
      (to_visit st = [] \/ reachable main_graph 0 3)) /\
  (exists cst0 st,
      assign (repeat size_t_max (length (adjacency_list main_graph))) 0 0 = Returned cst0 /\
      dijkstra_loop size_t_max 18 main_graph 3 (dijkstra_init main_graph cst0 0)
      = Returned st /\
      (priority_queue st = [] \/ reachable main_graph 0 3)).
Proof.
  apply (search_loops_terminate size_t_max 6 main_edges main_graph 0 3).
  - reflexivity.
  - reflexivity.
  - vm_compute. lia.
Defined.

(** ** C10 *)

(** C10.  When two graphs are built by the same sequence of [add_edge] calls
    but for the weight arguments, [DFS] and [BFS] give the same outcome on
    both, for every query and every number of iterations allowed. *)
Theorem search_ignores_weights :
  forall T_max n es1 es2 g1 g2,
    map fst es1 = map fst es2 ->
    build n es1 = Returned g1 ->
    build n es2 = Returned g2 ->
    forall fuel src dst,
      DFS T_max fuel g1 src dst = DFS T_max fuel g2 src dst /\
      BFS T_max fuel g1 src dst = BFS T_max fuel g2 src dst.
Proof.
  intros T_max n es1 es2 g1 g2 Hmap H1 H2 fuel src dst.
  assert (Hadj : adjacency_list g1 = adjacency_list g2).
  { eapply (add_edges_adjacency es1 es2 (Grafo_new n) (Grafo_new n)); eauto. }
  split; apply traverse_adjacency; assumption.
Qed.

Lemma search_ignores_weights_witness :
  DFS size_t_max 6 (line 5) 0 2 = DFS size_t_max 6 (line 9) 0 2 /\
  BFS size_t_max 6 (line 5) 0 2 = BFS size_t_max 6 (line 9) 0 2.
Proof.
  apply (search_ignores_weights size_t_max 3 (line_edges 5) (line_edges 9)
           (line 5) (line 9)).
  - reflexivity.
  - reflexivity.
  - reflexivity.
Defined.

(** ** Further properties *)

(** [dijkstra(src, src)] returns the cost 0 and the path [src], for every node
    [src] of a graph built by [add_edge] calls. *)
Theorem dijkstra_same_node :
  forall T_max n es g src fuel,
    build n es = Returned g ->
    src < n ->
    (1 <= fuel)%nat ->
    dijkstra T_max fuel g src src = Returned (0, [src]).
Proof.
  intros T_max n es g src fuel Hb Hsrc Hf.
  rewrite <- (node_count_build _ _ _ Hb) in Hsrc.
  unfold dijkstra.
  destruct (assign_in_range (repeat T_max (length (adjacency_list g))) 0 src)
    as [cst0 Hc0].
  { now rewrite vsize_repeat. }
  rewrite Hc0. cbn [bind].
  destruct fuel as [|fuel]; [lia|].
  cbn [dijkstra_loop]. unfold dijkstra_step, dijkstra_init.
  cbn [priority_queue pq_push pq_pop pq_least pq_remove].
  assert (E : pair_eqb (0, src) (0, src) = true) by now apply pair_eqb_eq.
  rewrite E, N.eqb_refl. cbn [bind dj_path costs reconstruct].
  rewrite N.eqb_refl. cbn [bind].
  now rewrite (at_assign_same _ _ _ _ Hc0).
Qed.

Lemma dijkstra_same_node_witness :
  dijkstra size_t_max 1 main_graph 4 4 = Returned (0, [4]).
Proof.
  apply (dijkstra_same_node size_t_max 6 main_edges main_graph 4 1%nat).
  - reflexivity.
  - reflexivity.
  - apply le_n.
Defined.

(** [add_edge(a, b, w)] only appends: on a graph built by [add_edge] calls it
    adds [(b, w)] at the end of the adjacency sequence of [a], then [(a, w)]
    at the end of that of [b], and leaves every other entry where it was;
    nothing is deduplicated. *)
Theorem add_edge_appends :
  forall n es g a b w g',
    build n es = Returned g ->
    add_edge g a b w = Returned g' ->
    forall u, entries g' u =
              (entries g u ++ (if u =? a then [(b, w)] else []))
                ++ (if u =? b then [(a, w)] else []).
Proof.
  intros n es g a b w g' Hb H. apply entries_add_edge; [|assumption].
  eapply wf_build; eauto.
Qed.

Lemma add_edge_appends_witness :
  entries (mkGrafo [[1; 1]; [0; 0]] [[7; 7]; [7; 7]]) 0
  = (entries (mkGrafo [[1]; [0]] [[7]; [7]]) 0 ++ (if 0 =? 0 then [(1, 7)] else []))
      ++ (if 0 =? 1 then [(0, 7)] else []).
Proof.
  apply (add_edge_appends 2 [(0, 1, 7)] (mkGrafo [[1]; [0]] [[7]; [7]]) 0 1 7
           (mkGrafo [[1; 1]; [0; 0]] [[7; 7]; [7; 7]])).
  - reflexivity.
  - reflexivity.
Defined.

(** *** What a built graph holds *)

Lemma at_repeat_nil (n : nat) (u : N) : row_of (repeat (@nil N) n) u = [].
Proof.
  unfold row_of. destruct (at_ (repeat [] n) u) as [r| |] eqn:E; try reflexivity.
  apply at_In in E. now apply repeat_spec in E.
Qed.

Lemma entries_new n u : entries (Grafo_new n) u = [].
Proof. unfold entries, Grafo_new. cbn [adjacency_list]. now rewrite at_repeat_nil. Qed.

Lemma entries_add_edges_only es : forall g g' u v w,
  wf g -> add_edges g es = Returned g' ->
  (In (v, w) (entries g' u) <->
   In (v, w) (entries g u) \/ In (u, v, w) es \/ In (v, u, w) es).
Proof.
  induction es as [|[[a b] w0] es IH]; cbn [add_edges]; intros g g' u v w Hwf H.
  - injection H as <-. cbn [In]. tauto.
  - inv_bind H. pose proof (wf_add_edge _ _ _ _ _ Hwf E) as Hwf'.
    rewrite (IH _ _ u v w Hwf' H).
    rewrite (entries_add_edge _ _ _ _ _ Hwf E u). rewrite !in_app_iff.
    cbn [In].
    destruct (N.eqb_spec u a) as [Ha|Ha], (N.eqb_spec u b) as [Hb|Hb];
      cbn [In]; split;
      intros H0; repeat match goal with
        | H : _ \/ _ |- _ => destruct H
        | H : False |- _ => destruct H
        | H : (_, _) = (_, _) |- _ => injection H as; subst
        end; try congruence; auto 10.
Qed.

Lemma assign_list_sum {A : Type} (f : A -> nat) (v : list A) : forall i a v' old,
  at_ v i = Returned old -> assign v i a = Returned v' ->
  (list_sum (map f v') + f old = list_sum (map f v) + f a)%nat.
Proof.
  induction v as [|y v IH]; cbn [at_ assign]; intros i a v' old Hat Has;
    [discriminate|].
  destruct (i =? 0).
  - injection Hat as <-. injection Has as <-. cbn [map list_sum fold_right]. lia.
  - inv_bind Has. injection Has as <-. cbn [map list_sum fold_right].
    specialize (IH _ _ _ _ Hat E). unfold list_sum in IH. lia.
Qed.

Lemma assign_sumN {A : Type} (f : A -> N) (v : list A) : forall i a v' old,
  at_ v i = Returned old -> assign v i a = Returned v' ->
  sumN (map f v') + f old = sumN (map f v) + f a.
Proof.
  induction v as [|y v IH]; cbn [at_ assign]; intros i a v' old Hat Has;
    [discriminate|].
  destruct (i =? 0).
  - injection Hat as <-. injection Has as <-. cbn [map sumN fold_right]. lia.
  - inv_bind Has. injection Has as <-. cbn [map sumN fold_right].
    specialize (IH _ _ _ _ Hat E). unfold sumN in IH. lia.
Qed.

Lemma sumN_app l1 l2 : sumN (l1 ++ l2) = sumN l1 + sumN l2.
Proof.
  unfold sumN. induction l1 as [|x l1 IH]; cbn [app fold_right]; [reflexivity|].
  rewrite IH. lia.
Qed.

Lemma push_back_at_count vv i x vv' :
  push_back_at vv i x = Returned vv' ->
  list_sum (map (@length N) vv') = S (list_sum (map (@length N) vv)).
Proof.
  unfold push_back_at. intros H. inv_bind H.
  pose proof (assign_list_sum (@length N) _ _ _ _ _ E H) as Hs.
  rewrite length_app in Hs. cbn [length] in Hs. lia.
Qed.

Lemma push_back_at_weight vv i x vv' :
  push_back_at vv i x = Returned vv' ->
  sumN (map sumN vv') = sumN (map sumN vv) + x.
Proof.
  unfold push_back_at. intros H. inv_bind H.
  pose proof (assign_sumN sumN _ _ _ _ _ E H) as Hs.
  rewrite sumN_app in Hs. cbn in Hs. lia.
Qed.

Lemma add_edge_totals g a b w g' :
  add_edge g a b w = Returned g' ->
  total_entries g' = S (S (total_entries g)) /\
  total_weight g' = total_weight g + 2 * w.
Proof.
  unfold add_edge. intros H.
  inv_bind H. inv_bind H. inv_bind H. inv_bind H. injection H as <-.
  unfold total_entries, total_weight. cbn [adjacency_list weights].
  rewrite (push_back_at_count _ _ _ _ E0), (push_back_at_count _ _ _ _ E).
  rewrite (push_back_at_weight _ _ _ _ E2), (push_back_at_weight _ _ _ _ E1).
  split; [reflexivity|lia].
Qed.

Lemma add_edges_totals es : forall g g',
  add_edges g es = Returned g' ->
  total_entries g' = (total_entries g + 2 * length es)%nat /\
  total_weight g' = total_weight g + 2 * sumN (map snd es).
Proof.
  induction es as [|[[a b] w] es IH]; cbn [add_edges]; intros g g' H.
  - injection H as <-. cbn. split; lia.
  - inv_bind H. destruct (add_edge_totals _ _ _ _ _ E) as [H1 H2].
    destruct (IH _ _ H) as [H3 H4]. rewrite H3, H4, H1, H2.
    cbn [length map snd sumN fold_right]. unfold sumN. split; lia.
Qed.

Lemma totals_new n : total_entries (Grafo_new n) = 0%nat /\ total_weight (Grafo_new n) = 0.
Proof.
  unfold total_entries, total_weight, Grafo_new. cbn [adjacency_list weights].
  induction (N.to_nat n) as [|k [IH1 IH2]]; [split; reflexivity|].
  unfold sumN, list_sum in *. cbn [repeat map fold_right length].
  rewrite IH1, IH2. split; reflexivity.
Qed.

(** The graph left by [Grafo(n)] and a sequence of [add_edge] calls has [n]
    nodes and holds exactly the inserted edges, each in both directions:
    [(v, w)] is an entry of the adjacency sequence of [u] if and only if
    [add_edge(u, v, w)] or [add_edge(v, u, w)] was called; the number of
    entries is twice the number of calls and the stored weights sum to twice
    the sum of the weights passed. *)
Theorem built_graph_contents :
  forall n es g,
    build n es = Returned g ->
    node_count g = n /\
    (forall u v w,
       In (v, w) (entries g u) <-> In (u, v, w) es \/ In (v, u, w) es) /\
    total_entries g = (2 * length es)%nat /\
    total_weight g = 2 * sumN (map snd es).
Proof.
  intros n es g Hb. split; [eapply node_count_build; eauto|]. split.
  - intros u v w.
    rewrite (entries_add_edges_only es _ _ u v w (wf_new n) Hb).
    rewrite entries_new. cbn [In]. tauto.
  - destruct (add_edges_totals _ _ _ Hb) as [H1 H2].
    destruct (totals_new n) as [H3 H4]. rewrite H1, H2, H3, H4. split; lia.
Qed.

Lemma built_graph_contents_witness :
  node_count main_graph = 6 /\
  (forall u v w,
     In (v, w) (entries main_graph u)
     <-> In (u, v, w) main_edges \/ In (v, u, w) main_edges) /\
  total_entries main_graph = (2 * length main_edges)%nat /\
  total_weight main_graph = 2 * sumN (map snd main_edges).
Proof.
  apply (built_graph_contents 6 main_edges main_graph). reflexivity.
Defined.

(** *** The returned path has no repeated node *)

Lemma reconstruct_acc pth src : forall fuel node acc,
  reconstruct fuel pth src node acc
  = pre <- reconstruct fuel pth src node [] ;; Returned (pre ++ acc).
Proof.
  induction fuel as [|fuel IH]; intros node acc; cbn [reconstruct].
  - destruct (node =? src); reflexivity.
  - destruct (node =? src); [reflexivity|].
    destruct (at_ pth node) as [prev| |]; cbn [bind]; try reflexivity.
    rewrite (IH prev (node :: acc)), (IH prev [node]).
    destruct (reconstruct fuel pth src prev []); cbn [bind]; try reflexivity.
    now rewrite <- app_assoc.
Qed.

Lemma reconstruct_member pth src : forall fuel node pre x,
  reconstruct fuel pth src node [] = Returned pre -> In x pre ->
  exists fuel' pre',
    (fuel' <= fuel)%nat /\ reconstruct fuel' pth src x [] = Returned pre' /\
    (length pre' <= length pre)%nat.
Proof.
  induction fuel as [|fuel IH]; intros node pre x H Hx; cbn [reconstruct] in H.
  - destruct (N.eqb_spec node src) as [->|]; [|discriminate].
    injection H as <-. destruct Hx as [<-|[]].
    exists 0%nat, [src]. cbn [reconstruct]. rewrite N.eqb_refl. auto.
  - destruct (N.eqb_spec node src) as [->|Hne].
    + injection H as <-. destruct Hx as [<-|[]].
      exists 0%nat, [src]. cbn [reconstruct]. rewrite N.eqb_refl.
      split; [lia|]. auto.
    + destruct (at_ pth node) as [prev| |] eqn:Hprev; cbn [bind] in H;
        try discriminate.
      pose proof H as H'. rewrite reconstruct_acc in H'.
      destruct (reconstruct fuel pth src prev []) as [pre0| |] eqn:E0;
        cbn [bind] in H'; try discriminate.
      injection H' as <-. apply in_app_or in Hx. destruct Hx as [Hx|[<-|[]]].
      * destruct (IH _ _ _ E0 Hx) as (fuel' & pre' & Hle & Hr & Hlen).
        exists fuel', pre'. rewrite length_app. split; [lia|]. split; [assumption|lia].
      * exists (S fuel), (pre0 ++ [node]). split; [lia|]. split; [|lia].
        cbn [reconstruct]. destruct (N.eqb_spec node src); [contradiction|].
        rewrite Hprev. exact H.
Qed.

Lemma reconstruct_NoDup pth src : forall fuel node pre,
  reconstruct fuel pth src node [] = Returned pre -> NoDup pre.
Proof.
  induction fuel as [|fuel IH]; intros node pre H; pose proof H as H0;
    cbn [reconstruct] in H.
  - destruct (node =? src); [|discriminate]. injection H as <-.
    constructor; [intros []|constructor].
  - destruct (N.eqb_spec node src) as [->|Hne].
    + injection H as <-. constructor; [intros []|constructor].
    + destruct (at_ pth node) as [prev| |] eqn:Hprev; cbn [bind] in H;
        try discriminate.
      rewrite reconstruct_acc in H.
      destruct (reconstruct fuel pth src prev []) as [pre0| |] eqn:E0;
        cbn [bind] in H; try discriminate.
      injection H as <-.
      apply (Permutation_NoDup (l := node :: pre0)).
      { change (node :: pre0) with ([node] ++ pre0). apply Permutation_app_comm. }
      constructor; [|eapply IH; eauto].
      intros Hin.
      destruct (reconstruct_member _ _ _ _ _ _ E0 Hin) as (fuel' & pre' & Hle & Hr & Hlen).
      rewrite (reconstruct_mono _ _ _ _ _ _ Hr (S fuel)) in H0 by lia.
      injection H0 as ->. rewrite length_app in Hlen. cbn [length] in Hlen. lia.
Qed.

(** The path returned by [DFS], [BFS] or [dijkstra] never holds a node
    twice, whatever the graph and the arguments: the loop that rebuilds it
    follows the recorded predecessors from [dst] and stops at [src]. *)
Theorem returned_path_no_repeat :
  forall T_max fuel g src dst p,
    DFS T_max fuel g src dst = Returned p \/
    BFS T_max fuel g src dst = Returned p \/
    (exists c, dijkstra T_max fuel g src dst = Returned (c, p)) ->
    NoDup p.
Proof.
  intros T_max fuel g src dst p [H|[H|[c H]]].
  - unfold DFS, traverse in H. inv_bind H. eapply reconstruct_NoDup; eauto.
  - unfold BFS, traverse in H. inv_bind H. eapply reconstruct_NoDup; eauto.
  - unfold dijkstra in H. inv_bind H. inv_bind H. inv_bind H. inv_bind H.
    injection H as _ <-. eapply reconstruct_NoDup; eauto.
Qed.

Lemma returned_path_no_repeat_witness : NoDup [0; 5; 2; 3].
Proof.
  apply (returned_path_no_repeat size_t_max 18 main_graph 0 3 [0; 5; 2; 3]).
  right. left. vm_compute. reflexivity.
Defined.

(** *** Costs in the two directions *)

Lemma built_entries_symmetric n es g u v w :
  build n es = Returned g -> In (v, w) (entries g u) -> In (u, w) (entries g v).
Proof.
  intros Hb H.
  rewrite (entries_add_edges_only es _ _ u v w (wf_new n) Hb) in H.
  rewrite (entries_add_edges_only es _ _ v u w (wf_new n) Hb).
  rewrite entries_new in *. cbn [In] in *. tauto.
Qed.

Lemma wwalk_reverse n es g :
  build n es = Returned g ->
  forall steps u v, wwalk g u steps v ->
    exists steps', wwalk g v steps' u /\ weight_of steps' = weight_of steps.
Proof.
  intros Hb. induction steps as [|[x w] steps IH]; cbn [wwalk fst]; intros u v H.
  - exists []. split; [now symmetry|reflexivity].
  - destruct H as [He H]. destruct (IH _ _ H) as (steps' & Hs & Hw).
    exists (steps' ++ [(u, w)]). split.
    + eapply wwalk_app; [eassumption|]. cbn [wwalk fst]. split; [|reflexivity].
      eapply built_entries_symmetric; eauto.
    + rewrite weight_of_app, Hw, !weight_of_cons. cbn [snd].
      change (weight_of []) with 0. lia.
Qed.

(** On a graph built by [add_edge] calls whose stored weights sum to less
    than [numeric_limits<T>::max()], [dijkstra(a, b)] and [dijkstra(b, a)]
    return the same cost, for [a] a node and [b] reachable from it. *)
Theorem dijkstra_cost_symmetric :
  forall T_max n es g a b,
    build n es = Returned g ->
    total_weight g < T_max ->
    a < n ->
    reachable g a b ->
    exists c p q fuel0, forall fuel, (fuel0 <= fuel)%nat ->
      dijkstra T_max fuel g a b = Returned (c, p) /\
      dijkstra T_max fuel g b a = Returned (c, q).
Proof.
  intros T_max n es g a b Hb Hw Ha Hr.
  pose proof (wf_build _ _ _ Hb) as Hwf.
  rewrite <- (node_count_build _ _ _ Hb) in Ha.
  assert (Hbn : b < node_count g) by (eapply reachable_in_range; eauto).
  destruct (dijkstra_reachable T_max g Hwf Hw a b Ha Hr) as (s1 & W1 & M1 & D1).
  destruct (wwalk_reverse _ _ _ Hb _ _ _ W1) as (s1' & W1' & E1).
  assert (Hr' : reachable g b a) by (eexists; eapply wwalk_walk; eauto).
  destruct (dijkstra_reachable T_max g Hwf Hw b a Hbn Hr') as (s2 & W2 & M2 & D2).
  destruct (wwalk_reverse _ _ _ Hb _ _ _ W2) as (s2' & W2' & E2).
  assert (Hc : weight_of s2 = weight_of s1).
  { pose proof (M1 _ W2'). pose proof (M2 _ W1'). lia. }
  exists (weight_of s1), (a :: map fst s1), (b :: map fst s2),
    (Nat.max (S (S (total_entries g))) (Nat.max (length s1) (length s2))).
  intros fuel Hf. split.
  - apply D1; lia.
  - rewrite <- Hc. apply D2; lia.
Qed.

Lemma dijkstra_cost_symmetric_witness :
  exists c p q fuel0, forall fuel, (fuel0 <= fuel)%nat ->
    dijkstra size_t_max fuel main_graph 0 3 = Returned (c, p) /\
    dijkstra size_t_max fuel main_graph 3 0 = Returned (c, q).
Proof.
  apply (dijkstra_cost_symmetric size_t_max 6 main_edges main_graph 0 3).
  - reflexivity.
  - reflexivity.
  - reflexivity.
  - exists [1; 3]. simpl. unfold edge. simpl. auto 10.
Defined.

(** * Properties of the segment tree *)

(** ** Index arithmetic *)

Lemma sz_small z : z < size_t_card -> sz z = z.
Proof. intros H. unfold sz. now apply N.mod_small. Qed.

Lemma sz_sub_small a b : b <= a -> a < size_t_card -> sz_sub a b = a - b.
Proof.
  intros Hle Hlt. unfold sz_sub.
  replace (a + size_t_card - b) with (a - b + 1 * size_t_card) by lia.
  rewrite N.Div0.mod_add. apply N.mod_small. lia.
Qed.

Lemma mid_of_small l r :
  l <= r -> r < size_t_card -> mid_of l r = l + (r - l) / 2.
Proof.
  intros Hle Hlt. unfold mid_of. rewrite sz_sub_small by assumption.
  apply sz_small.
  assert ((r - l) / 2 <= r - l) by (apply N.Div0.div_le_upper_bound; lia).
  lia.
Qed.

Lemma half_bounds d : 2 * (d / 2) <= d /\ d <= 2 * (d / 2) + 1.
Proof.
  assert (H2 : 2 <> 0) by discriminate.
  pose proof (N.div_mod d 2 H2) as H. pose proof (N.mod_lt d 2 H2) as H'.
  pose proof (N.le_0_l (d mod 2)) as H0. lia.
Qed.

Lemma mid_between l r :
  l < r -> l <= l + (r - l) / 2 /\ l + (r - l) / 2 < r.
Proof. intros H. pose proof (half_bounds (r - l)). lia. Qed.

(** ** Arithmetic of [T] *)

Section TArith.

Variables T_min T_card : Z.
Hypothesis T_card_pos : (0 < T_card)%Z.

Lemma T_wrap_value z : T_value T_min T_card (T_wrap T_min T_card z).
Proof.
  unfold T_value, T_wrap. pose proof (Z.mod_pos_bound (z - T_min) T_card T_card_pos).
  lia.
Qed.

Lemma T_wrap_id z : T_value T_min T_card z -> T_wrap T_min T_card z = z.
Proof.
  unfold T_value, T_wrap. intros H. rewrite Z.mod_small by lia. lia.
Qed.

Lemma T_wrap_add_l a b :
  T_wrap T_min T_card (T_wrap T_min T_card a + b) = T_wrap T_min T_card (a + b).
Proof.
  unfold T_wrap. f_equal.
  replace (T_min + (a - T_min) mod T_card + b - T_min)%Z
    with ((a - T_min) mod T_card + b)%Z by lia.
  rewrite Zplus_mod_idemp_l. f_equal. lia.
Qed.

Lemma T_wrap_add_r a b :
  T_wrap T_min T_card (a + T_wrap T_min T_card b) = T_wrap T_min T_card (a + b).
Proof. rewrite Z.add_comm, T_wrap_add_l. f_equal. lia. Qed.

Lemma T_plus_wrap a b :
  T_plus T_min T_card (T_wrap T_min T_card a) (T_wrap T_min T_card b)
  = T_wrap T_min T_card (a + b).
Proof. unfold T_plus. now rewrite T_wrap_add_l, T_wrap_add_r. Qed.

End TArith.

(** ** Sums of a part of the array *)

Lemma sum_between_ext a : forall i lo hi lo' hi',
  (forall x, i <= x -> x < i + vsize a -> inb lo hi x = inb lo' hi' x) ->
  sum_between a i lo hi = sum_between a i lo' hi'.
Proof.
  induction a as [|y a IH]; intros i lo hi lo' hi' H; [reflexivity|].
  rewrite vsize_cons in H. simpl. fold (inb lo hi i). fold (inb lo' hi' i).
  rewrite (H i) by lia. f_equal. apply IH. intros x H1 H2. apply H; lia.
Qed.

Lemma sum_between_add a : forall i lo hi lo1 hi1 lo2 hi2,
  (forall x, inb lo hi x = inb lo1 hi1 x || inb lo2 hi2 x) ->
  (forall x, inb lo1 hi1 x && inb lo2 hi2 x = false) ->
  sum_between a i lo hi
  = (sum_between a i lo1 hi1 + sum_between a i lo2 hi2)%Z.
Proof.
  induction a as [|y a IH]; intros i lo hi lo1 hi1 lo2 hi2 H1 H2; [reflexivity|].
  simpl. fold (inb lo hi i). fold (inb lo1 hi1 i). fold (inb lo2 hi2 i).
  rewrite (IH (N.succ i) lo hi lo1 hi1 lo2 hi2 H1 H2), (H1 i).
  specialize (H2 i). destruct (inb lo1 hi1 i), (inb lo2 hi2 i); simpl in *;
    try discriminate; lia.
Qed.

Lemma sum_between_none a : forall i lo hi,
  (forall x, i <= x -> x < i + vsize a -> inb lo hi x = false) ->
  sum_between a i lo hi = 0%Z.
Proof.
  induction a as [|y a IH]; intros i lo hi H; [reflexivity|].
  rewrite vsize_cons in H. simpl. fold (inb lo hi i).
  rewrite (H i) by lia. rewrite IH; [reflexivity|].
  intros x H1 H2. apply H; lia.
Qed.

Lemma sum_between_single a : forall i x v,
  at_ a x = Returned v -> sum_between a i (i + x) (i + x) = v.
Proof.
  induction a as [|y a IH]; intros i x v H; [discriminate|].
  simpl in H. simpl. fold (inb (i + x) (i + x) i).
  destruct (N.eqb_spec x 0) as [->|Hne].
  - injection H as ->. unfold inb. rewrite N.add_0_r, N.leb_refl. simpl.
    rewrite sum_between_none; [lia|].
    intros z H1 H2. unfold inb. destruct (N.leb_spec z i); [lia|].
    now rewrite andb_false_r.
  - replace (i + x) with (N.succ i + N.pred x) by lia.
    rewrite (IH (N.succ i) (N.pred x) v H).
    unfold inb. destruct (N.leb_spec (N.succ i + N.pred x) i); [lia|]. simpl. lia.
Qed.

Lemma sum_between_assign a : forall i idx v a' old lo hi,
  at_ a idx = Returned old ->
  assign a idx v = Returned a' ->
  sum_between a' i lo hi
  = (sum_between a i lo hi + (if inb lo hi (i + idx) then v - old else 0))%Z.
Proof.
  induction a as [|y a IH]; intros i idx v a' old lo hi Hold Has; [discriminate|].
  simpl in Hold, Has.
  destruct (N.eqb_spec idx 0) as [->|Hne].
  - injection Hold as ->. injection Has as <-. simpl.
    rewrite N.add_0_r. fold (inb lo hi i). destruct (inb lo hi i); lia.
  - inv_bind Has. injection Has as <-. simpl. fold (inb lo hi i).
    rewrite (IH (N.succ i) (N.pred idx) v x old lo hi Hold E).
    replace (N.succ i + N.pred idx) with (i + idx) by lia. lia.
Qed.

Lemma range_sum_single a x v : at_ a x = Returned v -> range_sum a x x = v.
Proof. intros H. unfold range_sum. now apply (sum_between_single a 0 x v). Qed.

Lemma range_sum_split a lo hi m m' :
  m' = m + 1 ->
  range_sum a lo hi
  = (range_sum a lo (N.min hi m) + range_sum a (N.max lo m') hi)%Z.
Proof.
  intros ->. unfold range_sum. apply sum_between_add; intros x; unfold inb.
  - destruct (N.leb_spec lo x), (N.leb_spec x hi), (N.leb_spec x (N.min hi m)),
      (N.leb_spec (N.max lo (m + 1)) x); simpl; try reflexivity; lia.
  - destruct (N.leb_spec lo x), (N.leb_spec x hi), (N.leb_spec x (N.min hi m)),
      (N.leb_spec (N.max lo (m + 1)) x); simpl; try reflexivity; lia.
Qed.

(** Indices outside the array contribute nothing. *)
Lemma range_sum_clip a lo hi l r :
  l = 0 -> vsize a <= r + 1 ->
  range_sum a (N.max lo l) (N.min hi r) = range_sum a lo hi.
Proof.
  intros -> Hr. unfold range_sum. apply sum_between_ext. intros x _ Hx.
  unfold inb.
  destruct (N.leb_spec (N.max lo 0) x), (N.leb_spec x (N.min hi r)),
    (N.leb_spec lo x), (N.leb_spec x hi); simpl; try reflexivity; lia.
Qed.

Lemma range_sum_inverted a lo hi : hi < lo -> range_sum a lo hi = 0%Z.
Proof.
  intros H. unfold range_sum. apply sum_between_none. intros x _ _. unfold inb.
  destruct (N.leb_spec lo x), (N.leb_spec x hi); simpl; try reflexivity; lia.
Qed.

Lemma range_sum_assign a idx v a' old lo hi :
  at_ a idx = Returned old ->
  assign a idx v = Returned a' ->
  range_sum a' lo hi
  = (range_sum a lo hi + (if inb lo hi idx then v - old else 0))%Z.
Proof. intros H1 H2. unfold range_sum. now rewrite (sum_between_assign a 0 idx v a' old). Qed.

(** ** Positions in the vector [tree] *)

Lemma desc_refl i : desc i i.
Proof. exists 0. simpl. apply N.div_1_r. Qed.

Lemma desc_left i j : desc (2 * i + 1) j -> desc i j.
Proof.
  intros [k Hk]. exists (N.succ k).
  rewrite N.pow_succ_r', N.mul_comm, <- N.Div0.div_div, Hk.
  replace (2 * i + 1 + 1) with ((i + 1) * 2) by lia. now apply N.div_mul.
Qed.

Lemma desc_right i j : desc (2 * i + 2) j -> desc i j.
Proof.
  intros [k Hk]. exists (N.succ k).
  rewrite N.pow_succ_r', N.mul_comm, <- N.Div0.div_div, Hk.
  symmetry. apply (N.div_unique _ _ _ 1); lia.
Qed.

Lemma div_pow2_le x k : x / 2 ^ k <= x.
Proof.
  apply N.Div0.div_le_upper_bound.
  assert (2 ^ k <> 0) by (apply N.pow_nonzero; discriminate).
  rewrite <- (N.mul_1_l x) at 1. apply N.mul_le_mono_r. lia.
Qed.

Lemma desc_ge i j : desc i j -> i <= j.
Proof.
  intros [k Hk]. pose proof (div_pow2_le (j + 1) k). lia.
Qed.

Lemma desc_children_disjoint i j :
  desc (2 * i + 1) j -> desc (2 * i + 2) j -> False.
Proof.
  intros [k1 H1] [k2 H2].
  assert (Hshift : forall k d x, (j + 1) / 2 ^ k = x -> 1 <= d ->
                                 (j + 1) / 2 ^ (k + d) <= x / 2).
  { intros k d x Hx Hd. rewrite N.pow_add_r, <- N.Div0.div_div, Hx.
    replace d with (1 + (d - 1)) by lia. rewrite N.pow_add_r, <- N.Div0.div_div.
    change (2 ^ 1) with 2. apply div_pow2_le. }
  destruct (N.lt_trichotomy k1 k2) as [Hlt|[->|Hlt]].
  - pose proof (Hshift k1 (k2 - k1) _ H1) as H.
    replace (k1 + (k2 - k1)) with k2 in H by lia. rewrite H2 in H.
    assert ((2 * i + 1 + 1) / 2 = i + 1).
    { replace (2 * i + 1 + 1) with ((i + 1) * 2) by lia. now apply N.div_mul. }
    lia.
  - lia.
  - pose proof (Hshift k2 (k1 - k2) _ H2) as H.
    replace (k2 + (k1 - k2)) with k1 in H by lia. rewrite H1 in H.
    assert ((2 * i + 2 + 1) / 2 = i + 1).
    { symmetry. apply (N.div_unique _ _ _ 1); lia. }
    lia.
Qed.

Lemma fits_index size i len : fits size i len -> i < size.
Proof.
  intros (h & _ & H). assert (2 ^ h <> 0) by (apply N.pow_nonzero; discriminate). nia.
Qed.

Lemma fits_children size i l r :
  fits size i (r - l + 1) -> l < r ->
  fits size (2 * i + 1) (l + (r - l) / 2 - l + 1) /\
  fits size (2 * i + 2) (r - (l + (r - l) / 2 + 1) + 1).
Proof.
  intros (h & Hlen & Hsize) Hlt.
  destruct (N.eq_dec h 0) as [->|Hh]; [simpl in Hlen; lia|].
  replace h with (N.succ (h - 1)) in Hlen, Hsize by lia.
  rewrite N.pow_succ_r' in Hlen, Hsize.
  pose proof (half_bounds (r - l)).
  split; exists (h - 1); split; try nia; lia.
Qed.

Lemma fits_tree_size size n :
  1 <= n -> tree_size n <= size -> fits size 0 n.
Proof.
  unfold tree_size. intros Hn Hs. exists (N.log2_up n). split.
  - destruct (N.eq_dec n 1) as [->|]; [reflexivity|].
    apply N.log2_up_spec. lia.
  - assert (2 ^ N.log2_up n <> 0) by (apply N.pow_nonzero; discriminate). lia.
Qed.

(** ** The nodes of the tree *)

Section SegmentTreeFacts.

Variables T_min T_card : Z.
Hypothesis T_card_pos : (0 < T_card)%Z.
Hypothesis T_zero : T_value T_min T_card 0.

Local Abbreviation wrap := (T_wrap T_min T_card).
Local Abbreviation ok := (node_ok T_min T_card).

Lemma node_ok_frame a tr tr' l r i :
  ok a tr l r i ->
  (forall j, desc i j -> at_ tr' j = at_ tr j) ->
  ok a tr' l r i.
Proof.
  intros H. induction H as [l i Hv|l r i Hlt Hv Hl IHl Hr IHr]; intros Hf.
  - constructor. rewrite Hf; [assumption|apply desc_refl].
  - constructor; try assumption.
    + rewrite Hf; [assumption|apply desc_refl].
    + apply IHl. intros j Hj. apply Hf. now apply desc_left.
    + apply IHr. intros j Hj. apply Hf. now apply desc_right.
Qed.

Lemma node_ok_arr a a' tr l r i :
  ok a tr l r i ->
  (forall lo hi, l <= lo -> hi <= r -> range_sum a' lo hi = range_sum a lo hi) ->
  ok a' tr l r i.
Proof.
  intros H. induction H as [l i Hv|l r i Hlt Hv Hl IHl Hr IHr]; intros Hs.
  - constructor. rewrite Hs; [assumption|lia|lia].
  - pose proof (mid_between l r Hlt) as Hm.
    constructor; try assumption.
    + rewrite Hs; [assumption|lia|lia].
    + apply IHl. intros lo hi H1 H2. apply Hs; lia.
    + apply IHr. intros lo hi H1 H2. apply Hs; lia.
Qed.

Lemma node_ok_value a tr l r i :
  ok a tr l r i -> at_ tr i = Returned (wrap (range_sum a l r)).
Proof. now destruct 1. Qed.

Lemma build_tree_spec a :
  vsize a < size_t_card ->
  Forall (T_value T_min T_card) a ->
  forall fuel l r i tr,
    l <= r -> r < vsize a ->
    vsize tr < size_t_card ->
    fits (vsize tr) i (r - l + 1) ->
    (N.to_nat (r - l) < fuel)%nat ->
    exists tr',
      build_tree T_min T_card fuel a l r i tr
      = Returned (wrap (range_sum a l r), tr') /\
      length tr' = length tr /\
      ok a tr' l r i /\
      (forall j, ~ desc i j -> at_ tr' j = at_ tr j).
Proof.
  intros Ha Hvals. induction fuel as [|fuel IH]; intros l r i tr Hle Hr Ht Hfit Hfuel;
    [lia|].
  pose proof (fits_index _ _ _ Hfit) as Hi.
  cbn [build_tree]. destruct (N.eqb_spec l r) as [<-|Hne].
  - destruct (at_in_range a l Hr) as [v Hv]. rewrite Hv. cbn [bind].
    destruct (assign_in_range tr v i Hi) as [tr' Htr']. rewrite Htr'. cbn [bind].
    assert (Hval : wrap (range_sum a l l) = v).
    { rewrite (range_sum_single a l v Hv). apply T_wrap_id.
      rewrite Forall_forall in Hvals. apply Hvals. eapply at_In; eauto. }
    exists tr'. rewrite Hval. split; [reflexivity|].
    split; [eapply assign_length; eauto|]. split.
    + constructor. rewrite Hval. eapply at_assign_same; eauto.
    + intros j Hj. apply (at_assign_other _ _ _ _ _ Htr').
      intros ->. apply Hj, desc_refl.
  - assert (Hlt : l < r) by lia.
    pose proof (mid_between l r Hlt) as Hm.
    destruct (fits_children _ _ _ _ Hfit Hlt) as [Hfl Hfr].
    pose proof (fits_index _ _ _ Hfl) as Hil.
    pose proof (fits_index _ _ _ Hfr) as Hir.
    pose proof (half_bounds (r - l)) as Hhalf.
    rewrite mid_of_small by lia.
    rewrite (sz_small (2 * i + 1)), (sz_small (2 * i + 2)),
      (sz_small (l + (r - l) / 2 + 1)) by lia.
    destruct (IH l (l + (r - l) / 2) (2 * i + 1) tr)
      as (tr1 & E1 & L1 & Ok1 & F1); try assumption; try lia.
    rewrite E1. cbn [bind].
    assert (Vs1 : vsize tr1 = vsize tr) by (unfold vsize; now rewrite L1).
    destruct (IH (l + (r - l) / 2 + 1) r (2 * i + 2) tr1)
      as (tr2 & E2 & L2 & Ok2 & F2); try lia; try (rewrite Vs1; assumption).
    rewrite E2. cbn [bind].
    assert (Vs2 : vsize tr2 = vsize tr) by (unfold vsize; now rewrite L2, L1).
    destruct (assign_in_range tr2
                (T_plus T_min T_card (wrap (range_sum a l (l + (r - l) / 2)))
                        (wrap (range_sum a (l + (r - l) / 2 + 1) r))) i)
      as [tr3 Htr3]; [now rewrite Vs2|].
    rewrite Htr3. cbn [bind]. rewrite (at_assign_same _ _ _ _ Htr3). cbn [bind].
    assert (Hsum : T_plus T_min T_card (wrap (range_sum a l (l + (r - l) / 2)))
                          (wrap (range_sum a (l + (r - l) / 2 + 1) r))
                   = wrap (range_sum a l r)).
    { rewrite T_plus_wrap. f_equal.
      rewrite (range_sum_split a l r (l + (r - l) / 2) (l + (r - l) / 2 + 1) eq_refl).
      rewrite N.min_r, N.max_r by lia. reflexivity. }
    rewrite Hsum in Htr3 |- *.
    assert (F3 : forall j, j <> i -> at_ tr3 j = at_ tr2 j)
      by (intros j Hj; apply (at_assign_other _ _ _ _ _ Htr3 Hj)).
    exists tr3. split; [reflexivity|].
    split; [rewrite (assign_length _ _ _ _ Htr3); congruence|]. split.
    + constructor; try assumption.
      * eapply at_assign_same; eauto.
      * apply (node_ok_frame a tr1); [assumption|].
        intros j Hj. pose proof (desc_ge _ _ Hj).
        rewrite F3 by lia. apply F2. intros Hj'.
        exact (desc_children_disjoint i j Hj Hj').
      * apply (node_ok_frame a tr2); [assumption|].
        intros j Hj. pose proof (desc_ge _ _ Hj). apply F3. lia.
    + intros j Hj.
      rewrite F3 by (intros ->; apply Hj, desc_refl).
      rewrite F2 by (intros Hj'; apply Hj; now apply desc_right).
      apply F1. intros Hj'. apply Hj. now apply desc_left.
Qed.

Lemma get_sum_helper_spec a tr qs qe : forall l r i,
  ok a tr l r i ->
  forall fuel,
    r < size_t_card ->
    vsize tr < size_t_card ->
    fits (vsize tr) i (r - l + 1) ->
    (N.to_nat (r - l) < fuel)%nat ->
    get_sum_helper T_min T_card fuel tr qs qe l r i
    = Returned (wrap (range_sum a (N.max qs l) (N.min qe r))).
Proof.
  assert (Hzero : wrap 0 = 0%Z) by (now apply T_wrap_id).
  intros l r i H.
  induction H as [l i Hv|l r i Hlt Hv Hl IHl Hr IHr]; intros fuel Hrs Ht Hfit Hfuel;
    (destruct fuel as [|fuel]; [lia|]); cbn [get_sum_helper].
  - destruct (N.leb_spec qs l), (N.leb_spec l qe); cbn [andb].
    + rewrite N.max_r, N.min_r by lia. assumption.
    + destruct (N.ltb_spec l qs), (N.ltb_spec qe l); cbn [orb]; try lia;
        rewrite range_sum_inverted by lia; now rewrite Hzero.
    + destruct (N.ltb_spec l qs), (N.ltb_spec qe l); cbn [orb]; try lia;
        rewrite range_sum_inverted by lia; now rewrite Hzero.
    + destruct (N.ltb_spec l qs), (N.ltb_spec qe l); cbn [orb]; try lia;
        rewrite range_sum_inverted by lia; now rewrite Hzero.
  - pose proof (mid_between l r Hlt) as Hm.
    destruct (fits_children _ _ _ _ Hfit Hlt) as [Hfl Hfr].
    pose proof (fits_index _ _ _ Hfl) as Hil.
    pose proof (fits_index _ _ _ Hfr) as Hir.
    pose proof (half_bounds (r - l)) as Hhalf.
    destruct ((qs <=? l) && (r <=? qe)) eqn:Hc1.
    { apply andb_true_iff in Hc1. destruct Hc1 as [H1 H2].
      apply N.leb_le in H1, H2. rewrite N.max_r, N.min_r by lia. assumption. }
    destruct ((r <? qs) || (qe <? l)) eqn:Hc2.
    { apply orb_true_iff in Hc2.
      rewrite range_sum_inverted; [now rewrite Hzero|].
      destruct Hc2 as [H1|H1]; apply N.ltb_lt in H1; lia. }
    rewrite mid_of_small by lia.
    rewrite (sz_small (2 * i + 1)), (sz_small (2 * i + 2)),
      (sz_small (l + (r - l) / 2 + 1)) by lia.
    rewrite (IHl fuel) by (try assumption; lia). cbn [bind].
    rewrite (IHr fuel) by (try assumption; lia). cbn [bind].
    rewrite T_plus_wrap. do 2 f_equal.
    rewrite (range_sum_split a (N.max qs l) (N.min qe r)
               (l + (r - l) / 2) (l + (r - l) / 2 + 1) eq_refl).
    f_equal; f_equal; lia.
Qed.

Lemma update_helper_spec a a' idx v old :
  at_ a idx = Returned old ->
  assign a idx v = Returned a' ->
  forall fuel l r i tr,
    ok a tr l r i ->
    r < size_t_card ->
    vsize tr < size_t_card ->
    fits (vsize tr) i (r - l + 1) ->
    (N.to_nat (r - l) < fuel)%nat ->
    exists tr',
      update_helper T_min T_card fuel (T_minus T_min T_card v old) idx l r i tr
      = Returned tr' /\
      length tr' = length tr /\
      ok a' tr' l r i /\
      (forall j, ~ desc i j -> at_ tr' j = at_ tr j).
Proof.
  intros Hold Has.
  induction fuel as [|fuel IH]; intros l r i tr Hok Hrs Ht Hfit Hfuel; [lia|].
  pose proof (fits_index _ _ _ Hfit) as Hi.
  assert (Hle : l <= r) by (destruct Hok; lia).
  cbn [update_helper].
  destruct ((idx <? l) || (r <? idx)) eqn:Hout.
  { exists tr. split; [reflexivity|]. split; [reflexivity|]. split; [|reflexivity].
    apply (node_ok_arr a); [assumption|]. intros lo hi H1 H2.
    rewrite (range_sum_assign a idx v a' old lo hi Hold Has).
    apply orb_true_iff in Hout. unfold inb.
    destruct (N.leb_spec lo idx), (N.leb_spec idx hi); cbn [andb]; try lia.
    destruct Hout as [Ho|Ho]; apply N.ltb_lt in Ho; lia. }
  apply orb_false_iff in Hout. destruct Hout as [H1 H2].
  apply N.ltb_ge in H1, H2.
  rewrite (node_ok_value _ _ _ _ _ Hok). cbn [bind].
  assert (Hnew : T_plus T_min T_card (wrap (range_sum a l r)) (T_minus T_min T_card v old)
                 = wrap (range_sum a' l r)).
  { unfold T_minus. rewrite T_plus_wrap. f_equal.
    rewrite (range_sum_assign a idx v a' old l r Hold Has). unfold inb.
    destruct (N.leb_spec l idx), (N.leb_spec idx r); cbn [andb]; lia. }
  rewrite Hnew.
  destruct (assign_in_range tr (wrap (range_sum a' l r)) i Hi) as [tr1 Htr1].
  rewrite Htr1. cbn [bind].
  assert (F1 : forall j, j <> i -> at_ tr1 j = at_ tr j)
    by (intros j Hj; apply (at_assign_other _ _ _ _ _ Htr1 Hj)).
  assert (Vs1 : vsize tr1 = vsize tr)
    by (unfold vsize; now rewrite (assign_length _ _ _ _ Htr1)).
  destruct (N.eqb_spec l r) as [<-|Hne].
  - exists tr1. split; [reflexivity|]. split; [eapply assign_length; eauto|]. split.
    + constructor. eapply at_assign_same; eauto.
    + intros j Hj. apply F1. intros ->. apply Hj, desc_refl.
  - assert (Hlt : l < r) by lia.
    pose proof (mid_between l r Hlt) as Hm.
    destruct (fits_children _ _ _ _ Hfit Hlt) as [Hfl Hfr].
    pose proof (fits_index _ _ _ Hfl) as Hil.
    pose proof (fits_index _ _ _ Hfr) as Hir.
    pose proof (half_bounds (r - l)) as Hhalf.
    assert (Hkids : ok a tr l (l + (r - l) / 2) (2 * i + 1) /\
                    ok a tr (l + (r - l) / 2 + 1) r (2 * i + 2)).
    { inversion Hok; subst; [lia|]. now split. }
    destruct Hkids as [Okl Okr].
    rewrite mid_of_small by lia.
    rewrite (sz_small (2 * i + 1)), (sz_small (2 * i + 2)),
      (sz_small (l + (r - l) / 2 + 1)) by lia.
    destruct (IH l (l + (r - l) / 2) (2 * i + 1) tr1)
      as (tr2 & E2 & L2 & Ok2 & F2); try lia; try (rewrite Vs1; assumption).
    { apply (node_ok_frame a tr); [assumption|].
      intros j Hj. pose proof (desc_ge _ _ Hj). apply F1. lia. }
    rewrite E2. cbn [bind].
    assert (Vs2 : vsize tr2 = vsize tr) by (unfold vsize; rewrite L2; exact Vs1).
    destruct (IH (l + (r - l) / 2 + 1) r (2 * i + 2) tr2)
      as (tr3 & E3 & L3 & Ok3 & F3); try lia; try (rewrite Vs2; assumption).
    { apply (node_ok_frame a tr); [assumption|].
      intros j Hj. pose proof (desc_ge _ _ Hj).
      rewrite F2 by (intros Hj'; exact (desc_children_disjoint i j Hj' Hj)).
      apply F1. lia. }
    exists tr3. split; [assumption|].
    split; [rewrite L3, L2; eapply assign_length; eauto|]. split.
    + constructor; try assumption.
      * rewrite F3 by (intros Hj; apply desc_ge in Hj; lia).
        rewrite F2 by (intros Hj; apply desc_ge in Hj; lia).
        eapply at_assign_same; eauto.
      * apply (node_ok_frame a' tr2); [assumption|].
        intros j Hj. apply F3. intros Hj'.
        exact (desc_children_disjoint i j Hj Hj').
    + intros j Hj.
      rewrite F3 by (intros Hj'; apply Hj; now apply desc_right).
      rewrite F2 by (intros Hj'; apply Hj; now apply desc_left).
      apply F1. intros ->. apply Hj, desc_refl.
Qed.

Lemma assign_Forall {A : Type} (P : A -> Prop) (v : list A) : forall i x v',
  Forall P v -> P x -> assign v i x = Returned v' -> Forall P v'.
Proof.
  induction v as [|y v IH]; simpl; intros i x v' Hv Hx H; [discriminate|].
  inversion Hv; subst. destruct (i =? 0).
  - injection H as <-. now constructor.
  - inv_bind H. injection H as <-. constructor; eauto.
Qed.

Lemma SegmentTree_new_ok a size fuel :
  1 <= vsize a -> vsize a < size_t_card ->
  Forall (T_value T_min T_card) a ->
  tree_size (vsize a) <= size -> size < size_t_card ->
  (length a <= fuel)%nat ->
  exists st, SegmentTree_new T_min T_card fuel size a = Returned st /\
             arr st = a /\ st_ok T_min T_card st.
Proof.
  intros Hn Ha Hvals Hsize Hs Hfuel. unfold SegmentTree_new.
  rewrite (sz_small (vsize a)) by assumption.
  rewrite sz_sub_small by lia.
  assert (Vt : vsize (repeat 0%Z (N.to_nat size)) = size).
  { rewrite vsize_repeat. apply N2Nat.id. }
  destruct (build_tree_spec a Ha Hvals fuel 0 (vsize a - 1) 0
                            (repeat 0%Z (N.to_nat size)))
    as (tr & E & L & Hok & _); try lia.
  { rewrite Vt. replace (vsize a - 1 - 0 + 1) with (vsize a) by lia.
    now apply fits_tree_size. }
  { unfold vsize in *. lia. }
  rewrite E. cbn [bind]. eexists. split; [reflexivity|]. split; [reflexivity|].
  assert (Vtr : vsize tr = size) by (unfold vsize in *; now rewrite L).
  constructor; cbn [arr arr_size tree].
  - reflexivity.
  - assumption.
  - assumption.
  - lia.
  - assumption.
  - rewrite Vtr. now apply fits_tree_size.
  - assumption.
Qed.

Lemma get_sum_ok st fuel qs qe :
  st_ok T_min T_card st ->
  (N.to_nat (arr_size st) <= fuel)%nat ->
  get_sum T_min T_card fuel st qs qe
  = Returned (wrap (range_sum (arr st) qs qe)).
Proof.
  intros Hst Hfuel. destruct Hst as [Hsz Hne Ha Ht Hvals Hfit Hok].
  unfold get_sum. rewrite sz_sub_small by lia.
  rewrite (get_sum_helper_spec (arr st) (tree st) qs qe 0 (arr_size st - 1) 0 Hok);
    try lia.
  - now rewrite range_sum_clip by lia.
  - replace (arr_size st - 1 - 0 + 1) with (arr_size st) by lia. assumption.
Qed.

Lemma update_ok st fuel index v :
  st_ok T_min T_card st ->
  index < arr_size st -> T_value T_min T_card v ->
  (N.to_nat (arr_size st) <= fuel)%nat ->
  exists st', update T_min T_card fuel st index v = Returned st' /\
              st_ok T_min T_card st' /\
              assign (arr st) index v = Returned (arr st') /\
              arr_size st' = arr_size st.
Proof.
  intros Hst Hidx Hv Hfuel. destruct Hst as [Hsz Hne Ha Ht Hvals Hfit Hok].
  unfold update.
  destruct (at_in_range (arr st) index) as [old Hold]; [lia|].
  destruct (assign_in_range (arr st) v index) as [a' Ha']; [lia|].
  rewrite Hold, Ha'. cbn [bind]. rewrite sz_sub_small by lia.
  destruct (update_helper_spec (arr st) a' index v old Hold Ha' fuel
                               0 (arr_size st - 1) 0 (tree st) Hok)
    as (tr' & E & L & Hok' & _); try lia.
  { replace (arr_size st - 1 - 0 + 1) with (arr_size st) by lia. assumption. }
  rewrite E. cbn [bind]. eexists. split; [reflexivity|].
  assert (Va : vsize a' = vsize (arr st))
    by (unfold vsize; now rewrite (assign_length _ _ _ _ Ha')).
  assert (Vt : vsize tr' = vsize (tree st)) by (unfold vsize; now rewrite L).
  split; [|split; reflexivity].
  constructor; cbn [arr arr_size tree].
  - congruence.
  - assumption.
  - congruence.
  - congruence.
  - eapply assign_Forall; eauto.
  - now rewrite Vt.
  - assumption.
Qed.

Lemma updates_ok fuel : forall us st,
  st_ok T_min T_card st ->
  Forall (fun u => fst u < arr_size st /\ T_value T_min T_card (snd u)) us ->
  (N.to_nat (arr_size st) <= fuel)%nat ->
  exists st', updates T_min T_card fuel st us = Returned st' /\
              st_ok T_min T_card st' /\
              arr st' = assigned (arr st) us /\
              arr_size st' = arr_size st.
Proof.
  induction us as [|[index v] us IH]; intros st Hst Hus Hfuel.
  - exists st. split; [reflexivity|]. split; [assumption|]. split; reflexivity.
  - inversion Hus as [|u us' [Hidx Hv] Hus']; subst. cbn [fst snd] in *.
    destruct (update_ok st fuel index v Hst Hidx Hv Hfuel)
      as (st1 & E1 & Hst1 & Ha1 & Hn1).
    cbn [updates]. rewrite E1. cbn [bind].
    destruct (IH st1 Hst1) as (st' & E' & Hst' & Ha' & Hn'); try (rewrite Hn1; assumption).
    exists st'. split; [assumption|]. split; [assumption|]. split; [|congruence].
    cbn [assigned]. now rewrite Ha1.
Qed.

End SegmentTreeFacts.


(** ** What a user of the segment tree can rely on *)

Lemma T_zero_card_pos T_min T_card :
  T_value T_min T_card 0 -> (0 < T_card)%Z.
Proof. unfold T_value. lia. Qed.

Lemma segment_tree_state T_min T_card a size fuel us st0 st :
  T_value T_min T_card 0 ->
  Forall (T_value T_min T_card) a ->
  1 <= vsize a -> vsize a < size_t_card ->
  tree_size (vsize a) <= size -> size < size_t_card ->
  Forall (valid_update T_min T_card (vsize a)) us ->
  (length a <= fuel)%nat ->
  SegmentTree_new T_min T_card fuel size a = Returned st0 ->
  updates T_min T_card fuel st0 us = Returned st ->
  st_ok T_min T_card st /\ arr st = assigned a us /\ arr_size st = vsize a.
Proof.
  intros H0 Hvals Hn Ha Hsize Hs Hus Hfuel Hnew Hupd.
  destruct (SegmentTree_new_ok T_min T_card a size fuel Hn Ha Hvals Hsize Hs Hfuel)
    as (st0' & E0 & Harr0 & Hok0).
  rewrite Hnew in E0. injection E0 as <-.
  assert (Hn0 : arr_size st0 = vsize a) by (rewrite <- Harr0; apply Hok0).
  destruct (updates_ok T_min T_card (T_zero_card_pos _ _ H0) fuel us st0 Hok0) as (st' & E' & Hok' & Harr' & Hn').
  { rewrite Hn0. exact Hus. }
  { rewrite Hn0. unfold vsize. lia. }
  rewrite Hupd in E'. injection E' as <-.
  split; [assumption|]. split; congruence.
Qed.

(** After [SegmentTree(arr)] on a non-empty array, [get_sum(qs, qe)] returns
    the sum, in [T], of the elements of [arr] whose index lies between [qs]
    and [qe]; nothing is read outside [tree], provided [tree] was given at
    least [2 * 2 ^ ceil(log2 n) - 1] elements. *)
Theorem segment_tree_sums :
  forall T_min T_card a size fuel,
    T_value T_min T_card 0 ->
    Forall (T_value T_min T_card) a ->
    1 <= vsize a -> vsize a < size_t_card ->
    tree_size (vsize a) <= size -> size < size_t_card ->
    (length a <= fuel)%nat ->
    exists st,
      SegmentTree_new T_min T_card fuel size a = Returned st /\
      arr st = a /\
      forall qs qe,
        get_sum T_min T_card fuel st qs qe
        = Returned (T_wrap T_min T_card (range_sum a qs qe)).
Proof.
  intros T_min T_card a size fuel H0 Hvals Hn Ha Hsize Hs Hfuel.
  destruct (SegmentTree_new_ok T_min T_card a size fuel Hn Ha Hvals Hsize Hs Hfuel)
    as (st & E & Harr & Hok).
  exists st. split; [assumption|]. split; [assumption|].
  intros qs qe. rewrite <- Harr. apply get_sum_ok; try assumption.
  rewrite (so_size _ _ _ Hok), Harr. unfold vsize. lia.
Qed.

Lemma main_arr_values : Forall (T_value int_min int_card) main_arr.
Proof. repeat constructor; unfold T_value, int_min, int_card; simpl; lia. Qed.

Lemma segment_tree_sums_witness :
  exists st,
    SegmentTree_new int_min int_card 6 15 main_arr = Returned st /\
    arr st = main_arr /\
    forall qs qe,
      get_sum int_min int_card 6 st qs qe
      = Returned (T_wrap int_min int_card (range_sum main_arr qs qe)).
Proof.
  apply (segment_tree_sums int_min int_card main_arr 15 6).
  - unfold T_value, int_min, int_card. lia.
  - repeat constructor; unfold T_value, int_min, int_card; simpl; lia.
  - vm_compute. discriminate.
  - reflexivity.
  - vm_compute. discriminate.
  - reflexivity.
  - apply le_n.
Defined.

(** After [SegmentTree(arr)] and any sequence of [update(index, new_val)]
    calls with [index] inside the array, the field [arr] is the array with
    these assignments made, and [get_sum(qs, qe)] returns the sum, in [T], of
    its elements whose index lies between [qs] and [qe]. *)
Theorem segment_tree_updates :
  forall T_min T_card a size fuel us,
    T_value T_min T_card 0 ->
    Forall (T_value T_min T_card) a ->
    1 <= vsize a -> vsize a < size_t_card ->
    tree_size (vsize a) <= size -> size < size_t_card ->
    Forall (valid_update T_min T_card (vsize a)) us ->
    (length a <= fuel)%nat ->
    exists st,
      (st0 <- SegmentTree_new T_min T_card fuel size a ;;
       updates T_min T_card fuel st0 us) = Returned st /\
      arr st = assigned a us /\
      length (arr st) = length a /\
      forall qs qe,
        get_sum T_min T_card fuel st qs qe
        = Returned (T_wrap T_min T_card (range_sum (assigned a us) qs qe)).
Proof.
  intros T_min T_card a size fuel us H0 Hvals Hn Ha Hsize Hs Hus Hfuel.
  destruct (SegmentTree_new_ok T_min T_card a size fuel Hn Ha Hvals Hsize Hs Hfuel)
    as (st0 & E0 & Harr0 & Hok0).
  assert (Hn0 : arr_size st0 = vsize a) by (rewrite <- Harr0; apply Hok0).
  destruct (updates_ok T_min T_card (T_zero_card_pos _ _ H0) fuel us st0 Hok0) as (st & E & Hok & Harr & Hsz).
  { rewrite Hn0. exact Hus. }
  { rewrite Hn0. unfold vsize. lia. }
  exists st. rewrite E0. cbn [bind]. split; [assumption|].
  rewrite Harr0 in Harr. split; [assumption|].
  assert (Hlen : length (arr st) = length a).
  { pose proof (so_size _ _ _ Hok) as H. rewrite Hsz, Hn0 in H.
    unfold vsize in H. lia. }
  split; [assumption|].
  intros qs qe. rewrite <- Harr. apply get_sum_ok; try assumption.
  rewrite Hsz, Hn0. unfold vsize. lia.
Qed.

Lemma segment_tree_updates_witness :
  exists st,
    (st0 <- SegmentTree_new int_min int_card 6 15 main_arr ;;
     updates int_min int_card 6 st0 [(1, 9%Z); (5, 69%Z)]) = Returned st /\
    arr st = assigned main_arr [(1, 9%Z); (5, 69%Z)] /\
    length (arr st) = length main_arr /\
    forall qs qe,
      get_sum int_min int_card 6 st qs qe
      = Returned (T_wrap int_min int_card
                         (range_sum (assigned main_arr [(1, 9%Z); (5, 69%Z)]) qs qe)).
Proof.
  apply (segment_tree_updates int_min int_card main_arr 15 6 [(1, 9%Z); (5, 69%Z)]).
  - unfold T_value, int_min, int_card. lia.
  - repeat constructor; unfold T_value, int_min, int_card; simpl; lia.
  - vm_compute. discriminate.
  - reflexivity.
  - vm_compute. discriminate.
  - reflexivity.
  - repeat constructor; unfold T_value, int_min, int_card; simpl; lia.
  - apply le_n.
Defined.

(** In every state reached by [SegmentTree(arr)] and [update] calls with
    indices inside the array: a query whose end precedes its start, or that
    starts past the array, returns 0; a query that ends past the array
    returns what it returns when it ends at the last element; and
    [get_sum(x, x)] returns the element [arr[x]]. *)
Theorem get_sum_edge_queries :
  forall T_min T_card a size fuel us st0 st,
    T_value T_min T_card 0 ->
    Forall (T_value T_min T_card) a ->
    1 <= vsize a -> vsize a < size_t_card ->
    tree_size (vsize a) <= size -> size < size_t_card ->
    Forall (valid_update T_min T_card (vsize a)) us ->
    (length a <= fuel)%nat ->
    SegmentTree_new T_min T_card fuel size a = Returned st0 ->
    updates T_min T_card fuel st0 us = Returned st ->
    (forall qs qe, qe < qs -> get_sum T_min T_card fuel st qs qe = Returned 0%Z) /\
    (forall qs qe, vsize a <= qs -> get_sum T_min T_card fuel st qs qe = Returned 0%Z) /\
    (forall qs qe, vsize a - 1 <= qe ->
       get_sum T_min T_card fuel st qs qe
       = get_sum T_min T_card fuel st qs (vsize a - 1)) /\
    (forall x v, at_ (arr st) x = Returned v ->
       get_sum T_min T_card fuel st x x = Returned v).
Proof.
  intros T_min T_card a size fuel us st0 st H0 Hvals Hn Ha Hsize Hs Hus Hfuel Hnew Hupd.
  destruct (segment_tree_state T_min T_card a size fuel us st0 st
              H0 Hvals Hn Ha Hsize Hs Hus Hfuel Hnew Hupd) as (Hok & Harr & Hsz).
  assert (Hf : (N.to_nat (arr_size st) <= fuel)%nat)
    by (rewrite Hsz; unfold vsize; lia).
  assert (Hzero : T_wrap T_min T_card 0 = 0%Z) by (now apply T_wrap_id).
  assert (Hlen : vsize (arr st) = vsize a)
    by (rewrite <- Hsz; symmetry; apply Hok).
  split; [|split; [|split]].
  - intros qs qe Hq. rewrite (get_sum_ok T_min T_card H0 st fuel qs qe Hok Hf).
    rewrite range_sum_inverted by assumption. now rewrite Hzero.
  - intros qs qe Hq. rewrite (get_sum_ok T_min T_card H0 st fuel qs qe Hok Hf).
    unfold range_sum. rewrite sum_between_none; [now rewrite Hzero|].
    intros x _ Hx. unfold inb. destruct (N.leb_spec qs x); [lia|reflexivity].
  - intros qs qe Hq. rewrite !(get_sum_ok T_min T_card H0 st fuel) by assumption.
    do 2 f_equal. unfold range_sum. apply sum_between_ext. intros x _ Hx.
    unfold inb. destruct (N.leb_spec x qe), (N.leb_spec x (vsize a - 1)); try reflexivity; lia.
  - intros x v Hx. rewrite (get_sum_ok T_min T_card H0 st fuel x x Hok Hf).
    rewrite (range_sum_single _ _ _ Hx). f_equal. apply T_wrap_id.
    pose proof (so_values _ _ _ Hok) as Hv. rewrite Forall_forall in Hv.
    apply Hv. eapply at_In; eauto.
Qed.



Lemma get_sum_edge_queries_witness :
  let st := mkSegmentTree [42; 15; 27; 10; 5; 16; 11; 1; 9; 0; 0; 7; 9; 0; 0]%Z
                          6 [1; 9; 5; 7; 9; 11]%Z in
  (forall qs qe, qe < qs -> get_sum int_min int_card 6 st qs qe = Returned 0%Z) /\
  (forall qs qe, vsize main_arr <= qs ->
     get_sum int_min int_card 6 st qs qe = Returned 0%Z) /\
  (forall qs qe, vsize main_arr - 1 <= qe ->
     get_sum int_min int_card 6 st qs qe
     = get_sum int_min int_card 6 st qs (vsize main_arr - 1)) /\
  (forall x v, at_ (arr st) x = Returned v ->
     get_sum int_min int_card 6 st x x = Returned v).
Proof.
  apply (get_sum_edge_queries int_min int_card main_arr 15 6 [(1, 9%Z)]
           (mkSegmentTree [36; 9; 27; 4; 5; 16; 11; 1; 3; 0; 0; 7; 9; 0; 0]%Z
                          6 main_arr)).
  - unfold T_value, int_min, int_card. lia.
  - repeat constructor; unfold T_value, int_min, int_card; simpl; lia.
  - vm_compute. discriminate.
  - reflexivity.
  - vm_compute. discriminate.
  - reflexivity.
  - repeat constructor; unfold T_value, int_min, int_card; simpl; lia.
  - apply le_n.
  - reflexivity.
  - reflexivity.
Defined.

(** ** The program of seg_tree.cpp *)

Lemma T_wrap_shift T_min T_card z k :
  T_wrap T_min T_card (z + k * T_card) = T_wrap T_min T_card z.
Proof.
  unfold T_wrap. f_equal.
  replace (z + k * T_card - T_min)%Z with (z - T_min + k * T_card)%Z by lia.
  apply Z_mod_plus_full.
Qed.

Lemma T_wrap_multiple T_min T_card z :
  exists k, T_wrap T_min T_card z = (z + k * T_card)%Z.
Proof.
  exists (- ((z - T_min) / T_card))%Z. unfold T_wrap.
  pose proof (Z_div_mod_eq_full (z - T_min) T_card). lia.
Qed.

Lemma T_wrap_restore T_min T_card s t :
  T_wrap T_min T_card (s + T_minus T_min T_card t (T_wrap T_min T_card s))
  = T_wrap T_min T_card t.
Proof.
  unfold T_minus.
  destruct (T_wrap_multiple T_min T_card s) as [k1 ->].
  destruct (T_wrap_multiple T_min T_card (t - (s + k1 * T_card))) as [k2 ->].
  replace (s + (t - (s + k1 * T_card) + k2 * T_card))%Z
    with (t + (k2 - k1) * T_card)%Z by lia.
  apply T_wrap_shift.
Qed.

Lemma range_sum_first_two x y rest :
  range_sum (x :: y :: rest) 0 1 = (x + y)%Z.
Proof.
  unfold range_sum. cbn [sum_between].
  change (N.succ (N.succ 0)) with 2. cbn.
  rewrite sum_between_none; [lia|].
  intros i Hi _. unfold inb.
  destruct (N.leb_spec i 1); [lia|]. apply andb_false_r.
Qed.

Lemma range_sum_last a n l :
  vsize a = n -> 2 <= n -> at_ a (n - 1) = Returned l ->
  range_sum a 0 (n - 1) = (range_sum a 0 (n - 2) + l)%Z.
Proof.
  intros Hn H2 Hl.
  rewrite (range_sum_split a 0 (n - 1) (n - 2) (n - 1)) by lia.
  replace (N.min (n - 1) (n - 2)) with (n - 2) by lia.
  replace (N.max 0 (n - 1)) with (n - 1) by lia.
  now rewrite (range_sum_single _ _ _ Hl).
Qed.

(** [main] of seg_tree.cpp, run on any array [x, y, ...] of at least two
    [int]s: it prints [x + y], then [x + 9] (after [update(1, 9)]), then 100,
    the total of the array once its last element has been replaced by 100
    minus the sum of the others. *)
Theorem seg_main_output :
  forall x y rest size fuel,
    let a := x :: y :: rest in
    Forall (T_value int_min int_card) a ->
    vsize a < size_t_card ->
    tree_size (vsize a) <= size -> size < size_t_card ->
    (length a <= fuel)%nat ->
    seg_main fuel size a
    = Returned [T_wrap int_min int_card (x + y);
                T_wrap int_min int_card (x + 9); 100%Z].
Proof.
  intros x y rest size fuel a Hvals Ha Hsize Hs Hfuel.
  assert (H0 : T_value int_min int_card 0)
    by (unfold T_value, int_min, int_card; lia).
  assert (Hc : (0 < int_card)%Z) by reflexivity.
  assert (Hn : 2 <= vsize a).
  { unfold a, vsize. cbn [length]. lia. }
  destruct (SegmentTree_new_ok int_min int_card a size fuel
              ltac:(lia) Ha Hvals Hsize Hs Hfuel) as (st & E & Harr & Hok).
  assert (Hsz : arr_size st = vsize a) by (rewrite <- Harr; apply Hok).
  assert (Hf : (N.to_nat (arr_size st) <= fuel)%nat)
    by (rewrite Hsz; unfold vsize; lia).
  unfold seg_main. fold a. rewrite E. cbn [bind].
  rewrite (get_sum_ok _ _ H0 st fuel 0 1 Hok Hf). cbn [bind].
  destruct (update_ok _ _ Hc st fuel 1 9%Z Hok) as (st1 & E1 & Hok1 & Harr1 & Hsz1);
    [lia| unfold T_value, int_min, int_card; lia | exact Hf |].
  rewrite E1. cbn [bind].
  assert (Hf1 : (N.to_nat (arr_size st1) <= fuel)%nat) by (now rewrite Hsz1).
  rewrite !(get_sum_ok _ _ H0 st1 fuel) by assumption. cbn [bind].
  rewrite sz_small by assumption.
  rewrite !sz_sub_small by lia.
  set (s := range_sum (arr st1) 0 (vsize a - 2)).
  destruct (update_ok _ _ Hc st1 fuel (vsize a - 1)
              (T_minus int_min int_card 100 (T_wrap int_min int_card s)) Hok1)
    as (st2 & E2 & Hok2 & Harr2 & Hsz2);
    [lia| apply T_wrap_value; exact Hc | exact Hf1 |].
  rewrite E2. cbn [bind].
  assert (Hf2 : (N.to_nat (arr_size st2) <= fuel)%nat) by (now rewrite Hsz2).
  rewrite (get_sum_ok _ _ H0 st2 fuel) by assumption. cbn [bind].
  assert (Hlen1 : vsize (arr st1) = vsize a)
    by (rewrite <- Hsz, <- Hsz1; symmetry; apply Hok1).
  destruct (at_in_range (arr st1) (vsize a - 1)) as [l Hl]; [lia|].
  rewrite (range_sum_assign _ _ _ _ _ 0 (vsize a - 1) Hl Harr2).
  rewrite (range_sum_last _ _ _ Hlen1 Hn Hl). fold s.
  replace (inb 0 (vsize a - 1) (vsize a - 1)) with true
    by (unfold inb; symmetry; apply andb_true_iff; split; apply N.leb_le; lia).
  replace (s + l + (T_minus int_min int_card 100 (T_wrap int_min int_card s) - l))%Z
    with (s + T_minus int_min int_card 100 (T_wrap int_min int_card s))%Z by lia.
  rewrite T_wrap_restore.
  assert (Hy : at_ (arr st) 1 = Returned y) by (rewrite Harr; reflexivity).
  rewrite (range_sum_assign _ _ _ _ _ 0 1 Hy Harr1).
  rewrite Harr. unfold a. rewrite range_sum_first_two.
  change (inb 0 1 1) with true. cbv iota.
  replace (x + y + (9 - y))%Z with (x + 9)%Z by lia.
  reflexivity.
Qed.

Lemma seg_main_output_witness :
  seg_main 6 15 main_arr = Returned [4; 10; 100]%Z.
Proof.
  apply (seg_main_output 1 3 [5; 7; 9; 11]%Z 15 6).
  - repeat constructor; unfold T_value, int_min, int_card; simpl; lia.
  - reflexivity.
  - vm_compute. discriminate.
  - reflexivity.
  - apply le_n.
Defined.
